(** * Monkey King Evolution (MKE v1, v2, v3) of NiaPy

    A shallow embedding of [niapy/algorithms/basic/mke.py] (the current
    package) and of [NiaPy/algorithms/basic/mke.py] (the earlier package
    kept next to it), with the properties of the specification stated
    and settled over it.

    Numbers.  Python floats are modelled by exact rationals [Q]; [np.inf]
    is a separate constructor of [fitness].  Rounding and NaN are outside
    the model.  Two rationals that are equal as numbers ([==]) need not be
    equal as terms, so numeric statements use [==] and the order of [Q].

    Randomness.  The random source is an interface ([Generator]); the code
    is a function of the generator state it is handed, and every draw
    returns the next state.

    Errors.  A Python exception is [None]. *)

From Stdlib Require Import QArith Qabs Qround Qpower Lqa Lia ZArith Bool.
From stdpp Require Import list.

Local Open Scope Q_scope.

(** ** Scalars *)

(** [x < y] on floats, as a boolean. *)
Definition Qltb (a b : Q) : bool := negb (Qle_bool b a).

(** Python's [int(x)] on a float: truncation toward zero. *)
Definition py_int (q : Q) : Z := Z.quot (Qnum q) (Zpos (Qden q)).

(** [math.ceil]. *)
Definition py_ceil (q : Q) : Z := Qceiling q.

(** [int(x)] used as a count: [range(int(x))], the number of rows of a
    random matrix. *)
Definition count_of (q : Q) : nat := Z.to_nat (py_int q).

(** A fitness value: a float or [inf]. *)
Inductive fitness : Type :=
| Fin (q : Q)
| Inf.

(** [a < b] on fitness values. *)
Definition ltf (a b : fitness) : bool :=
  match a, b with
  | Fin p, Fin q => Qltb p q
  | Fin _, Inf => true
  | Inf, _ => false
  end.

(** [a <= b] on fitness values. *)
Definition lef (a b : fitness) : bool :=
  match a, b with
  | Fin p, Fin q => Qle_bool p q
  | _, Inf => true
  | Inf, Fin _ => false
  end.

(** Numeric equality of fitness values. *)
Definition eqf (a b : fitness) : Prop :=
  match a, b with
  | Fin p, Fin q => p == q
  | Inf, Inf => True
  | _, _ => False
  end.

(** The smaller of two fitness values, the first one on a tie. *)
Definition minf (a b : fitness) : fitness := if ltf b a then b else a.

(** ** Arrays *)

Abbreviation vec := (list Q).
Abbreviation mat := (list (list Q)).

Definition vadd (a b : vec) : vec := zip_with Qplus a b.
Definition vsub (a b : vec) : vec := zip_with Qminus a b.
Definition vmul (a b : vec) : vec := zip_with Qmult a b.
Definition vscale (s : Q) (a : vec) : vec := map (Qmult s) a.

(** [np.argmin] and [np.argmax] scan from the left and keep the first index
    that attains the extremum; on an empty array they raise. [better y b]
    says that the element [y] strictly beats the best so far. *)
Fixpoint argbest_from (better : fitness -> fitness -> bool)
    (best : fitness) (bi i : nat) (l : list fitness) : nat :=
  match l with
  | [] => bi
  | y :: l' =>
      if better y best then argbest_from better y i (S i) l'
      else argbest_from better best bi (S i) l'
  end.

Definition argbest (better : fitness -> fitness -> bool)
    (l : list fitness) : option nat :=
  match l with
  | [] => None
  | y :: l' => Some (argbest_from better y 0%nat 1%nat l')
  end.

Definition argmin : list fitness -> option nat := argbest ltf.
Definition argmax : list fitness -> option nat := argbest (fun y b => ltf b y).

(** ** The random source

    [numpy.random]'s generator, as the code uses it: [rand n] is
    [random(n)] / [rand(n)], [rand2 n d] is [random((n, d))] /
    [rand(n, d)], [choice n k replace] is [choice(n, k, replace=...)] on
    its valid domain and [shuffle] permutes a row.  The laws are numpy's
    documented contract: shapes, index range, and distinct indices when
    sampling without replacement. *)
Class Generator (G : Type) : Type := {
  rand : nat -> G -> vec * G;
  rand2 : nat -> nat -> G -> mat * G;
  choice : nat -> nat -> bool -> G -> list nat * G;
  shuffle : vec -> G -> vec * G;
  rand_length : forall n g, length (rand n g).1 = n;
  rand2_rows : forall n d g, length (rand2 n d g).1 = n;
  rand2_cols : forall n d g, Forall (fun r => length r = d) (rand2 n d g).1;
  choice_length : forall n k b g, length (choice n k b g).1 = k;
  choice_range :
    forall n k b g, (0 < n)%nat -> (b = false -> (k <= n)%nat) ->
      Forall (fun i => (i < n)%nat) (choice n k b g).1;
  choice_distinct :
    forall n k g, (k <= n)%nat -> NoDup (choice n k false g).1;
  shuffle_permutes : forall v g, Permutation v (shuffle v g).1
}.

(** ** Computations: state and exceptions *)

Definition M (S A : Type) : Type := S -> option (A * S).

Definition ret {S A : Type} (a : A) : M S A := fun s => Some (a, s).

Definition bind {S A B : Type} (m : M S A) (k : A -> M S B) : M S B :=
  fun s => match m s with
           | Some (a, s') => k a s'
           | None => None
           end.

Definition raise {S A : Type} : M S A := fun _ => None.

Notation "'do' x <- m ; k" := (bind m (fun x => k))
  (at level 10, x pattern, m at level 100, k at level 200).

(** A [for] loop that collects one result per element. *)
Fixpoint traverse {S A B : Type} (fn : A -> M S B) (l : list A) : M S (list B) :=
  match l with
  | [] => ret []
  | a :: l' => do b <- fn a; do bs <- traverse fn l'; ret (b :: bs)
  end.

(** [np.apply_along_axis(fn, 1, a, ...)]: [fn] on every row, in order; it
    raises on an array without rows. *)
Definition apply_along_axis {S A : Type} (fn : vec -> M S A) (a : mat) : M S (list A) :=
  match a with
  | [] => raise
  | _ => traverse fn a
  end.

(** ** The task *)

(** Modelled from the spec: the class [Task] is not part of these sources.
    Section 3 gives its attributes: dimension, bound vectors, the
    objective and the evaluation budget; the counter of consumed
    evaluations is part of the run state. *)
Record Task : Type := {
  dimension : nat;
  lower : vec;
  upper : vec;
  fn : vec -> Q;
  max_evals : nat
}.

(** Modelled from the spec: [range = upper - lower] (section 3). *)
Definition range (t : Task) : vec := vsub (upper t) (lower t).

(** Modelled from the spec: [evaluate] fails with [DimensionMismatch] when
    the length disagrees with the dimension, increments the counter by
    one and calls the objective. *)
Definition Task_evaluate (t : Task) (pos : vec) (used : nat) : option (fitness * nat) :=
  if (length pos =? dimension t)%nat then Some (Fin (fn t pos), S used) else None.

(** Modelled from the spec: clipping of one component to the nearest
    bound, for [repair] (section 4.1). *)
Definition clip (lo hi v : Q) : Q :=
  if Qltb v lo then lo else if Qltb hi v then hi else v.

(** Modelled from the spec: the clipping of [repair] on a position of the
    task's dimension, every component against its own pair of bounds. *)
Definition clip_to (t : Task) (pos : vec) : vec :=
  zip_with (fun b v => clip b.1 b.2 v) (zip (lower t) (upper t)) pos.

(** Modelled from the spec: [repair(position, rng)] clips every
    out-of-range component to the nearest bound; it does not use [rng];
    a position of the wrong length is a [DimensionMismatch]. *)
Definition Task_repair (t : Task) (pos : vec) : option vec :=
  if (length pos =? dimension t)%nat then Some (clip_to t pos) else None.

(** Modelled from the spec: [stopping_condition()] is true iff
    [evaluations_used >= max_evaluations]. *)
Definition Task_stopping_condition (t : Task) (used : nat) : bool :=
  (max_evals t <=? used)%nat.

(** The algorithm's parameters ([population_size], [fluctuation_coeff],
    [population_rate], [c], [fc]; [NP], [F], [R], [C], [FC] in the earlier
    package). *)
Record Params : Type := {
  population_size : nat;
  fluctuation_coeff : Q;
  population_rate : Q;
  c : Q;
  fc : Q
}.

(** A natural number as a float. *)
Definition Qnat (n : nat) : Q := inject_Z (Z.of_nat n).

(** ** Float products that are turned into integers

    [int(self.population_rate * len(pop))] and [ceil(self.c * task.dimension)]
    take an integer from a product of floats, and the rounding of the
    product can decide that integer ([int(0.29 * 100)] is 28).  These
    products are therefore taken as Python computes them: each factor
    as a binary64 value, the product rounded to the nearest binary64
    value, ties to even. *)

(** The integer nearest to [q], ties to the even one. *)
Definition round_half_even (q : Q) : Z :=
  let f := Qfloor q in
  match Qcompare (q - inject_Z f) (1 # 2) with
  | Lt => f
  | Gt => (f + 1)%Z
  | Eq => if Z.even f then f else (f + 1)%Z
  end.

(** [floor(log2(q))] for a positive [q]. *)
Definition Qlog2_floor (q : Q) : Z :=
  let e := (Z.log2 (Qnum q) - Z.log2 (Zpos (Qden q)))%Z in
  if Qle_bool (2 ^ e) q then e else (e - 1)%Z.

(** The binary64 value nearest to [q], ties to even: 53 significant
    bits, and the spacing [2 ^ -1074] below the normal range. *)
Definition binary64_round (q : Q) : Q :=
  if Qeq_bool q 0 then 0
  else
    let p := Z.max (Qlog2_floor (Qabs q) - 52) (-1074) in
    inject_Z (round_half_even (q / 2 ^ p)) * 2 ^ p.

(** A number as a Python [float]; [None] stands for an infinite value. *)
Definition binary64 (q : Q) : option Q :=
  let v := binary64_round q in
  if Qle_bool (2 ^ 1024) (Qabs v) then None else Some v.

(** [a * n] for a float [a] and an int [n]: [n] is converted to a float
    first, which raises [OverflowError] when it is too large. *)
Definition float_mul_int (a : Q) (n : nat) : option Q :=
  match binary64 a, binary64 (Qnat n) with
  | Some a', Some n' => binary64 (a' * n')
  | _, _ => None
  end.

(** [int(a * n)]; [int] of an infinite float raises [OverflowError]. *)
Definition int_of_product (a : Q) (n : nat) : option Z :=
  py_int <$> float_mul_int a n.

(** [ceil(a * n)]; [ceil] of an infinite float raises [OverflowError]. *)
Definition ceil_of_product (a : Q) (n : nat) : option Z :=
  py_ceil <$> float_mul_int a n.

(** * The current package: [niapy/algorithms/basic/mke.py] *)
Module niapy.

(** [class MkeSolution(Individual)]: position and fitness of the
    individual, its personal best, and the Monkey King flag. *)
Record MkeSolution : Type := {
  x : vec;
  f : fitness;
  x_pb : vec;
  f_pb : fitness;
  monkey_king : bool
}.

(** [MkeSolution.update_personal_best] *)
Definition update_personal_best (p : MkeSolution) : MkeSolution :=
  if ltf (f p) (f_pb p)
  then {| x := x p; f := f p; x_pb := x p; f_pb := f p;
          monkey_king := monkey_king p |}
  else p.

(** [MonkeyKingEvolutionV3.neg] *)
Definition neg (v : Q) : Q := if Qeq_bool v 1 then 0 else 1.

(** [p.monkey_king = b] *)
Definition set_monkey_king (b : bool) (p : MkeSolution) : MkeSolution :=
  {| x := x p; f := f p; x_pb := x_pb p; f_pb := f_pb p; monkey_king := b |}.

(** [p.x, p.f = a, a_f] *)
Definition set_position (a : vec) (a_f : fitness) (p : MkeSolution) : MkeSolution :=
  {| x := a; f := a_f; x_pb := x_pb p; f_pb := f_pb p;
     monkey_king := monkey_king p |}.

(** [for i in idx: pop[i].monkey_king = True]; an index outside the
    population raises. *)
Fixpoint flag_monkey_kings (idx : list nat) (pop : list MkeSolution) :
    option (list MkeSolution) :=
  match idx with
  | [] => Some pop
  | i :: idx' =>
      match pop !! i with
      | Some p => flag_monkey_kings idx' (<[i := set_monkey_king true p]> pop)
      | None => None
      end
  end.

(** Fancy indexing [population[idx]] of a matrix by an index array. *)
Fixpoint take_rows (pop : mat) (idx : list nat) : option mat :=
  match idx with
  | [] => Some []
  | i :: idx' =>
      match pop !! i, take_rows pop idx' with
      | Some r, Some rs => Some (r :: rs)
      | _, _ => None
      end
  end.

(** Step 1 of [MonkeyKingEvolutionV3.run_iteration], the expression
    [best_x + self.fc * population[...] - population[...]]: Python reads
    it as [(best_x + (fc * A)) - B], row by row. *)
Definition candidate_batch (best_x : vec) (fc_ : Q) (A B : mat) : mat :=
  zip_with (fun a b => vsub (vadd best_x (vscale fc_ a)) b) A B.

(** [np.tril] of a block of rows: entry [(a, b)] is kept when [b <= a]
    and zeroed otherwise. *)
Definition tril (blk : mat) : mat :=
  imap (fun a row => imap (fun b v => if (b <=? a)%nat then v else 0) row) blk.

(** [m[i * d:(i + 1) * d] = np.tril(m[i * d:(i + 1) * d])] *)
Definition tril_block (d i : nat) (m : mat) : mat :=
  take (i * d) m ++ tril (take d (drop (i * d) m)) ++ drop ((i + 1) * d) m.

(** [m = np.ones((population_size, dimension))] followed by the loop
    [for i in range(k)] over the blocks. *)
Definition mask (np d k : nat) : mat :=
  fold_left (fun m i => tril_block d i m) (seq 0 k) (replicate np (replicate d 1)).

(** [m * population + np.vectorize(self.neg)(m) * best_x] *)
Definition recombine (m pop : mat) (best_x : vec) : mat :=
  zip_with (fun mr row => vadd (vmul mr row) (vmul (map neg mr) best_x)) m pop.

(** Step 5 of [MonkeyKingEvolutionV3.run_iteration]: the worst row of the
    population gives way to the best row of the candidate batch when the
    candidate is not worse. *)
Definition inject (population : mat) (population_fitness : list fitness)
    (x_gb : mat) (x_gb_f : list fitness) : option (mat * list fitness) :=
  match argmax population_fitness, argmin x_gb_f with
  | Some iw, Some ib_gb =>
      match x_gb !! ib_gb, x_gb_f !! ib_gb, population_fitness !! iw with
      | Some cand, Some cand_f, Some worst_f =>
          if lef cand_f worst_f
          then Some (<[iw := cand]> population, <[iw := cand_f]> population_fitness)
          else Some (population, population_fitness)
      | _, _, _ => None
      end
  | _, _ => None
  end.

(** The extra state of v3, [{'k': k, 'c': c}]. *)
Record Extra : Type := { extra_k : Z; extra_c : Z }.

Section Algorithm.
Context {G : Type} `{Generator G}.

(** What a run mutates: the generator [self.rng] and the task's counter
    of evaluations. *)
Record State : Type := { rng : G; evals : nat }.

Definition draw {A : Type} (gen : G -> A * G) : M State A :=
  fun s => let (a, g) := gen (rng s) in Some (a, {| rng := g; evals := evals s |}).

(** [self.rng.choice(n, k, replace=...)]; numpy raises [ValueError] on a
    negative size, on an empty range with a non-empty sample, and on a
    sample without replacement larger than the range. *)
Definition rng_choice (n : nat) (k : Z) (replace : bool) : M State (list nat) :=
  if (k <? 0)%Z
     || ((n =? 0)%nat && negb (Z.to_nat k =? 0)%nat)
     || (negb replace && (n <? Z.to_nat k)%nat)
  then raise
  else draw (choice n (Z.to_nat k) replace).

(** [task.eval(x)] *)
Definition task_eval (task : Task) (pos : vec) : M State fitness :=
  fun s => match Task_evaluate task pos (evals s) with
           | Some (fx, n) => Some (fx, {| rng := rng s; evals := n |})
           | None => None
           end.

(** [task.repair(x, rng)] *)
Definition task_repair (task : Task) (pos : vec) : M State vec :=
  fun s => match Task_repair task pos with
           | Some a => Some (a, s)
           | None => None
           end.

(** [task.stopping_condition()] *)
Definition task_stopping_condition (task : Task) : M State bool :=
  fun s => Some (Task_stopping_condition task (evals s), s).

(** Modelled from the spec: [Individual.__init__] with a task (section
    4.2, [generate]): a uniform position inside the bounds, evaluated
    once.  [MkeSolution.__init__] then seeds the personal best with it and
    clears the flag. *)
Definition MkeSolution_init (task : Task) : M State MkeSolution :=
  do r <- draw (rand (dimension task));
  let pos := vadd (lower task) (vmul (range task) r) in
  do fx <- task_eval task pos;
  ret {| x := pos; f := fx; x_pb := pos; f_pb := fx; monkey_king := false |}.

(** Modelled from the spec: [Individual.evaluate(task, rng)], "repaired to
    bounds, then re-evaluated" (section 4.4). *)
Definition Individual_evaluate (task : Task) (p : MkeSolution) : M State MkeSolution :=
  do a <- task_repair task (x p);
  do a_f <- task_eval task a;
  ret (set_position a a_f p).

(** Modelled from the spec: [Algorithm.get_best]; the tracked best is
    replaced by the minimum of the batch only on strict improvement
    (sections 4.4 and 4.6). *)
Definition get_best (xs : list vec) (fs : list fitness)
    (best_x : vec) (best_fitness : fitness) : M State (vec * fitness) :=
  match argmin fs with
  | Some ib =>
      match xs !! ib, fs !! ib with
      | Some xb, Some fb =>
          if ltf fb best_fitness then ret (xb, fb) else ret (best_x, best_fitness)
      | _, _ => raise
      end
  | None => raise
  end.

(** A [for p in pop] loop whose body mutates [p] in place: the body sees
    the population as the earlier iterations left it. *)
Fixpoint for_each_particle
    (body : list MkeSolution -> MkeSolution -> M State MkeSolution)
    (n i : nat) (pop : list MkeSolution) : M State (list MkeSolution) :=
  match n with
  | O => ret pop
  | S n' =>
      match pop !! i with
      | Some p =>
          do p' <- body pop p;
          for_each_particle body n' (S i) (<[i := p']> pop)
      | None => ret pop
      end
  end.

(** Modelled from the spec: the loop of [Algorithm.run] (section 4.3,
    step 3), [while not task.stopping_condition(): ... = run_iteration(...)],
    at most [fuel] iterations; [P] is what the variant keeps as its
    population and extra state. *)
Fixpoint run_loop {P : Type}
    (run_iteration :
       P -> list fitness -> vec -> fitness -> M State (P * list fitness * vec * fitness))
    (fuel : nat) (task : Task) (population : P) (population_fitness : list fitness)
    (best_x : vec) (best_fitness : fitness) : M State (vec * fitness) :=
  match fuel with
  | O => raise
  | S fuel' =>
      do stop <- task_stopping_condition task;
      if stop then ret (best_x, best_fitness)
      else
        do (population, population_fitness, best_x, best_fitness) <-
           run_iteration population population_fitness best_x best_fitness;
        run_loop run_iteration fuel' task population population_fitness
          best_x best_fitness
  end.

(** Modelled from the spec: [Algorithm.run] (section 4.3): initialize
    the population, take the best of it, iterate until the task signals
    stop, return the best. *)
Definition Algorithm_run {P : Type}
    (init_population : M State (P * list fitness))
    (positions : P -> list vec)
    (run_iteration :
       P -> list fitness -> vec -> fitness -> M State (P * list fitness * vec * fitness))
    (fuel : nat) (task : Task) : M State (vec * fitness) :=
  do (population, population_fitness) <- init_population;
  match argmin population_fitness with
  | Some ib =>
      match positions population !! ib, population_fitness !! ib with
      | Some best_x, Some best_fitness =>
          run_loop run_iteration fuel task population population_fitness
            best_x best_fitness
      | _, _ => raise
      end
  | None => raise
  end.

End Algorithm.

Arguments State G : clear implicits.

(** ** Monkey King Evolution version 1 *)
Module V1.
Section Methods.
Context {G : Type} `{Generator G}.
Variable self : Params.

(** [MonkeyKingEvolutionV1.move_p] *)
Definition move_p (pos pb xb : vec) (task : Task) : M (State G) vec :=
  do r <- draw (rand (dimension task));
  ret (vadd pb (vmul (vscale (fluctuation_coeff self) r) (vsub xb pos))).

(** [MonkeyKingEvolutionV1.move_mk] *)
Definition move_mk (pos : vec) (task : Task) : M (State G) mat :=
  do U <- draw (rand2 (count_of (c self * Qnat (dimension task))) (dimension task));
  ret (map (fun u => vadd pos (vmul (vscale (fc self) u) pos)) U).

(** [MonkeyKingEvolutionV1.move_particle] *)
Definition move_particle (p : MkeSolution) (p_b : vec) (task : Task) :
    M (State G) MkeSolution :=
  do a <- move_p (x p) (x_pb p) p_b task;
  Individual_evaluate task (set_position a (f p) p).

(** [MonkeyKingEvolutionV1.move_monkey_king_particle] *)
Definition move_monkey_king_particle (p : MkeSolution) (task : Task) :
    M (State G) MkeSolution :=
  let p := set_monkey_king false p in
  do cand <- move_mk (x p) task;
  do a <- apply_along_axis (task_repair task) cand;
  do a_f <- apply_along_axis (task_eval task) a;
  match argmin a_f with
  | Some ib =>
      match a !! ib, a_f !! ib with
      | Some best, Some best_f => ret (set_position best best_f p)
      | _, _ => raise
      end
  | None => raise
  end.

(** [MonkeyKingEvolutionV1.move_population] *)
Definition move_population (pop : list MkeSolution) (xb : vec) (task : Task) :
    M (State G) (list MkeSolution) :=
  for_each_particle
    (fun _ p =>
       do p' <- (if monkey_king p then move_monkey_king_particle p task
                 else move_particle p xb task);
       ret (update_personal_best p'))
    (length pop) 0%nat pop.

(** The loop [for i in self.rng.choice(self.population_size,
    int(self.population_rate * len(pop)), replace=False):
    pop[i].monkey_king = True] of [init_population] and [run_iteration]. *)
Definition flag_sample (pop : list MkeSolution) : M (State G) (list MkeSolution) :=
  match int_of_product (population_rate self) (length pop) with
  | Some k =>
      do idx <- rng_choice (population_size self) k false;
      match flag_monkey_kings idx pop with
      | Some pop' => ret pop'
      | None => raise
      end
  | None => raise
  end.

(** Modelled from the spec: [Algorithm.init_population] with the
    per-individual initialization, [population_size] individuals
    (section 4.3). *)
Definition Algorithm_init_population (task : Task) :
    M (State G) (list MkeSolution * list fitness) :=
  do pop <- traverse (fun _ => MkeSolution_init task) (seq 0 (population_size self));
  ret (pop, map f pop).

(** [MonkeyKingEvolutionV1.init_population] *)
Definition init_population (task : Task) :
    M (State G) (list MkeSolution * list fitness) :=
  do (pop, fpop) <- Algorithm_init_population task;
  do pop <- flag_sample pop;
  ret (pop, fpop).

(** [MonkeyKingEvolutionV1.run_iteration]; [self.move_population] is the
    method of the class of [self], which version 2 overrides. *)
Definition run_iteration_with
    (self_move_population :
       list MkeSolution -> vec -> Task -> M (State G) (list MkeSolution))
    (task : Task) (population : list MkeSolution)
    (population_fitness : list fitness) (best_x : vec) (best_fitness : fitness) :
    M (State G) (list MkeSolution * list fitness * vec * fitness) :=
  do population <- self_move_population population best_x task;
  do population <- flag_sample population;
  let population_fitness := map f population in
  do (best_x, best_fitness) <-
     get_best (map x population) population_fitness best_x best_fitness;
  ret (population, population_fitness, best_x, best_fitness).

Definition run_iteration := run_iteration_with move_population.

(** [MonkeyKingEvolutionV1().run(task)] *)
Definition run (fuel : nat) (task : Task) : M (State G) (vec * fitness) :=
  Algorithm_run (init_population task) (map x) (run_iteration task) fuel task.

End Methods.
End V1.

(** ** Monkey King Evolution version 2 *)
Module V2.
Section Methods.
Context {G : Type} `{Generator G}.
Variable self : Params.

(** [MonkeyKingEvolutionV2.move_mk] *)
Definition move_mk (pos : vec) (task : Task) (dx : vec) : vec :=
  vsub pos (vscale (fc self) dx).

(** The loop [for _i in range(n)] of [move_monkey_king_particle], with
    the best candidate so far in [p_b], [p_f]. *)
Fixpoint trials (n : nat) (p : MkeSolution) (task : Task) (pop : list MkeSolution)
    (p_b : vec) (p_f : fitness) : M (State G) (vec * fitness) :=
  match n with
  | O => ret (p_b, p_f)
  | S n' =>
      do r <- rng_choice (population_size self) 2%Z false;
      match r with
      | [r0; r1] =>
          match pop !! r0, pop !! r1 with
          | Some pj, Some pk =>
              do a <- task_repair task (move_mk (x p) task (vsub (x pj) (x pk)));
              do a_f <- task_eval task a;
              if ltf a_f p_f then trials n' p task pop a a_f
              else trials n' p task pop p_b p_f
          | _, _ => raise
          end
      | _ => raise
      end
  end.

(** [MonkeyKingEvolutionV2.move_monkey_king_particle] *)
Definition move_monkey_king_particle (p : MkeSolution) (task : Task)
    (pop : list MkeSolution) : M (State G) MkeSolution :=
  let p := set_monkey_king false p in
  do (p_b, p_f) <-
     trials (count_of (c self * Qnat (population_size self))) p task pop (x p) (f p);
  ret (set_position p_b p_f p).

(** [MonkeyKingEvolutionV2.move_population] *)
Definition move_population (pop : list MkeSolution) (xb : vec) (task : Task) :
    M (State G) (list MkeSolution) :=
  for_each_particle
    (fun pop p =>
       do p' <- (if monkey_king p then move_monkey_king_particle p task pop
                 else V1.move_particle self p xb task);
       ret (update_personal_best p'))
    (length pop) 0%nat pop.

(** Inherited from version 1. *)
Definition run_iteration := V1.run_iteration_with self move_population.

End Methods.
End V2.

(** ** Monkey King Evolution version 3 *)
Module V3.
Section Methods.
Context {G : Type} `{Generator G}.
Variable self : Params.

(** Modelled from the spec: [Algorithm.init_population] with the
    whole-matrix initialization (section 4.3): uniform rows inside the
    bounds, each evaluated once. *)
Definition Algorithm_init_population (task : Task) : M (State G) (mat * list fitness) :=
  do U <- draw (rand2 (population_size self) (dimension task));
  let pop := map (fun u => vadd (lower task) (vmul (range task) u)) U in
  do fpop <- apply_along_axis (task_eval task) pop;
  ret (pop, fpop).

(** [MonkeyKingEvolutionV3.init_population]; the division raises on
    dimension zero, and [ceil] on an infinite product. *)
Definition init_population (task : Task) : M (State G) (mat * list fitness * Extra) :=
  do (population, fpop) <- Algorithm_init_population task;
  if (dimension task =? 0)%nat then raise
  else
    match ceil_of_product (c self) (dimension task) with
    | Some c_ =>
        ret (population, fpop,
             {| extra_k := py_ceil (Qnat (population_size self) / Qnat (dimension task));
                extra_c := c_ |})
    | None => raise
    end.

(** [MonkeyKingEvolutionV3.run_iteration] *)
Definition run_iteration (task : Task) (population : mat)
    (population_fitness : list fitness) (best_x : vec) (best_fitness : fitness)
    (params : Extra) : M (State G) (mat * list fitness * vec * fitness * Extra) :=
  let k := extra_k params in
  let c := extra_c params in
  do ia <- rng_choice (length population) c true;
  do ib <- rng_choice (length population) c true;
  match take_rows population ia, take_rows population ib with
  | Some A, Some B =>
      do x_gb <- apply_along_axis (task_repair task)
                   (candidate_batch best_x (fc self) A B);
      do x_gb_f <- apply_along_axis (task_eval task) x_gb;
      do (best_x, best_fitness) <- get_best x_gb x_gb_f best_x best_fitness;
      let m := mask (population_size self) (dimension task) (Z.to_nat k) in
      do m <- traverse (fun row => draw (shuffle row)) m;
      do population <- apply_along_axis (task_repair task)
                         (recombine m population best_x);
      do population_fitness <- apply_along_axis (task_eval task) population;
      do (best_x, best_fitness) <-
         get_best population population_fitness best_x best_fitness;
      match inject population population_fitness x_gb x_gb_f with
      | Some (population, population_fitness) =>
          ret (population, population_fitness, best_x, best_fitness, params)
      | None => raise
      end
  | _, _ => raise
  end.

End Methods.
End V3.

End niapy.

(** * The earlier package: [NiaPy/algorithms/basic/mke.py] *)
Module NiaPy.

(** [class MkeSolution(object)] *)
Record MkeSolution : Type := {
  x : vec;
  f : fitness;
  x_pb : vec;
  f_pb : fitness;
  MonkeyKing : bool
}.

(** [MkeSolution.uPersonalBest] *)
Definition uPersonalBest (p : MkeSolution) : MkeSolution :=
  if ltf (f p) (f_pb p)
  then {| x := x p; f := f p; x_pb := x p; f_pb := f p; MonkeyKing := MonkeyKing p |}
  else p.

(** [MonkeyKingEvolutionV1.repair]: the components above the upper bound
    are set to it, then the components of the result below the lower
    bound are set to that. *)
Definition repair (pos : vec) (task : Task) : vec :=
  let pos := zip_with (fun v u => if Qltb u v then u else v) pos (upper task) in
  zip_with (fun v l => if Qltb v l then l else v) pos (lower task).

(** [MkeSolution.repair]: the same two assignments, made in place on the
    array [self.x].  [self.x_pb] is that same array after
    [generateSolution] and after a [uPersonalBest] that improved, and
    another one once [x] has been rebound; [shared] tells which, and a
    shared [x_pb] is clamped with [x]. *)
Definition MkeSolution_repair (shared : bool) (p : MkeSolution) (task : Task) :
    MkeSolution :=
  let a := repair (x p) task in
  {| x := a; f := f p; x_pb := if shared then a else x_pb p; f_pb := f_pb p;
     MonkeyKing := MonkeyKing p |}.

(** [MonkeyKingEvolutionV3.neg] *)
Definition neg (v : Q) : Q := if Qeq_bool v 1 then 0 else 1.

(** [x_gb + self.FC * X[...] - X[...]] of [MonkeyKingEvolutionV3.runTask] *)
Definition X_gb (x_gb : vec) (FC : Q) (A B : mat) : mat :=
  zip_with (fun a b => vsub (vadd x_gb (vscale FC a)) b) A B.

Definition set_MonkeyKing (b : bool) (p : MkeSolution) : MkeSolution :=
  {| x := x p; f := f p; x_pb := x_pb p; f_pb := f_pb p; MonkeyKing := b |}.

Definition set_position (a : vec) (a_f : fitness) (p : MkeSolution) : MkeSolution :=
  {| x := a; f := a_f; x_pb := x_pb p; f_pb := f_pb p; MonkeyKing := MonkeyKing p |}.

(** [for i in idx: pop[i].MonkeyKing = True] *)
Fixpoint flag_monkey_kings (idx : list nat) (pop : list MkeSolution) :
    option (list MkeSolution) :=
  match idx with
  | [] => Some pop
  | i :: idx' =>
      match pop !! i with
      | Some p => flag_monkey_kings idx' (<[i := set_MonkeyKing true p]> pop)
      | None => None
      end
  end.

Section Algorithm.
Context {G : Type} `{Generator G}.

(** What a run mutates: the algorithm's own generator [self.rand], seeded
    at construction; the generator of the module [numpy.random], which is
    the default [rand] of [MkeSolution.__init__]; and the task's counter of
    evaluations. *)
Record Env : Type := { self_rand : G; np_random : G; Evals : nat }.

Definition draw_self {A : Type} (gen : G -> A * G) : M Env A :=
  fun s => let (a, g) := gen (self_rand s) in
           Some (a, {| self_rand := g; np_random := np_random s; Evals := Evals s |}).

Definition draw_np_random {A : Type} (gen : G -> A * G) : M Env A :=
  fun s => let (a, g) := gen (np_random s) in
           Some (a, {| self_rand := self_rand s; np_random := g; Evals := Evals s |}).

(** [self.rand.choice(n, k, replace=...)] *)
Definition rand_choice (n : nat) (k : Z) (replace : bool) : M Env (list nat) :=
  if (k <? 0)%Z
     || ((n =? 0)%nat && negb (Z.to_nat k =? 0)%nat)
     || (negb replace && (n <? Z.to_nat k)%nat)
  then raise
  else draw_self (choice n (Z.to_nat k) replace).

(** [task.eval(x)] *)
Definition task_eval (task : Task) (pos : vec) : M Env fitness :=
  fun s => match Task_evaluate task pos (Evals s) with
           | Some (fx, n) =>
               Some (fx, {| self_rand := self_rand s; np_random := np_random s;
                            Evals := n |})
           | None => None
           end.

(** [task.stopCond()] *)
Definition stopCond (task : Task) : M Env bool :=
  fun s => Some (Task_stopping_condition task (Evals s), s).

(** [MkeSolution(task=task)]: no [rand] is passed, so [rnd] is the module
    [numpy.random]; [generateSolution] draws the position from it, sets
    [x_pb] and evaluates; [f_pb] stays [inf]. *)
Definition MkeSolution_init (task : Task) : M Env MkeSolution :=
  do r <- draw_np_random (rand (dimension task));
  let pos := vadd (lower task) (vmul (range task) r) in
  do fx <- task_eval task pos;
  ret {| x := pos; f := fx; x_pb := pos; f_pb := Inf; MonkeyKing := false |}.

(** A [for p in pop] loop whose body mutates [p] in place. *)
Fixpoint for_each_particle
    (body : list MkeSolution -> MkeSolution -> M Env MkeSolution)
    (n i : nat) (pop : list MkeSolution) : M Env (list MkeSolution) :=
  match n with
  | O => ret pop
  | S n' =>
      match pop !! i with
      | Some p =>
          do p' <- body pop p;
          for_each_particle body n' (S i) (<[i := p']> pop)
      | None => ret pop
      end
  end.

Variable self : Params.

(** [MonkeyKingEvolutionV1.moveP] *)
Definition moveP (pos pb xb : vec) (task : Task) : M Env vec :=
  do r <- draw_self (rand (dimension task));
  ret (vadd pb (vmul (vscale (fluctuation_coeff self) r) (vsub xb pos))).

(** [MonkeyKingEvolutionV1.moveMK] *)
Definition moveMK (pos : vec) (task : Task) : M Env mat :=
  do U <- draw_self (rand2 (count_of (c self * Qnat (dimension task))) (dimension task));
  ret (map (fun u => vadd pos (vmul (vscale (fc self) u) pos)) U).

(** [MonkeyKingEvolutionV1.movePartice]; [p_b] is the best individual,
    an object of the population. *)
Definition movePartice (p p_b : MkeSolution) (task : Task) : M Env MkeSolution :=
  do a <- moveP (x p) (x_pb p) (x p_b) task;
  let a := repair a task in
  do a_f <- task_eval task a;
  ret (set_position a a_f p).

(** [MonkeyKingEvolutionV1.moveMokeyKingPartice] *)
Definition moveMokeyKingPartice (p : MkeSolution) (task : Task) : M Env MkeSolution :=
  let p := set_MonkeyKing false p in
  do cand <- moveMK (x p) task;
  do A <- apply_along_axis (fun row => ret (repair row task)) cand;
  do A_f <- apply_along_axis (task_eval task) A;
  match argmin A_f with
  | Some ib =>
      match A !! ib, A_f !! ib with
      | Some best, Some best_f => ret (set_position best best_f p)
      | _, _ => raise
      end
  | None => raise
  end.

(** [MonkeyKingEvolutionV1.movePopulation].  The argument [p_b] is a
    reference to one of the objects of [pop]; it is modelled by that
    object's index, and the body reads the object as the loop has left
    it. *)
Definition movePopulation (pop : list MkeSolution) (p_b : nat) (task : Task) :
    M Env (list MkeSolution) :=
  for_each_particle
    (fun pop p =>
       match pop !! p_b with
       | Some best =>
           do p' <- (if MonkeyKing p then moveMokeyKingPartice p task
                     else movePartice p best task);
           ret (uPersonalBest p')
       | None => raise
       end)
    (length pop) 0%nat pop.

(** [for i in self.rand.choice(self.NP, int(self.R * len(pop)),
    replace=False): pop[i].MonkeyKing = True] *)
Definition flag_sample (pop : list MkeSolution) : M Env (list MkeSolution) :=
  match int_of_product (population_rate self) (length pop) with
  | Some k =>
      do idx <- rand_choice (population_size self) k false;
      match flag_monkey_kings idx pop with
      | Some pop' => ret pop'
      | None => raise
      end
  | None => raise
  end.

(** The first three statements of [MonkeyKingEvolutionV1.runTask]: the
    population, the reference [p_b] to its best object, the flags. *)
Definition runTask_init (task : Task) : M Env (list MkeSolution * nat) :=
  do pop <- traverse (fun _ => MkeSolution_init task) (seq 0 (population_size self));
  match argmin (map f pop) with
  | Some ib =>
      do pop <- flag_sample pop;
      ret (pop, ib)
  | None => raise
  end.

(** The body of the [while] loop of [runTask]. *)
Definition runTask_body (task : Task) (pop : list MkeSolution) (p_b : nat) :
    M Env (list MkeSolution * nat) :=
  do pop <- movePopulation pop p_b task;
  do pop <- flag_sample pop;
  match argmin (map f pop) with
  | Some ib =>
      match pop !! ib, pop !! p_b with
      | Some cand, Some best =>
          ret (pop, if ltf (f cand) (f best) then ib else p_b)
      | _, _ => raise
      end
  | None => raise
  end.

(** [while not task.stopCond(): ...], at most [fuel] iterations. *)
Fixpoint runTask_loop (fuel : nat) (task : Task) (pop : list MkeSolution) (p_b : nat) :
    M Env (list MkeSolution * nat) :=
  match fuel with
  | O => raise
  | S fuel' =>
      do stop <- stopCond task;
      if stop then ret (pop, p_b)
      else
        do (pop, p_b) <- runTask_body task pop p_b;
        runTask_loop fuel' task pop p_b
  end.

(** The fitness that [runTask] tracks as the global best: [p_b.f]. *)
Definition tracked_fitness (pop : list MkeSolution) (p_b : nat) : option fitness :=
  f <$> pop !! p_b.

(** [MonkeyKingEvolutionV1.runTask] *)
Definition runTask (fuel : nat) (task : Task) : M Env (vec * fitness) :=
  do (pop, p_b) <- runTask_init task;
  do (pop, p_b) <- runTask_loop fuel task pop p_b;
  match pop !! p_b with
  | Some best => ret (x best, f best)
  | None => raise
  end.

(** ** Version 2 of the earlier package *)

(** [MonkeyKingEvolutionV2.moveMK] *)
Definition V2_moveMK (pos dx : vec) (task : Task) : vec :=
  vsub pos (vscale (fc self) dx).

(** The loop [for _i in range(n)] of [MonkeyKingEvolutionV2.moveMokeyKingPartice],
    with the best candidate so far in [p_b], [p_f]. *)
Fixpoint V2_trials (n : nat) (p : MkeSolution) (pop : list MkeSolution) (task : Task)
    (p_b : vec) (p_f : fitness) : M Env (vec * fitness) :=
  match n with
  | O => ret (p_b, p_f)
  | S n' =>
      do r <- rand_choice (population_size self) 2%Z false;
      match r with
      | [r0; r1] =>
          match pop !! r0, pop !! r1 with
          | Some pj, Some pk =>
              let a := repair (V2_moveMK (x p) (vsub (x pj) (x pk)) task) task in
              do a_f <- task_eval task a;
              if ltf a_f p_f then V2_trials n' p pop task a a_f
              else V2_trials n' p pop task p_b p_f
          | _, _ => raise
          end
      | _ => raise
      end
  end.

(** [MonkeyKingEvolutionV2.moveMokeyKingPartice] *)
Definition V2_moveMokeyKingPartice (p : MkeSolution) (pop : list MkeSolution)
    (task : Task) : M Env MkeSolution :=
  let p := set_MonkeyKing false p in
  do (p_b, p_f) <-
     V2_trials (count_of (c self * Qnat (population_size self))) p pop task (x p) (f p);
  ret (set_position p_b p_f p).

(** [MonkeyKingEvolutionV2.movePopulation] *)
Definition V2_movePopulation (pop : list MkeSolution) (p_b : nat) (task : Task) :
    M Env (list MkeSolution) :=
  for_each_particle
    (fun pop p =>
       match pop !! p_b with
       | Some best =>
           do p' <- (if MonkeyKing p then V2_moveMokeyKingPartice p pop task
                     else movePartice p best task);
           ret (uPersonalBest p')
       | None => raise
       end)
    (length pop) 0%nat pop.

(** ** Version 3 of the earlier package *)

(** [MonkeyKingEvolutionV3.eval]; [x] is [None] at the first call. *)
Definition V3_eval (X : mat) (x_ : option vec) (x_f : fitness) (task : Task) :
    M Env (option vec * fitness) :=
  do X_f <- apply_along_axis (task_eval task) X;
  match argmin X_f with
  | Some igb =>
      match X !! igb, X_f !! igb with
      | Some row, Some row_f =>
          if lef row_f x_f then ret (Some row, row_f) else ret (x_, x_f)
      | _, _ => raise
      end
  | None => raise
  end.

(** [M * X + vectorize(self.neg)(M) * x_gb] *)
Definition V3_recombine (m X : mat) (x_gb : vec) : mat :=
  zip_with (fun mr row => vadd (vmul mr row) (vmul (map neg mr) x_gb)) m X.

(** The statements of [MonkeyKingEvolutionV3.runTask] before the loop:
    the uniform population, its best, and the constants [k] and [c]; the
    division raises on dimension zero, and [ceil] on an infinite
    product. *)
Definition V3_runTask_init (task : Task) :
    M Env (mat * option vec * fitness * Z * Z) :=
  do U <- draw_self (rand2 (population_size self) (dimension task));
  let X := map (fun u => vadd (lower task) (vmul (range task) u)) U in
  do (x_gb, x_f_gb) <- V3_eval X None Inf task;
  if (dimension task =? 0)%nat then raise
  else
    match ceil_of_product (c self) (dimension task) with
    | Some c_ =>
        ret (X, x_gb, x_f_gb,
             py_ceil (Qnat (population_size self) / Qnat (dimension task)), c_)
    | None => raise
    end.

(** The body of the [while] loop of [MonkeyKingEvolutionV3.runTask];
    arithmetic on [x_gb = None] raises. *)
Definition V3_runTask_body (task : Task) (k c_ : Z) (X : mat) (x_gb : option vec)
    (x_f_gb : fitness) : M Env (mat * option vec * fitness) :=
  match x_gb with
  | None => raise
  | Some best =>
      do ia <- rand_choice (length X) c_ true;
      do ib <- rand_choice (length X) c_ true;
      match niapy.take_rows X ia, niapy.take_rows X ib with
      | Some A, Some B =>
          do (x_gb, x_f_gb) <- V3_eval (X_gb best (fc self) A B) (Some best) x_f_gb task;
          let m := niapy.mask (population_size self) (dimension task) (Z.to_nat k) in
          do m <- traverse (fun row => draw_self (shuffle row)) m;
          match x_gb with
          | Some best =>
              let X := V3_recombine m X best in
              do (x_gb, x_f_gb) <- V3_eval X (Some best) x_f_gb task;
              ret (X, x_gb, x_f_gb)
          | None => raise
          end
      | _, _ => raise
      end
  end.

(** [while not task.stopCond(): ...] of version 3, at most [fuel]
    iterations. *)
Fixpoint V3_runTask_loop (fuel : nat) (task : Task) (k c_ : Z) (X : mat)
    (x_gb : option vec) (x_f_gb : fitness) : M Env (option vec * fitness) :=
  match fuel with
  | O => raise
  | S fuel' =>
      do stop <- stopCond task;
      if stop then ret (x_gb, x_f_gb)
      else
        do (X, x_gb, x_f_gb) <- V3_runTask_body task k c_ X x_gb x_f_gb;
        V3_runTask_loop fuel' task k c_ X x_gb x_f_gb
  end.

(** [MonkeyKingEvolutionV3.runTask] *)
Definition V3_runTask (fuel : nat) (task : Task) : M Env (option vec * fitness) :=
  do (X, x_gb, x_f_gb, k, c_) <- V3_runTask_init task;
  V3_runTask_loop fuel task k c_ X x_gb x_f_gb.

End Algorithm.

Arguments Env G : clear implicits.

End NiaPy.

(** * The statistics of the earlier package: [NiaPy/algorithms/statistics.py] *)
Module statistics.

(** [np.sum] of a one-dimensional array. *)
Definition np_sum (v : vec) : Q := fold_right Qplus 0 v.

(** [a - b] on one-dimensional arrays: equal lengths, or one of the two
    of length one, which is then broadcast; any other pair of shapes
    raises. *)
Definition np_sub (a b : vec) : option vec :=
  match a, b with
  | [a0], _ => Some (map (fun v => a0 - v) b)
  | _, [b0] => Some (map (fun v => v - b0) a)
  | _, _ => if (length a =? length b)%nat then Some (vsub a b) else None
  end.

(** [scipy.stats.rankdata] with its default method, average: the rank of
    an element is the number of smaller elements plus the mean of the
    positions that the elements equal to it share. *)
Definition rankdata (v : vec) : vec :=
  map (fun a =>
         Qnat (length (List.filter (fun b => Qltb b a) v))
         + (Qnat (length (List.filter (fun b => Qeq_bool b a) v)) + 1) / 2)
    v.

(** [np.sum(r[np.where(cond(y))])]: the sum of the ranks at the places
    where [y] meets the condition. *)
Definition sum_where (cond : Q -> bool) (y r : vec) : Q :=
  np_sum (map snd (List.filter (fun yr => cond yr.1) (zip y r))).

(** [wilcoxonSignedRanks] *)
Definition wilcoxonSignedRanks (a b : vec) : option (Q * Q * Q) :=
  match np_sub a b with
  | Some y =>
      let y_diff := List.filter (fun v => negb (Qeq_bool v 0)) y in
      let r := rankdata (map Qabs y_diff) in
      let r_all := np_sum r / 2 in
      let r_p := r_all + sum_where (fun v => Qltb 0 v) y_diff r in
      let r_n := r_all + sum_where (fun v => Qltb v 0) y_diff r in
      Some (r_p, r_n, if Qltb r_n r_p then r_n else r_p)
  | None => None
  end.

(** [[arrs[j][i] for j in range(len(arrs))]]; a short array raises. *)
Fixpoint column (arrs : list vec) (i : nat) : option vec :=
  match arrs with
  | [] => Some []
  | a :: arrs' =>
      match a !! i, column arrs' i with
      | Some v, Some vs => Some (v :: vs)
      | _, _ => None
      end
  end.

(** The rows of [r]: the ranks of the [i]-th results of all arrays, for
    [i] in [range(n)]. *)
Fixpoint rank_rows (arrs : list vec) (idx : list nat) : option mat :=
  match idx with
  | [] => Some []
  | i :: idx' =>
      match column arrs i, rank_rows arrs idx' with
      | Some col, Some rows => Some (rankdata col :: rows)
      | _, _ => None
      end
  end.

(** [[np.sum(r[:, i]) / len(arrs[0]) for i in range(len(arrs))]] *)
Fixpoint mean_ranks (r : mat) (n : nat) (idx : list nat) : option vec :=
  match idx with
  | [] => Some []
  | i :: idx' =>
      match column r i, mean_ranks r n idx' with
      | Some col, Some ms => Some (np_sum col / Qnat n :: ms)
      | _, _ => None
      end
  end.

(** [friedmanRanks]; [arrs[0]] raises without arrays, and the column
    slices [r[:, i]] raise when [arrs[0]] is empty, [r] being a
    one-dimensional empty array then. *)
Definition friedmanRanks (arrs : list vec) : option vec :=
  match arrs with
  | [] => None
  | a0 :: _ =>
      match rank_rows arrs (seq 0 (length a0)) with
      | Some [] => None
      | Some r => mean_ranks r (length a0) (seq 0 (length arrs))
      | None => None
      end
  end.

End statistics.

(** * A generator that replays a tape

    A concrete random source for running the code on explicit inputs: the
    uniform draws are read off a tape (zeros once it is used up), a sample
    with replacement walks the range from a cursor, a sample without
    replacement takes the first indices, and a shuffle reverses the row. *)
Record Tape : Type := { floats : list Q; cursor : nat }.

Definition tape_rand (n : nat) (g : Tape) : vec * Tape :=
  (take n (floats g ++ replicate n 0),
   {| floats := drop n (floats g); cursor := cursor g |}).

Fixpoint tape_rand2 (n d : nat) (g : Tape) : mat * Tape :=
  match n with
  | O => ([], g)
  | S n' =>
      let (r, g1) := tape_rand d g in
      let (rs, g2) := tape_rand2 n' d g1 in
      (r :: rs, g2)
  end.

Definition tape_choice (n k : nat) (replace : bool) (g : Tape) : list nat * Tape :=
  if replace
  then (map (fun i => Nat.modulo (cursor g + i) n) (seq 0 k),
        {| floats := floats g; cursor := cursor g + k |})
  else (seq 0 k, g).

Definition tape_shuffle (v : vec) (g : Tape) : vec * Tape := (rev v, g).

(** The sphere function, the objective of the scenarios of the
    specification. *)
Definition sphere (v : vec) : Q := fold_right (fun a s => a * a + s) 0 v.

(** * The specification's formulas and scenarios *)

(** The candidate batch as the specification words it (section 4.6, step
    1): [global_best + fc * (sampled_rows_a - sampled_rows_b)]. *)
Definition candidate_batch_spec (best_x : vec) (fc_ : Q) (A B : mat) : mat :=
  zip_with (fun a b => vadd best_x (vscale fc_ (vsub a b))) A B.

(** A task in one dimension: the sphere function on [[-100, 100]]. *)
Definition sphere1 (budget : nat) : Task :=
  {| dimension := 1; lower := [-100]; upper := [100]; fn := sphere;
     max_evals := budget |}.

(** A population of one individual that is flagged at every resample:
    [population_size = 1], [population_rate = 1], [c = 1], [fc = 0.5]. *)
Definition lone_king : Params :=
  {| population_size := 1; fluctuation_coeff := 7 # 10; population_rate := 1;
     c := 1; fc := 1 # 2 |}.

(** The start of a run of the earlier package: the seeded generator
    [self.rand] will draw 0.5, the generator of [numpy.random] will draw
    [u], and no evaluation is used yet. *)
Definition start (u : Q) : NiaPy.Env Tape :=
  {| NiaPy.self_rand := {| floats := [1 # 2]; cursor := 0 |};
     NiaPy.np_random := {| floats := [u]; cursor := 0 |};
     NiaPy.Evals := 0 |}.

(** A state of a run of the current package after one evaluation. *)
Definition after_init : niapy.State Tape :=
  {| niapy.rng := {| floats := []; cursor := 0 |}; niapy.evals := 1 |}.

(** The number of individuals whose flag is set. *)
Fixpoint count_monkey_kings (pop : list niapy.MkeSolution) : nat :=
  match pop with
  | [] => 0
  | p :: pop' =>
      if niapy.monkey_king p then S (count_monkey_kings pop')
      else count_monkey_kings pop'
  end.

(** The elite move of version 2 as the specification words it (section
    4.5): the candidate of the trial that picked the individuals [j] and
    [k], [elite_position - fc * (position_j - position_k)], repaired and
    evaluated ... *)
Definition trial_candidate (self : Params) (task : Task) (elite : vec)
    (xj xk : vec) : vec * fitness :=
  let a := clip_to task (vsub elite (vscale (fc self) (vsub xj xk))) in
  (a, Fin (fn task a)).

(** ... and the greedy replacement on strict improvement. *)
Definition keep_better (best cand : vec * fitness) : vec * fitness :=
  if ltf cand.2 best.2 then cand else best.

(** Two individuals, one of them flagged at each resample:
    [population_size = 2], [population_rate = 0.5], [c = 1], [fc = 0.5]. *)
Definition two_monkeys : Params :=
  {| population_size := 2; fluctuation_coeff := 7 # 10; population_rate := 1 # 2;
     c := 1; fc := 1 # 2 |}.

(** The start of a run of the current package, with four uniform draws on
    the tape. *)
Definition fresh : niapy.State Tape :=
  {| niapy.rng := {| floats := [51 # 100; 52 # 100; 1 # 2; 1 # 4]; cursor := 0 |};
     niapy.evals := 0 |}.

(** * Properties *)

(** ** The order on floats and fitness values *)

Lemma Qltb_lt (a b : Q) : Qltb a b = true <-> a < b.
Proof.
  unfold Qltb. rewrite negb_true_iff.
  destruct (Qle_bool b a) eqn:E.
  - apply Qle_bool_iff in E. split; [discriminate | intro; lra].
  - split; [intros _ | reflexivity].
    destruct (Qlt_le_dec a b) as [Hlt | Hle]; [exact Hlt |].
    apply Qle_bool_iff in Hle. congruence.
Qed.

Lemma Qltb_ge (a b : Q) : Qltb a b = false <-> b <= a.
Proof.
  unfold Qltb. rewrite negb_false_iff. apply Qle_bool_iff.
Qed.

Lemma ltf_lef (a b : fitness) : ltf a b = negb (lef b a).
Proof. destruct a, b; reflexivity. Qed.

Lemma lef_refl (a : fitness) : lef a a = true.
Proof. destruct a; simpl; [apply Qle_bool_iff; lra | reflexivity]. Qed.

Lemma lef_trans (a b c : fitness) : lef a b = true -> lef b c = true -> lef a c = true.
Proof.
  destruct a, b, c; simpl; try reflexivity; try discriminate.
  rewrite !Qle_bool_iff. intros; lra.
Qed.

Lemma lef_total (a b : fitness) : lef a b = true \/ lef b a = true.
Proof.
  destruct a as [p|], b as [q|]; simpl; auto.
  rewrite !Qle_bool_iff. destruct (Qlt_le_dec p q); [left; lra | right; lra].
Qed.

Lemma ltf_true_lef (a b : fitness) : ltf a b = true -> lef a b = true.
Proof.
  rewrite ltf_lef, negb_true_iff. intros Hba.
  destruct (lef_total a b); congruence.
Qed.

Lemma ltf_false_lef (a b : fitness) : ltf a b = false -> lef b a = true.
Proof. rewrite ltf_lef, negb_false_iff. trivial. Qed.

Lemma ltf_irrefl (a : fitness) : ltf a a = false.
Proof. rewrite ltf_lef, lef_refl. reflexivity. Qed.

Lemma ltf_lef_trans (a b c : fitness) : ltf a b = true -> lef b c = true -> ltf a c = true.
Proof.
  rewrite !ltf_lef, !negb_true_iff. intros Hba Hbc.
  destruct (lef c a) eqn:Hca; [| reflexivity].
  rewrite (lef_trans _ _ _ Hbc Hca) in Hba. discriminate.
Qed.

Lemma lef_ltf_trans (a b c : fitness) : lef a b = true -> ltf b c = true -> ltf a c = true.
Proof.
  rewrite !ltf_lef, !negb_true_iff. intros Hab Hcb.
  destruct (lef c a) eqn:Hca; [| reflexivity].
  rewrite (lef_trans _ _ _ Hca Hab) in Hcb. discriminate.
Qed.

Lemma eqf_not_ltf (a b : fitness) : eqf a b -> ltf a b = false.
Proof.
  destruct a, b; simpl; try tauto.
  intros E. apply Qltb_ge. lra.
Qed.

Lemma minf_spec (a b : fitness) :
  lef (minf a b) a = true /\ lef (minf a b) b = true /\ (minf a b = a \/ minf a b = b).
Proof.
  unfold minf. destruct (ltf b a) eqn:E.
  - split; [apply ltf_true_lef, E | split; [apply lef_refl | right; reflexivity]].
  - split; [apply lef_refl | split; [apply ltf_false_lef, E | left; reflexivity]].
Qed.

(** ** The tape generator is a generator *)

Lemma tape_rand_length (n : nat) (g : Tape) : length (tape_rand n g).1 = n.
Proof.
  unfold tape_rand; simpl.
  rewrite length_take, length_app, length_replicate. lia.
Qed.

Lemma tape_rand2_shape (n d : nat) (g : Tape) :
  length (tape_rand2 n d g).1 = n /\ Forall (fun r => length r = d) (tape_rand2 n d g).1.
Proof.
  revert g. induction n as [|n IH]; intros g.
  - split; [reflexivity | constructor].
  - pose proof (tape_rand_length d g) as Hr.
    cbn [tape_rand2].
    destruct (tape_rand d g) as [r g1].
    specialize (IH g1). destruct (tape_rand2 n d g1) as [rs g2].
    cbn [fst] in *. destruct IH as [IH1 IH2].
    split; [cbn [length]; lia | constructor; assumption].
Qed.

Lemma tape_choice_range (n k : nat) (b : bool) (g : Tape) :
  (0 < n)%nat -> (b = false -> (k <= n)%nat) ->
  Forall (fun i => (i < n)%nat) (tape_choice n k b g).1.
Proof.
  intros Hn Hk. unfold tape_choice. destruct b; simpl.
  - apply Forall_forall. intros i Hi.
    apply list_elem_of_fmap in Hi as (j & -> & _).
    apply Nat.mod_upper_bound. lia.
  - apply Forall_forall. intros i Hi.
    apply elem_of_seq in Hi. specialize (Hk eq_refl). lia.
Qed.

#[export] Instance tape_generator : Generator Tape.
Proof.
  refine {| rand := tape_rand; rand2 := tape_rand2;
            choice := tape_choice; shuffle := tape_shuffle |}.
  - apply tape_rand_length.
  - intros n d g. apply tape_rand2_shape.
  - intros n d g. apply tape_rand2_shape.
  - intros n k b g. unfold tape_choice.
    destruct b; simpl; [rewrite length_map |]; apply length_seq.
  - apply tape_choice_range.
  - intros n k g _. apply NoDup_seq.
  - intros v g. apply Permutation_rev.
Defined.

(** ** The mask complement [neg] *)

(** The two packages define the same [neg]. *)
Lemma neg_same : NiaPy.neg = niapy.neg.
Proof. reflexivity. Qed.

(** C10: [neg] maps 1.0 to 0.0 and every other input, 0.0 and the
    non-binary ones alike, to 1.0; on the binary domain it is [1 - x] and
    an involution; on a non-binary input, [neg (neg x)] is 0.0. *)
Theorem neg_complement :
  (forall v : Q, v == 1 -> niapy.neg v = 0) /\
  (forall v : Q, ~ v == 1 -> niapy.neg v = 1) /\
  (forall v : Q, v == 0 \/ v == 1 ->
     niapy.neg v == 1 - v /\ niapy.neg (niapy.neg v) == v) /\
  (forall v : Q, ~ v == 0 -> ~ v == 1 -> niapy.neg (niapy.neg v) = 0).
Proof.
  assert (H1 : forall v : Q, v == 1 -> niapy.neg v = 0).
  { intros v Hv. unfold niapy.neg.
    apply Qeq_bool_iff in Hv. rewrite Hv. reflexivity. }
  assert (H2 : forall v : Q, ~ v == 1 -> niapy.neg v = 1).
  { intros v Hv. unfold niapy.neg.
    destruct (Qeq_bool v 1) eqn:E; [| reflexivity].
    apply Qeq_bool_iff in E. contradiction. }
  repeat split.
  - exact H1.
  - exact H2.
  - destruct H as [H0 | Hone].
    + rewrite H2 by (rewrite H0; discriminate). rewrite H0. reflexivity.
    + rewrite (H1 _ Hone), Hone. reflexivity.
  - destruct H as [H0 | Hone].
    + rewrite (H2 v) by (rewrite H0; discriminate). rewrite H0. reflexivity.
    + rewrite (H1 _ Hone), Hone. reflexivity.
  - intros v _ Hv. rewrite (H2 _ Hv). reflexivity.
Qed.

Lemma neg_complement_witness :
  niapy.neg (2 # 2) = 0 /\ niapy.neg (1 # 2) = 1 /\
  niapy.neg (niapy.neg 0) == 0 /\ niapy.neg (niapy.neg (1 # 2)) = 0.
Proof.
  destruct neg_complement as (H1 & H2 & H3 & H4).
  split; [apply H1; reflexivity |].
  split; [apply H2; discriminate |].
  split; [apply (H3 0); left; reflexivity |].
  apply H4; discriminate.
Defined.

(** ** The personal best *)

(** The earlier package's [uPersonalBest] does the same comparison and
    the same assignment. *)
Lemma uPersonalBest_spec (p : NiaPy.MkeSolution) :
  NiaPy.f_pb (NiaPy.uPersonalBest p) = minf (NiaPy.f_pb p) (NiaPy.f p) /\
  NiaPy.x_pb (NiaPy.uPersonalBest p) =
    (if ltf (NiaPy.f p) (NiaPy.f_pb p) then NiaPy.x p else NiaPy.x_pb p).
Proof.
  unfold NiaPy.uPersonalBest, minf.
  destruct (ltf (NiaPy.f p) (NiaPy.f_pb p)); split; reflexivity.
Qed.

(** C4: [update_personal_best] overwrites the two personal-best fields with
    the current position and fitness exactly when [f < f_pb]; a tie, like
    any other failure of the strict test, leaves the individual as it
    was.  Afterwards [f_pb <= f], and [f_pb] is the minimum of its earlier
    value and the current fitness, so it did not increase. *)
Theorem update_personal_best_spec (p : niapy.MkeSolution) :
  let p' := niapy.update_personal_best p in
  (ltf (niapy.f p) (niapy.f_pb p) = true ->
     niapy.x_pb p' = niapy.x p /\ niapy.f_pb p' = niapy.f p) /\
  (ltf (niapy.f p) (niapy.f_pb p) = false -> p' = p) /\
  (eqf (niapy.f p) (niapy.f_pb p) -> p' = p) /\
  niapy.x p' = niapy.x p /\ niapy.f p' = niapy.f p /\
  niapy.monkey_king p' = niapy.monkey_king p /\
  lef (niapy.f_pb p') (niapy.f p') = true /\
  niapy.f_pb p' = minf (niapy.f_pb p) (niapy.f p) /\
  lef (niapy.f_pb p') (niapy.f_pb p) = true.
Proof.
  unfold niapy.update_personal_best, minf; cbn zeta.
  split; [intros ->; split; reflexivity |].
  split; [intros ->; reflexivity |].
  split; [intros E; rewrite (eqf_not_ltf _ _ E); reflexivity |].
  destruct (ltf (niapy.f p) (niapy.f_pb p)) eqn:E; cbn.
  - repeat split; try reflexivity; [apply lef_refl | apply ltf_true_lef, E].
  - repeat split; try reflexivity; [apply ltf_false_lef, E | apply lef_refl].
Qed.

Lemma update_personal_best_spec_witness :
  let p := {| niapy.x := [1]; niapy.f := Fin 1; niapy.x_pb := [2];
              niapy.f_pb := Fin 4; niapy.monkey_king := true |} in
  let q := {| niapy.x := [3]; niapy.f := Fin (8 # 2); niapy.x_pb := [2];
              niapy.f_pb := Fin 4; niapy.monkey_king := false |} in
  (niapy.x_pb (niapy.update_personal_best p) = [1] /\
   niapy.f_pb (niapy.update_personal_best p) = Fin 1) /\
  niapy.update_personal_best q = q.
Proof.
  intros p q. split.
  - apply (update_personal_best_spec p). reflexivity.
  - apply (update_personal_best_spec q). reflexivity.
Defined.

(** ** Repair *)

Lemma repair_lookup (task : Task) (pos : vec) (i : nat) (v l u : Q) :
  pos !! i = Some v -> lower task !! i = Some l -> upper task !! i = Some u ->
  NiaPy.repair pos task !! i =
    Some (let w := if Qltb u v then u else v in if Qltb w l then l else w).
Proof.
  intros Hv Hl Hu. unfold NiaPy.repair. cbv zeta.
  rewrite !lookup_zip_with, Hv, Hu, Hl. reflexivity.
Qed.

(** C8: on a position of the task's dimension and bounds with
    [lower[i] <= upper[i]], [repair] returns a vector of the same
    length whose component [i] is [upper[i]] where the input exceeds it,
    [lower[i]] where the input is below it and the input component
    otherwise; every component of the result lies within its bounds; the
    result is determined by the input and the two bound vectors;
    [MkeSolution.repair] stores the same vector in [x], and in [x_pb]
    too when that is the same array. *)
Theorem repair_clamps (task : Task) (pos : vec) :
  length pos = dimension task ->
  length (lower task) = dimension task ->
  length (upper task) = dimension task ->
  (forall i l u, lower task !! i = Some l -> upper task !! i = Some u -> l <= u) ->
  length (NiaPy.repair pos task) = dimension task /\
  (forall i v l u,
     pos !! i = Some v -> lower task !! i = Some l -> upper task !! i = Some u ->
     exists r, NiaPy.repair pos task !! i = Some r /\
       (u < v -> r = u) /\ (v < l -> r = l) /\ (l <= v <= u -> r = v) /\
       l <= r <= u) /\
  (forall task', lower task' = lower task -> upper task' = upper task ->
     NiaPy.repair pos task' = NiaPy.repair pos task) /\
  (forall shared p, NiaPy.x p = pos ->
     NiaPy.x (NiaPy.MkeSolution_repair shared p task) = NiaPy.repair pos task /\
     NiaPy.x_pb (NiaPy.MkeSolution_repair shared p task) =
       (if shared then NiaPy.repair pos task else NiaPy.x_pb p)).
Proof.
  intros Hp Hl Hu Hb. split; [| split; [| split]].
  - unfold NiaPy.repair. cbv zeta. rewrite !length_zip_with. lia.
  - intros i v l u Hv Hli Hui.
    specialize (Hb i l u Hli Hui).
    rewrite (repair_lookup task pos i v l u Hv Hli Hui).
    eexists; split; [reflexivity |]. cbn zeta.
    destruct (Qltb u v) eqn:E1.
    + apply Qltb_lt in E1.
      destruct (Qltb u l) eqn:E2.
      * apply Qltb_lt in E2. lra.
      * apply Qltb_ge in E2.
        repeat split; intros; try reflexivity; lra.
    + apply Qltb_ge in E1.
      destruct (Qltb v l) eqn:E2.
      * apply Qltb_lt in E2.
        repeat split; intros; try reflexivity; lra.
      * apply Qltb_ge in E2.
        repeat split; intros; try reflexivity; lra.
  - intros task' El Eu. unfold NiaPy.repair. rewrite El, Eu. reflexivity.
  - intros shared p <-. split; reflexivity.
Qed.

Lemma repair_clamps_witness :
  let task := {| dimension := 3; lower := [-1; -1; -1]; upper := [1; 1; 1];
                 fn := sphere; max_evals := 10 |} in
  length (NiaPy.repair [5; -7; 1 # 2] task) = 3%nat /\
  exists r, NiaPy.repair [5; -7; 1 # 2] task !! 0%nat = Some r /\ -1 <= r <= 1.
Proof.
  intros task.
  assert (Hb : forall i l u,
             lower task !! i = Some l -> upper task !! i = Some u -> l <= u).
  { intros [|[|[|i]]] l u Hl Hu; simpl in Hl, Hu; try discriminate;
      injection Hl as <-; injection Hu as <-; discriminate. }
  destruct (repair_clamps task [5; -7; 1 # 2] eq_refl eq_refl eq_refl Hb)
    as (Hlen & Hcomp & _).
  split; [exact Hlen |].
  destruct (Hcomp 0%nat 5 (-1) 1 eq_refl eq_refl eq_refl) as (r & Hr & _ & _ & _ & Hin).
  exists r. split; assumption.
Defined.

(** ** [argmin] and [argmax] *)

Section Argbest.
Variable better : fitness -> fitness -> bool.
Hypothesis better_irrefl : forall a, better a a = false.
Hypothesis better_asym : forall a b, better a b = true -> better b a = false.
Hypothesis better_neg :
  forall y b z, better y b = true -> better z b = false -> better y z = true.

Lemma argbest_from_spec (l pre : list fitness) (best : fitness) (bi : nat) :
  pre !! bi = Some best ->
  (forall j y, pre !! j = Some y -> better y best = false) ->
  (forall j y, (j < bi)%nat -> pre !! j = Some y -> better best y = true) ->
  exists m, (pre ++ l) !! argbest_from better best bi (length pre) l = Some m /\
    (forall j y, (pre ++ l) !! j = Some y -> better y m = false) /\
    (forall j y, (j < argbest_from better best bi (length pre) l)%nat ->
       (pre ++ l) !! j = Some y -> better m y = true).
Proof.
  revert pre best bi.
  induction l as [|y l IH]; intros pre best bi Hbi Hnone Hfirst.
  - exists best. rewrite app_nil_r. cbn [argbest_from]. auto.
  - cbn [argbest_from].
    assert (Hlen : length (pre ++ [y]) = S (length pre))
      by (rewrite length_app; simpl; lia).
    replace (pre ++ y :: l) with ((pre ++ [y]) ++ l)
      by (rewrite <- app_assoc; reflexivity).
    rewrite <- Hlen.
    destruct (better y best) eqn:Hy.
    + apply IH.
      * rewrite lookup_app_r by lia. rewrite Nat.sub_diag. reflexivity.
      * intros j z Hz. apply lookup_snoc_Some in Hz as [[_ Hz] | [_ <-]].
        -- apply better_asym. eapply better_neg; eauto.
        -- apply better_irrefl.
      * intros j z Hj Hz. rewrite lookup_app_l in Hz by lia.
        eapply better_neg; eauto.
    + apply IH.
      * rewrite lookup_app_l; [exact Hbi |]. eapply lookup_lt_Some; eauto.
      * intros j z Hz. apply lookup_snoc_Some in Hz as [[_ Hz] | [_ <-]]; eauto.
      * intros j z Hj Hz.
        assert (bi < length pre)%nat by (eapply lookup_lt_Some; eauto).
        rewrite lookup_app_l in Hz by lia. eauto.
Qed.

Lemma argbest_spec (l : list fitness) :
  l <> [] ->
  exists r m, argbest better l = Some r /\ l !! r = Some m /\
    (forall j y, l !! j = Some y -> better y m = false) /\
    (forall j y, (j < r)%nat -> l !! j = Some y -> better m y = true).
Proof.
  destruct l as [|y l]; [congruence | intros _].
  destruct (argbest_from_spec l [y] y 0%nat) as (m & Hm & Hnone & Hfirst).
  - reflexivity.
  - intros [|j] z Hz; simpl in Hz; [| discriminate].
    injection Hz as <-. apply better_irrefl.
  - intros j z Hj. lia.
  - exists (argbest_from better y 0%nat 1%nat l), m. simpl in *. auto.
Qed.

End Argbest.

(** [argmin] returns the first index that attains the minimum. *)
Lemma argmin_spec (l : list fitness) :
  l <> [] ->
  exists r m, argmin l = Some r /\ l !! r = Some m /\
    (forall j y, l !! j = Some y -> lef m y = true) /\
    (forall j y, (j < r)%nat -> l !! j = Some y -> ltf m y = true).
Proof.
  intros Hl.
  destruct (argbest_spec ltf ltf_irrefl) with (l := l) as (r & m & H1 & H2 & H3 & H4).
  - intros a b Hab. apply ltf_true_lef in Hab.
    rewrite ltf_lef, Hab. reflexivity.
  - intros y b z Hyb Hzb. eapply ltf_lef_trans; [exact Hyb |].
    apply ltf_false_lef, Hzb.
  - exact Hl.
  - exists r, m. repeat split; auto.
    intros j y Hy. apply ltf_false_lef. eauto.
Qed.

(** [argmax] returns the first index that attains the maximum. *)
Lemma argmax_spec (l : list fitness) :
  l <> [] ->
  exists r m, argmax l = Some r /\ l !! r = Some m /\
    (forall j y, l !! j = Some y -> lef y m = true) /\
    (forall j y, (j < r)%nat -> l !! j = Some y -> ltf y m = true).
Proof.
  intros Hl.
  destruct (argbest_spec (fun y b => ltf b y)) with (l := l)
    as (r & m & H1 & H2 & H3 & H4).
  - intros a. apply ltf_irrefl.
  - intros a b Hab. apply ltf_true_lef in Hab.
    rewrite ltf_lef, Hab. reflexivity.
  - intros y b z Hyb Hzb. eapply lef_ltf_trans; [| exact Hyb].
    apply ltf_false_lef, Hzb.
  - exact Hl.
  - exists r, m. repeat split; auto.
    intros j y Hy. apply ltf_false_lef. eauto.
Qed.

(** ** The one-slot elitist injection of version 3 *)

(** C3: step 5 of v3.  With [iw] the index of the maximum population
    fitness and [ib] the index of the minimum candidate fitness, the row
    and the fitness at [iw] are replaced by the candidate at [ib] when the
    candidate's fitness is less than or equal to the population's maximum,
    and nothing changes otherwise; every fitness of the population after
    the step, its maximum included, is at most the maximum before. *)
Theorem inject_elitist (population : mat) (population_fitness : list fitness)
    (x_gb : mat) (x_gb_f : list fitness) :
  population_fitness <> [] -> x_gb_f <> [] -> length x_gb = length x_gb_f ->
  exists iw ib cand cand_f worst_f,
    argmax population_fitness = Some iw /\
    population_fitness !! iw = Some worst_f /\
    (forall j y, population_fitness !! j = Some y -> lef y worst_f = true) /\
    argmin x_gb_f = Some ib /\
    x_gb !! ib = Some cand /\ x_gb_f !! ib = Some cand_f /\
    (forall j y, x_gb_f !! j = Some y -> lef cand_f y = true) /\
    niapy.inject population population_fitness x_gb x_gb_f =
      Some (if lef cand_f worst_f
            then (<[iw := cand]> population, <[iw := cand_f]> population_fitness)
            else (population, population_fitness)) /\
    (forall population' fitness',
       niapy.inject population population_fitness x_gb x_gb_f =
         Some (population', fitness') ->
       (forall j y, fitness' !! j = Some y -> lef y worst_f = true) /\
       exists iw' worst', argmax fitness' = Some iw' /\
         fitness' !! iw' = Some worst' /\ lef worst' worst_f = true).
Proof.
  intros Hpop Hgb Hlen.
  destruct (argmax_spec population_fitness Hpop) as (iw & worst_f & Hiw & Hw & Hmax & _).
  destruct (argmin_spec x_gb_f Hgb) as (ib & cand_f & Hib & Hc & Hmin & _).
  assert (Hcand : is_Some (x_gb !! ib)).
  { apply lookup_lt_is_Some. rewrite Hlen. eapply lookup_lt_Some; eauto. }
  destruct Hcand as [cand Hcand].
  assert (Hrun : niapy.inject population population_fitness x_gb x_gb_f =
      Some (if lef cand_f worst_f
            then (<[iw := cand]> population, <[iw := cand_f]> population_fitness)
            else (population, population_fitness))).
  { unfold niapy.inject. rewrite Hiw, Hib, Hcand, Hc, Hw.
    destruct (lef cand_f worst_f); reflexivity. }
  exists iw, ib, cand, cand_f, worst_f.
  repeat (split; [assumption |]).
  intros population' fitness' Hres. rewrite Hrun in Hres.
  assert (Hall : forall j y, fitness' !! j = Some y -> lef y worst_f = true).
  { destruct (lef cand_f worst_f) eqn:Hle; injection Hres as <- <-.
    - intros j y Hy.
      apply list_lookup_insert_Some in Hy as [(-> & <- & _) | (_ & Hy)]; eauto.
    - exact Hmax. }
  split; [exact Hall |].
  assert (Hne : fitness' <> []).
  { destruct (lef cand_f worst_f); injection Hres as <- <-; [| exact Hpop].
    intros E. apply (f_equal length) in E. rewrite length_insert in E.
    destruct population_fitness; [congruence | discriminate]. }
  destruct (argmax_spec fitness' Hne) as (iw' & worst' & Hiw' & Hw' & _).
  exists iw', worst'. eauto.
Qed.

Lemma inject_elitist_witness :
  niapy.inject [[1]; [3]; [2]] [Fin 1; Fin 9; Fin 4] [[5]; [2]] [Fin 25; Fin 4] =
    Some ([[1]; [2]; [2]], [Fin 1; Fin 4; Fin 4]).
Proof.
  destruct (inject_elitist [[1]; [3]; [2]] [Fin 1; Fin 9; Fin 4]
              [[5]; [2]] [Fin 25; Fin 4])
    as (iw & ib & cand & cand_f & worst_f & Hiw & Hw & _ & Hib & Hc & Hcf & _ & Hrun & _);
    [discriminate | discriminate | reflexivity |].
  vm_compute in Hiw, Hib. injection Hiw as <-. injection Hib as <-.
  vm_compute in Hw, Hc, Hcf.
  injection Hw as <-. injection Hc as <-. injection Hcf as <-.
  exact Hrun.
Defined.

(** ** The candidate batch of version 3 *)

Lemma candidate_batch_row (best_x : vec) (fc_ : Q) (A B : mat) (i : nat) (a b : vec) :
  A !! i = Some a -> B !! i = Some b ->
  niapy.candidate_batch best_x fc_ A B !! i =
    Some (vsub (vadd best_x (vscale fc_ a)) b).
Proof.
  intros Ha Hb. unfold niapy.candidate_batch.
  rewrite lookup_zip_with, Ha, Hb. reflexivity.
Qed.

(** C1: the code at best position [0.0], [fc = 0.5] and the single
    population row [2.0], which both samples then select.  The code's
    batch is [0.0 + 0.5 * 2.0 - 2.0 = -1.0]: the factor multiplies the
    first sampled row only.  The formula of the claim,
    [0.0 + 0.5 * (2.0 - 2.0)], gives [0.0].  The earlier package has the
    same expression, and the iteration of the current one carries the
    value [-1.0] into the population. *)
Theorem candidate_batch_scales_first_rows_only :
  Forall2 (Forall2 Qeq) (niapy.candidate_batch [0] (1 # 2) [[2]] [[2]]) [[-1]] /\
  Forall2 (Forall2 Qeq) (candidate_batch_spec [0] (1 # 2) [[2]] [[2]]) [[0]] /\
  ~ Forall2 (Forall2 Qeq) (niapy.candidate_batch [0] (1 # 2) [[2]] [[2]])
      (candidate_batch_spec [0] (1 # 2) [[2]] [[2]]) /\
  NiaPy.X_gb [0] (1 # 2) [[2]] [[2]] = niapy.candidate_batch [0] (1 # 2) [[2]] [[2]] /\
  exists population' s',
    niapy.V3.run_iteration lone_king (sphere1 100) [[2]] [Fin 4] [0] (Fin 0)
      {| niapy.extra_k := 1; niapy.extra_c := 1 |} after_init =
      Some (population', [Fin (4 # 4)], [0], Fin 0,
            {| niapy.extra_k := 1; niapy.extra_c := 1 |}, s') /\
    Forall2 (Forall2 Qeq) population' [[-1]].
Proof.
  split; [repeat constructor |].
  split; [repeat constructor |].
  split.
  { intros Hrows. inversion Hrows as [|? ? ? ? Hrow _].
    inversion Hrow as [|? ? ? ? Hq _]. vm_compute in Hq. discriminate. }
  split; [reflexivity |].
  eexists _, _. split; [vm_compute; reflexivity |].
  repeat constructor.
Qed.

(** ** The tracked global best of the earlier package *)

(** C2: a run of v1 of the earlier package with one individual, flagged
    at every resample, on the sphere function.  [runTask] keeps the
    global best as a reference [p_b] to an object of the population.  The
    first iteration moves that object from 1.0 to 1.25, and the fitness
    read through [p_b] goes from 1.0 to 1.5625: the tracked global-best
    fitness is larger after the iteration than before it. *)
Theorem runTask_tracked_best_gets_worse :
  exists pop p_b e1 pop' p_b' e2 before after,
    NiaPy.runTask_init lone_king (sphere1 3) (start (101 # 200)) = Some (pop, p_b, e1) /\
    NiaPy.stopCond (sphere1 3) e1 = Some (false, e1) /\
    NiaPy.runTask_body lone_king (sphere1 3) pop p_b e1 = Some (pop', p_b', e2) /\
    NiaPy.tracked_fitness pop p_b = Some before /\
    NiaPy.tracked_fitness pop' p_b' = Some after /\
    eqf before (Fin 1) /\ eqf after (Fin (25 # 16)) /\
    ltf before after = true /\ lef after before = false.
Proof.
  eexists _, _, _, _, _, _, _, _.
  split; [vm_compute; reflexivity |].
  split; [vm_compute; reflexivity |].
  split; [vm_compute; reflexivity |].
  split; [vm_compute; reflexivity |].
  split; [vm_compute; reflexivity |].
  split; [vm_compute; reflexivity |].
  split; [vm_compute; reflexivity |].
  split; vm_compute; reflexivity.
Qed.

(** ** Determinism of the earlier package *)

(** C9: two executions of [runTask] of v1 of the earlier package with the
    same parameters, the same task and the same state of the seeded
    generator [self.rand].  The initial population is drawn from the
    generator of the module [numpy.random], which the seed does not
    set; with the draws 0.505 and 0.51 there, the runs return different
    best positions and different best fitness values. *)
Theorem runTask_depends_on_numpy_random :
  NiaPy.self_rand (start (101 # 200)) = NiaPy.self_rand (start (102 # 200)) /\
  NiaPy.Evals (start (101 # 200)) = NiaPy.Evals (start (102 # 200)) /\
  exists x1 f1 e1 x2 f2 e2,
    NiaPy.runTask lone_king 3 (sphere1 3) (start (101 # 200)) = Some (x1, Fin f1, e1) /\
    NiaPy.runTask lone_king 3 (sphere1 3) (start (102 # 200)) = Some (x2, Fin f2, e2) /\
    ~ Forall2 Qeq x1 x2 /\ ~ f1 == f2.
Proof.
  split; [reflexivity |]. split; [reflexivity |].
  eexists _, _, _, _, _, _.
  split; [vm_compute; reflexivity |].
  split; [vm_compute; reflexivity |].
  split.
  - intros Hx. inversion Hx as [|? ? ? ? Hq _]. vm_compute in Hq. discriminate.
  - intros Hf. vm_compute in Hf. discriminate.
Qed.

(** ** Repair and evaluation inside a run of the current package *)

Lemma length_clip_to (task : Task) (pos : vec) :
  length (lower task) = dimension task -> length (upper task) = dimension task ->
  length pos = dimension task -> length (clip_to task pos) = dimension task.
Proof.
  intros Hl Hu Hp. unfold clip_to.
  rewrite length_zip_with, length_zip. lia.
Qed.

Section Run.
Context {G : Type} `{Generator G}.

Lemma task_repair_ok (task : Task) (pos : vec) (s : niapy.State G) :
  length pos = dimension task ->
  niapy.task_repair task pos s = Some (clip_to task pos, s).
Proof.
  intros Hp. unfold niapy.task_repair, Task_repair.
  rewrite (proj2 (Nat.eqb_eq _ _) Hp). reflexivity.
Qed.

Lemma task_eval_ok (task : Task) (pos : vec) (s : niapy.State G) :
  length pos = dimension task ->
  niapy.task_eval task pos s =
    Some (Fin (fn task pos), {| niapy.rng := niapy.rng s; niapy.evals := S (niapy.evals s) |}).
Proof.
  intros Hp. unfold niapy.task_eval, Task_evaluate.
  rewrite (proj2 (Nat.eqb_eq _ _) Hp). reflexivity.
Qed.

Lemma traverse_repair (task : Task) (rows : mat) (s : niapy.State G) :
  Forall (fun r => length r = dimension task) rows ->
  traverse (niapy.task_repair task) rows s = Some (map (clip_to task) rows, s).
Proof.
  induction 1 as [|r rows Hr _ IH]; [reflexivity |].
  cbn [traverse map]. unfold bind at 1. rewrite (task_repair_ok _ _ _ Hr).
  unfold bind at 1. rewrite IH. reflexivity.
Qed.

Lemma traverse_eval (task : Task) (rows : mat) (s : niapy.State G) :
  Forall (fun r => length r = dimension task) rows ->
  traverse (niapy.task_eval task) rows s =
    Some (map (fun r => Fin (fn task r)) rows,
          {| niapy.rng := niapy.rng s; niapy.evals := niapy.evals s + length rows |}).
Proof.
  intros Hrows. revert s.
  induction Hrows as [|r rows Hr _ IH]; intros s.
  - destruct s. cbn. unfold ret. rewrite Nat.add_0_r. reflexivity.
  - cbn [traverse map length]. unfold bind at 1. rewrite (task_eval_ok _ _ _ Hr).
    unfold bind at 1. rewrite IH. cbn. unfold ret.
    repeat f_equal. lia.
Qed.

End Run.


(** ** The elite move of version 1 *)



Lemma apply_along_axis_rows {S A : Type} (fn : vec -> M S A) (rows : mat) :
  rows <> [] -> apply_along_axis fn rows = traverse fn rows.
Proof. destruct rows; [congruence | reflexivity]. Qed.

Section V1_elite.
Context {G : Type} `{Generator G}.

End V1_elite.



(** ** The elite move of version 2 *)


Section V2_elite.
Context {G : Type} `{Generator G}.
Variables (self : Params) (task : Task) (pop : list niapy.MkeSolution).
Variable elite : vec.
Hypothesis Hlen : length pop = population_size self.
Hypothesis Hnp : (2 <= population_size self)%nat.
Hypothesis Hpop : Forall (fun q => length (niapy.x q) = dimension task) pop.
Hypothesis Hx : length elite = dimension task.
Hypothesis Hl : length (lower task) = dimension task.
Hypothesis Hu : length (upper task) = dimension task.

Lemma rng_choice_pair (s : niapy.State G) :
  exists j k pj pk g,
    niapy.rng_choice (population_size self) 2%Z false s =
      Some ([j; k], {| niapy.rng := g; niapy.evals := niapy.evals s |}) /\
    j <> k /\ pop !! j = Some pj /\ pop !! k = Some pk.
Proof.
  unfold niapy.rng_choice.
  change (Z.to_nat 2) with 2%nat.
  assert (Hg : ((2 <? 0)%Z
                || (population_size self =? 0)%nat && negb (2 =? 0)%nat
                || negb false && (population_size self <? 2)%nat) = false).
  { destruct (Nat.eqb_spec (population_size self) 0); [lia |].
    destruct (Nat.ltb_spec (population_size self) 2); [lia | reflexivity]. }
  rewrite Hg. unfold niapy.draw.
  pose proof (choice_length (population_size self) 2 false (niapy.rng s)) as Hcl.
  pose proof (choice_range (population_size self) 2 false (niapy.rng s)) as Hcr.
  pose proof (choice_distinct (population_size self) 2 (niapy.rng s) Hnp) as Hcd.
  destruct (choice (population_size self) 2 false (niapy.rng s)) as [r g].
  cbn [fst] in *.
  destruct r as [|j [|k [|? r]]]; try discriminate.
  specialize (Hcr ltac:(lia) ltac:(intros _; lia)).
  apply Forall_cons in Hcr as [Hj Hk]. apply Forall_cons in Hk as [Hk _].
  apply NoDup_cons in Hcd as [Hjk _].
  destruct (lookup_lt_is_Some_2 pop j ltac:(lia)) as [pj Hpj].
  destruct (lookup_lt_is_Some_2 pop k ltac:(lia)) as [pk Hpk].
  exists j, k, pj, pk, g. repeat split; try assumption.
  intros ->. apply Hjk. left.
Qed.

Lemma trials_spec (p : niapy.MkeSolution) (n : nat) :
  niapy.x p = elite ->
  forall (p_b : vec) (p_f : fitness) (s : niapy.State G),
  exists (picks : list (niapy.MkeSolution * niapy.MkeSolution)) (s' : niapy.State G),
    length picks = n /\
    Forall (fun pq => exists j k, j <> k /\ pop !! j = Some pq.1 /\ pop !! k = Some pq.2)
      picks /\
    niapy.V2.trials self n p task pop p_b p_f s =
      Some (fold_left keep_better
              (map (fun pq => trial_candidate self task elite (niapy.x pq.1) (niapy.x pq.2))
                 picks)
              (p_b, p_f), s') /\
    niapy.evals s' = (niapy.evals s + n)%nat.
Proof.
  intros Hp. induction n as [|n IH]; intros p_b p_f s.
  - exists [], s. repeat split; [constructor | lia].
  - destruct (rng_choice_pair s) as (j & k & pj & pk & g & Hc & Hjk & Hpj & Hpk).
    cbn [niapy.V2.trials]. unfold bind at 1. rewrite Hc, Hpj, Hpk.
    set (a := clip_to task (vsub elite (vscale (fc self) (vsub (niapy.x pj) (niapy.x pk))))).
    assert (Hcand : length (niapy.V2.move_mk self (niapy.x p) task
                              (vsub (niapy.x pj) (niapy.x pk))) = dimension task).
    { rewrite Forall_forall in Hpop.
      pose proof (Hpop pj (list_elem_of_lookup_2 _ _ _ Hpj)) as Hj.
      pose proof (Hpop pk (list_elem_of_lookup_2 _ _ _ Hpk)) as Hk.
      cbn in Hj, Hk. rewrite Hp.
      unfold niapy.V2.move_mk, vsub, vscale.
      rewrite length_zip_with, length_map, length_zip_with. lia. }
    unfold bind at 1. rewrite (task_repair_ok _ _ _ Hcand).
    unfold bind at 1. rewrite task_eval_ok by (apply length_clip_to; assumption).
    unfold niapy.V2.move_mk. rewrite Hp. fold a. cbn [niapy.rng niapy.evals].
    destruct (ltf (Fin (fn task a)) p_f) eqn:E.
    + destruct (IH a (Fin (fn task a))
                  {| niapy.rng := g; niapy.evals := S (niapy.evals s) |})
        as (picks & s' & Hn & Hok & Hrun & Hev).
      exists ((pj, pk) :: picks), s'.
      split; [cbn; lia |]. split; [constructor; [exists j, k; auto | exact Hok] |].
      split; [| cbn in Hev; lia].
      rewrite Hrun. cbn [map fold_left fst snd].
      replace (keep_better (p_b, p_f)
                 (trial_candidate self task elite (niapy.x pj) (niapy.x pk)))
        with (a, Fin (fn task a)); [reflexivity |].
      unfold keep_better, trial_candidate. fold a. cbn [fst snd]. rewrite E.
      reflexivity.
    + destruct (IH p_b p_f {| niapy.rng := g; niapy.evals := S (niapy.evals s) |})
        as (picks & s' & Hn & Hok & Hrun & Hev).
      exists ((pj, pk) :: picks), s'.
      split; [cbn; lia |]. split; [constructor; [exists j, k; auto | exact Hok] |].
      split; [| cbn in Hev; lia].
      rewrite Hrun. cbn [map fold_left fst snd].
      replace (keep_better (p_b, p_f)
                 (trial_candidate self task elite (niapy.x pj) (niapy.x pk)))
        with (p_b, p_f); [reflexivity |].
      unfold keep_better, trial_candidate. fold a. cbn [fst snd]. rewrite E.
      reflexivity.
Qed.

End V2_elite.




(** ** The Monkey King flags *)

Lemma py_int_floor (q : Q) : 0 <= q -> py_int q = Qfloor q.
Proof.
  intros Hq. unfold py_int. destruct q as [n d].
  unfold Qle in Hq. cbn in *. apply Z.quot_div_nonneg; lia.
Qed.

Lemma count_monkey_kings_none (pop : list niapy.MkeSolution) :
  Forall (fun p => niapy.monkey_king p = false) pop -> count_monkey_kings pop = 0%nat.
Proof.
  induction 1 as [|p pop Hp _ IH]; [reflexivity |].
  cbn. rewrite Hp. exact IH.
Qed.

Lemma count_monkey_kings_flag (pop : list niapy.MkeSolution) (i : nat)
    (p : niapy.MkeSolution) :
  pop !! i = Some p -> niapy.monkey_king p = false ->
  count_monkey_kings (<[i := niapy.set_monkey_king true p]> pop) =
    S (count_monkey_kings pop).
Proof.
  revert i. induction pop as [|q pop IH]; intros [|i] Hi Hp; try discriminate.
  - injection Hi as ->. cbn. rewrite Hp. reflexivity.
  - cbn in Hi. specialize (IH i Hi Hp). simpl.
    destruct (niapy.monkey_king q); simpl in IH; rewrite IH; reflexivity.
Qed.

Lemma flag_monkey_kings_spec (idx : list nat) (pop : list niapy.MkeSolution) :
  NoDup idx ->
  (forall i, i ∈ idx -> exists p, pop !! i = Some p /\ niapy.monkey_king p = false) ->
  exists pop', niapy.flag_monkey_kings idx pop = Some pop' /\
    length pop' = length pop /\
    count_monkey_kings pop' = (count_monkey_kings pop + length idx)%nat /\
    forall j, pop' !! j =
      (fun p => if bool_decide (j ∈ idx) then niapy.set_monkey_king true p else p)
        <$> pop !! j.
Proof.
  revert pop. induction idx as [|i idx IH]; intros pop Hnd Hidx.
  - exists pop. cbn. repeat split; [lia |].
    intros j. destruct (pop !! j); reflexivity.
  - apply NoDup_cons in Hnd as [Hi Hnd].
    destruct (Hidx i) as (p & Hp & Hflag); [left |].
    cbn [niapy.flag_monkey_kings]. rewrite Hp.
    destruct (IH (<[i := niapy.set_monkey_king true p]> pop) Hnd)
      as (pop' & Hrun & Hlen & Hcount & Hlook).
    { intros j Hj. assert (i <> j) by (intros ->; contradiction).
      rewrite list_lookup_insert_ne by assumption. apply Hidx. right. exact Hj. }
    exists pop'. split; [exact Hrun |].
    split; [rewrite Hlen; apply length_insert |].
    split; [rewrite Hcount, (count_monkey_kings_flag _ _ _ Hp Hflag); cbn; lia |].
    intros j. rewrite Hlook.
    destruct (decide (i = j)) as [<- | Hij].
    + rewrite list_lookup_insert_eq by (eapply lookup_lt_Some; eauto).
      rewrite Hp. cbn.
      rewrite (bool_decide_eq_false_2 _ Hi), bool_decide_eq_true_2 by left.
      reflexivity.
    + rewrite list_lookup_insert_ne by assumption.
      destruct (pop !! j); [cbn | reflexivity].
      destruct (bool_decide (j ∈ idx)) eqn:E.
      * apply bool_decide_eq_true_1 in E.
        rewrite bool_decide_eq_true_2 by (right; exact E). reflexivity.
      * apply bool_decide_eq_false_1 in E.
        rewrite bool_decide_eq_false_2; [reflexivity |].
        intros Hj. apply elem_of_cons in Hj as [-> | Hj]; contradiction.
Qed.

Lemma bind_Some {S A B : Type} (m : M S A) (k : A -> M S B) (s : S) (r : B * S) :
  bind m k s = Some r <-> exists a s1, m s = Some (a, s1) /\ k a s1 = Some r.
Proof.
  unfold bind. destruct (m s) as [[a s1]|].
  - split; [intros Hk; exists a, s1; auto |].
    intros (a' & s1' & E & Hk). injection E as <- <-. exact Hk.
  - split; [discriminate | intros (a & s1 & E & _); discriminate].
Qed.

Ltac inv_bind H :=
  let a := fresh "a" in
  let s1 := fresh "s" in
  let E := fresh "E" in
  apply bind_Some in H as (a & s1 & E & H).

Lemma traverse_Forall {S A B : Type} (fn : A -> M S B) (P : B -> Prop) :
  (forall a s b s', fn a s = Some (b, s') -> P b) ->
  forall l s bs s', traverse fn l s = Some (bs, s') ->
    Forall P bs /\ length bs = length l.
Proof.
  intros Hfn. induction l as [|a l IH]; intros s bs s' Hrun.
  - injection Hrun as <- <-. split; [constructor | reflexivity].
  - cbn [traverse] in Hrun. inv_bind Hrun. inv_bind Hrun.
    injection Hrun as <- <-.
    destruct (IH _ _ _ E0) as [IH1 IH2].
    split; [constructor; eauto | cbn; lia].
Qed.

(** ** Binary64 rounding *)

Lemma round_half_even_error (q : Q) :
  - (1 # 2) <= inject_Z (round_half_even q) - q <= 1 # 2.
Proof.
  unfold round_half_even. cbv zeta.
  pose proof (Qfloor_le q) as Hlo. pose proof (Qlt_floor q) as Hhi.
  rewrite inject_Z_plus in Hhi. change (inject_Z 1) with 1 in Hhi.
  destruct (Qcompare (q - inject_Z (Qfloor q)) (1 # 2)) eqn:E.
  - apply Qeq_alt in E.
    destruct (Z.even (Qfloor q)); rewrite ?inject_Z_plus;
      change (inject_Z 1) with 1; lra.
  - apply Qlt_alt in E. lra.
  - apply Qgt_alt in E. rewrite inject_Z_plus. change (inject_Z 1) with 1. lra.
Qed.

Lemma round_half_even_nonneg (q : Q) : 0 <= q -> (0 <= round_half_even q)%Z.
Proof.
  intros Hq. unfold round_half_even. cbv zeta.
  assert (Hf : (0 <= Qfloor q)%Z)
    by (change 0%Z with (Qfloor 0); apply Qfloor_resp_le, Hq).
  destruct (Qcompare _ _); [destruct (Z.even _) | |]; lia.
Qed.

Lemma Qpower2_pos (z : Z) : 0 < 2 ^ z.
Proof. apply Qpower_0_lt. reflexivity. Qed.

Lemma Qpower2_Z (z : Z) : (0 <= z)%Z -> inject_Z (2 ^ z) == 2 ^ z.
Proof. intros Hz. apply (Zpower_Qpower 2 z Hz). Qed.

Lemma Qpower2_plus (a b : Z) : 2 ^ (a + b) == 2 ^ a * 2 ^ b.
Proof. apply Qpower_plus. discriminate. Qed.

(** [Qlog2_floor] is the exponent of the power of two at or below a
    positive number. *)
Lemma Qlog2_floor_spec (q : Q) :
  0 < q -> 2 ^ Qlog2_floor q <= q /\ q < 2 ^ (Qlog2_floor q + 1).
Proof.
  intros Hq. unfold Qlog2_floor. cbv zeta.
  destruct q as [n d]. cbn [Qnum Qden].
  assert (Hn : (0 < n)%Z) by (unfold Qlt in Hq; cbn in Hq; lia).
  set (a := Z.log2 n). set (b := Z.log2 (Zpos d)).
  destruct (Z.log2_spec n Hn) as [Ha1 Ha2]. fold a in Ha1, Ha2.
  destruct (Z.log2_spec (Zpos d) eq_refl) as [Hb1 Hb2]. fold b in Hb1, Hb2.
  assert (Ha0 : (0 <= a)%Z) by apply Z.log2_nonneg.
  assert (Hb0 : (0 <= b)%Z) by apply Z.log2_nonneg.
  assert (Hq' : n # d == inject_Z n / inject_Z (Zpos d)) by apply Qmake_Qdiv.
  assert (Hd : 0 < inject_Z (Zpos d)) by reflexivity.
  assert (HA1 : 2 ^ a <= inject_Z n)
    by (rewrite <- Qpower2_Z by assumption; rewrite <- Zle_Qle; exact Ha1).
  assert (HA2 : inject_Z n < 2 ^ (a + 1))
    by (rewrite <- Qpower2_Z by lia; rewrite <- Zlt_Qlt;
        replace (a + 1)%Z with (Z.succ a) by lia; exact Ha2).
  assert (HB1 : 2 ^ b <= inject_Z (Zpos d))
    by (rewrite <- Qpower2_Z by assumption; rewrite <- Zle_Qle; exact Hb1).
  assert (HB2 : inject_Z (Zpos d) < 2 ^ (b + 1))
    by (rewrite <- Qpower2_Z by lia; rewrite <- Zlt_Qlt;
        replace (b + 1)%Z with (Z.succ b) by lia; exact Hb2).
  (* the quotient lies strictly between 2^(a-b-1) and 2^(a-b+1) *)
  assert (Hlow : 2 ^ (a - b - 1) <= n # d).
  { rewrite Hq'. apply Qle_shift_div_l; [exact Hd |].
    replace (a - b - 1)%Z with (a + - (b + 1))%Z by lia.
    rewrite Qpower2_plus, Qpower_opp.
    pose proof (Qpower2_pos (b + 1)) as Hp. pose proof (Qpower2_pos a) as Hpa.
    assert (Hinv : / 2 ^ (b + 1) * 2 ^ (b + 1) == 1)
      by (field; intros E; rewrite E in Hp; discriminate).
    apply Qle_trans with (2 ^ a * (/ 2 ^ (b + 1) * 2 ^ (b + 1)));
      [| rewrite Hinv, Qmult_1_r; exact HA1].
    rewrite <- Qmult_assoc.
    apply Qmult_le_l; [exact Hpa |].
    apply Qmult_le_l; [apply Qinv_lt_0_compat, Hp | apply Qlt_le_weak, HB2]. }
  assert (Hhigh : n # d < 2 ^ (a - b + 1)).
  { rewrite Hq'. apply Qlt_shift_div_r; [exact Hd |].
    replace (a - b + 1)%Z with ((a + 1) + - b)%Z by lia.
    rewrite Qpower2_plus, Qpower_opp.
    pose proof (Qpower2_pos b) as Hp. pose proof (Qpower2_pos (a + 1)) as Hpa.
    assert (Hinv : / 2 ^ b * 2 ^ b == 1)
      by (field; intros E; rewrite E in Hp; discriminate).
    apply Qlt_le_trans with (2 ^ (a + 1) * (/ 2 ^ b * 2 ^ b));
      [rewrite Hinv, Qmult_1_r; exact HA2 |].
    rewrite <- Qmult_assoc.
    apply Qmult_le_l; [exact Hpa |].
    apply Qmult_le_l; [apply Qinv_lt_0_compat, Hp | exact HB1]. }
  destruct (Qle_bool (2 ^ (a - b)) (n # d)) eqn:E.
  - apply Qle_bool_iff in E. split; assumption.
  - split; [exact Hlow |].
    replace (a - b - 1 + 1)%Z with (a - b)%Z by lia.
    apply Qnot_le_lt. intros Hle. apply Qle_bool_iff in Hle. congruence.
Qed.

(** Rounding to binary64 moves a number by at most half a unit in the
    last place: [2 ^ -53] of its magnitude in the normal range,
    [2 ^ -1075] below it. *)
Lemma binary64_round_error (q : Q) :
  Qabs (binary64_round q - q) <= 2 ^ (-53) * Qabs q + 2 ^ (-1075).
Proof.
  pose proof (Qpower2_pos (-53)) as H53. pose proof (Qpower2_pos (-1075)) as H1075.
  pose proof (Qabs_nonneg q) as Hq0.
  unfold binary64_round. destruct (Qeq_bool q 0) eqn:E.
  - apply Qeq_bool_iff in E.
    assert (Hz : Qabs (0 - q) == 0) by (rewrite E; reflexivity).
    rewrite Hz. nra.
  - apply Qeq_bool_neq in E. cbv zeta.
    assert (Hpos : 0 < Qabs q).
    { destruct (Qlt_le_dec 0 (Qabs q)) as [Hlt | Hle]; [exact Hlt |].
      exfalso. apply E. apply Qabs_Qle_condition in Hle. lra. }
    destruct (Qlog2_floor_spec (Qabs q) Hpos) as [He _].
    set (e := Qlog2_floor (Qabs q)) in *.
    set (p := Z.max (e - 52) (-1074)).
    pose proof (Qpower2_pos p) as Hp.
    set (y := q / 2 ^ p).
    assert (Hv : inject_Z (round_half_even y) * 2 ^ p - q ==
                 (inject_Z (round_half_even y) - y) * 2 ^ p).
    { unfold y. field. intros Ez. rewrite Ez in Hp. discriminate. }
    rewrite Hv, Qabs_Qmult, (Qabs_pos (2 ^ p)) by (apply Qlt_le_weak, Hp).
    assert (Hhalf : Qabs (inject_Z (round_half_even y) - y) <= 1 # 2)
      by (apply Qabs_Qle_condition, round_half_even_error).
    assert (Hulp : 2 ^ p <= 2 ^ (-52) * Qabs q + 2 ^ (-1074)).
    { pose proof (Qpower2_pos (-52)) as H52. pose proof (Qpower2_pos (-1074)) as H1074.
      destruct (Z.max_spec (e - 52) (-1074)) as [[_ Hm] | [_ Hm]]; fold p in Hm;
        rewrite Hm.
      - nra.
      - replace (e - 52)%Z with (e + -52)%Z by lia. rewrite Qpower2_plus.
        pose proof (Qpower2_pos e). nra. }
    assert (H1 : 2 ^ (-53) == (1 # 2) * 2 ^ (-52)) by reflexivity.
    assert (H2 : 2 ^ (-1075) == (1 # 2) * 2 ^ (-1074)) by reflexivity.
    rewrite H1, H2.
    set (t := 2 ^ (-52)) in *. set (u := 2 ^ (-1074)) in *.
    set (w := 2 ^ p) in *. set (h := Qabs (inject_Z (round_half_even y) - y)) in *.
    assert (0 <= h) by apply Qabs_nonneg.
    clearbody t u w h. nra.
Qed.

Lemma binary64_round_nonneg (q : Q) : 0 <= q -> 0 <= binary64_round q.
Proof.
  intros Hq. unfold binary64_round. destruct (Qeq_bool q 0); [apply Qle_refl |].
  cbv zeta. set (p := Z.max _ _). pose proof (Qpower2_pos p) as Hp.
  apply Qmult_le_0_compat; [| apply Qlt_le_weak, Hp].
  change 0 with (inject_Z 0). rewrite <- Zle_Qle. apply round_half_even_nonneg.
  apply Qle_shift_div_l; [exact Hp | lra].
Qed.

(** On a non-negative number the relative form is enough. *)
Lemma binary64_round_close (q : Q) :
  0 <= q ->
  0 <= binary64_round q /\
  - ((1 # 9007199254740992) * (q + 1)) <= binary64_round q - q
    <= (1 # 9007199254740992) * (q + 1).
Proof.
  intros Hq. split; [apply binary64_round_nonneg, Hq |].
  pose proof (binary64_round_error q) as Herr.
  rewrite (Qabs_pos q Hq) in Herr.
  assert (H53 : 2 ^ (-53) == 1 # 9007199254740992) by reflexivity.
  assert (Htiny : 2 ^ (-1075) <= 2 ^ (-53))
    by (apply Qpower_le_compat_l; [lia | discriminate]).
  rewrite H53 in Herr, Htiny.
  set (t := 2 ^ (-1075)) in *. clearbody t.
  apply Qabs_Qle_condition.
  eapply Qle_trans; [exact Herr |]. lra.
Qed.

Lemma binary64_Some (q : Q) :
  Qabs (binary64_round q) < 2 ^ 1024 -> binary64 q = Some (binary64_round q).
Proof.
  intros Hlt. unfold binary64. cbv zeta.
  destruct (Qle_bool (2 ^ 1024) (Qabs (binary64_round q))) eqn:E; [| reflexivity].
  apply Qle_bool_iff in E. lra.
Qed.

Lemma binary64_inv (q v : Q) : binary64 q = Some v -> v = binary64_round q.
Proof.
  unfold binary64. cbv zeta. destruct (Qle_bool _ _); [discriminate |].
  intros E. injection E as <-. reflexivity.
Qed.

Lemma pow1024_large : 2 ^ 60 <= 2 ^ 1024.
Proof. apply Qpower_le_compat_l; [lia | discriminate]. Qed.

Lemma Qnat_nonneg (n : nat) : 0 <= Qnat n.
Proof. unfold Qnat. change 0 with (inject_Z 0). rewrite <- Zle_Qle. lia. Qed.

(** The float product of a rate in [[0, 1]] and a size up to [2 ^ 50] is
    finite and less than one away from the exact product. *)
Lemma float_mul_int_close (r : Q) (n : nat) :
  0 <= r <= 1 -> (Z.of_nat n <= 2 ^ 50)%Z ->
  exists v, float_mul_int r n = Some v /\ 0 <= v /\
            - (1) < v - r * Qnat n < 1.
Proof.
  intros [Hr0 Hr1] Hn.
  assert (HN0 : 0 <= Qnat n) by apply Qnat_nonneg.
  assert (HN : Qnat n <= 1125899906842624).
  { unfold Qnat. change 1125899906842624 with (inject_Z (2 ^ 50)).
    rewrite <- Zle_Qle. exact Hn. }
  pose proof pow1024_large as Hbig.
  assert (H60 : 2 ^ 60 == 1152921504606846976) by reflexivity.
  rewrite H60 in Hbig.
  destruct (binary64_round_close r Hr0) as [Hr'0 Hr'].
  destruct (binary64_round_close (Qnat n) HN0) as [Hn'0 Hn'].
  set (r' := binary64_round r) in *. set (n' := binary64_round (Qnat n)) in *.
  assert (Hx0 : 0 <= r' * n') by (apply Qmult_le_0_compat; assumption).
  destruct (binary64_round_close (r' * n') Hx0) as [Hv0 Hv].
  set (v := binary64_round (r' * n')) in *.
  set (N := Qnat n) in *.
  assert (Hr'2 : r' <= 2) by lra.
  assert (Hn'2 : n' <= N + 1) by lra.
  assert (Hx : - ((1 # 9007199254740992) * (4 * N + 2)) <= r' * n' - r * N
               <= (1 # 9007199254740992) * (4 * N + 2)).
  { assert (Hd : r' * n' - r * N == r' * (n' - N) + N * (r' - r)) by ring.
    rewrite Hd. clearbody r' n' v N. split; nra. }
  assert (HrN : r * N <= N) by (clearbody N; nra).
  exists v. split.
  - unfold float_mul_int.
    rewrite (binary64_Some r), (binary64_Some (Qnat n)).
    + apply binary64_Some. change (Qabs v < 2 ^ 1024).
      rewrite (Qabs_pos v Hv0). clearbody r' n' v N. lra.
    + change (Qabs n' < 2 ^ 1024).
      rewrite (Qabs_pos n' Hn'0). clearbody r' n' v N. lra.
    + change (Qabs r' < 2 ^ 1024).
      rewrite (Qabs_pos r' Hr'0). clearbody r' n' v N. lra.
  - split; [exact Hv0 |]. clearbody r' n' v N. split; lra.
Qed.

Lemma Qfloor_close (a b : Q) :
  - (1) < a - b < 1 -> (Qfloor b - 1 <= Qfloor a <= Qfloor b + 1)%Z.
Proof.
  intros [Hlo Hhi].
  pose proof (Qfloor_le a) as Ha1. pose proof (Qlt_floor a) as Ha2.
  pose proof (Qfloor_le b) as Hb1. pose proof (Qlt_floor b) as Hb2.
  rewrite inject_Z_plus in Ha2, Hb2. change (inject_Z 1) with 1 in Ha2, Hb2.
  split.
  - assert (Hlt : inject_Z (Qfloor b) < inject_Z (Qfloor a + 2)).
    { rewrite inject_Z_plus. change (inject_Z 2) with 2. lra. }
    rewrite <- Zlt_Qlt in Hlt. lia.
  - assert (Hlt : inject_Z (Qfloor a) < inject_Z (Qfloor b + 2)).
    { rewrite inject_Z_plus. change (inject_Z 2) with 2. lra. }
    rewrite <- Zlt_Qlt in Hlt. lia.
Qed.

(** [int(rate * n)] as the code computes it: the floor of the float
    product, which is the floor of the exact product or next to it. *)
Lemma int_of_product_floor (r : Q) (n : nat) :
  0 <= r <= 1 -> (Z.of_nat n <= 2 ^ 50)%Z ->
  exists v k, float_mul_int r n = Some v /\ int_of_product r n = Some k /\
    k = Qfloor v /\
    (Qfloor (r * Qnat n) - 1 <= k <= Qfloor (r * Qnat n) + 1)%Z.
Proof.
  intros Hr Hn. destruct (float_mul_int_close r n Hr Hn) as (v & Hv & Hv0 & Hclose).
  exists v, (py_int v). split; [exact Hv |]. split.
  - unfold int_of_product. rewrite Hv. reflexivity.
  - rewrite (py_int_floor v Hv0). split; [reflexivity |].
    apply Qfloor_close, Hclose.
Qed.

(** The same for factors with a product of the bounds up to [2 ^ 50]. *)
Lemma float_mul_int_close_gen (r A B : Q) (n : nat) :
  0 <= r <= A -> Qnat n <= B -> (A + 1) * (B + 1) <= 1125899906842624 ->
  exists v, float_mul_int r n = Some v /\ 0 <= v /\
            - (1) < v - r * Qnat n < 1.
Proof.
  intros [Hr0 Hr1] HN HAB.
  assert (HN0 : 0 <= Qnat n) by apply Qnat_nonneg.
  pose proof pow1024_large as Hbig.
  assert (H60 : 2 ^ 60 == 1152921504606846976) by reflexivity.
  rewrite H60 in Hbig.
  destruct (binary64_round_close r Hr0) as [Hr'0 Hr'].
  destruct (binary64_round_close (Qnat n) HN0) as [Hn'0 Hn'].
  set (r' := binary64_round r) in *. set (n' := binary64_round (Qnat n)) in *.
  assert (Hx0 : 0 <= r' * n') by (apply Qmult_le_0_compat; assumption).
  destruct (binary64_round_close (r' * n') Hx0) as [Hv0 Hv].
  set (v := binary64_round (r' * n')) in *.
  set (N := Qnat n) in *.
  assert (HA0 : 0 <= A) by lra. assert (HB0 : 0 <= B) by lra.
  assert (HA1 : A + 1 <= 1125899906842624) by (clearbody N; nra).
  assert (HB1 : B + 1 <= 1125899906842624) by (clearbody N; nra).
  assert (Hr'2 : r' <= A + 1) by lra.
  assert (Hn'2 : n' <= B + 1) by lra.
  assert (Hprod : r * N <= A * B) by (clearbody N; nra).
  assert (Hx : - ((1 # 9007199254740992) * (2 * ((A + 1) * (B + 1)))) <= r' * n' - r * N
               <= (1 # 9007199254740992) * (2 * ((A + 1) * (B + 1)))).
  { assert (Hd : r' * n' - r * N == r' * (n' - N) + N * (r' - r)) by ring.
    rewrite Hd.
    assert (H1 : - ((1 # 9007199254740992) * ((A + 1) * (B + 1))) <= r' * (n' - N)
                 <= (1 # 9007199254740992) * ((A + 1) * (B + 1))).
    { clearbody r' n' v N. split; nra. }
    assert (H2 : - ((1 # 9007199254740992) * ((A + 1) * (B + 1))) <= N * (r' - r)
                 <= (1 # 9007199254740992) * ((A + 1) * (B + 1))).
    { clearbody r' n' v N. split; nra. }
    lra. }
  set (P := (A + 1) * (B + 1)) in *.
  assert (HP : A * B <= P) by (unfold P; nra).
  exists v. split.
  - unfold float_mul_int.
    rewrite (binary64_Some r), (binary64_Some (Qnat n)).
    + apply binary64_Some. change (Qabs v < 2 ^ 1024).
      rewrite (Qabs_pos v Hv0). clearbody r' n' v N P. lra.
    + change (Qabs n' < 2 ^ 1024).
      rewrite (Qabs_pos n' Hn'0). clearbody r' n' v N P. lra.
    + change (Qabs r' < 2 ^ 1024).
      rewrite (Qabs_pos r' Hr'0). clearbody r' n' v N P. lra.
  - split; [exact Hv0 |]. clearbody r' n' v N P. split; lra.
Qed.

Lemma Qceiling_close (a b : Q) :
  - (1) < a - b < 1 -> (Qceiling b - 1 <= Qceiling a <= Qceiling b + 1)%Z.
Proof.
  intros Hab. unfold Qceiling.
  assert (Hn : - (1) < - a - - b < 1) by lra.
  pose proof (Qfloor_close (- a) (- b) Hn). lia.
Qed.

(** [ceil(c * n)] as the code computes it: the ceiling of the float
    product, which is the ceiling of the exact product or next to it. *)
Lemma ceil_of_product_ceiling (a : Q) (n : nat) :
  0 <= a <= 1000 -> (Z.of_nat n <= 2 ^ 40)%Z ->
  exists v k, float_mul_int a n = Some v /\ ceil_of_product a n = Some k /\
    k = Qceiling v /\
    (Qceiling (a * Qnat n) - 1 <= k <= Qceiling (a * Qnat n) + 1)%Z.
Proof.
  intros Ha Hn.
  assert (HN : Qnat n <= 1099511627776).
  { unfold Qnat. change 1099511627776 with (inject_Z (2 ^ 40)).
    rewrite <- Zle_Qle. exact Hn. }
  destruct (float_mul_int_close_gen a 1000 1099511627776 n Ha HN)
    as (v & Hv & Hv0 & Hclose); [discriminate |].
  exists v, (py_ceil v). split; [exact Hv |]. split.
  - unfold ceil_of_product. rewrite Hv. reflexivity.
  - split; [reflexivity |]. apply Qceiling_close, Hclose.
Qed.

(** The rounding at work: [int(0.29 * 100)] and [int(0.3 * 40)], and
    [ceil(0.28 * 25)] and [ceil(0.1 * 10)], come out as in Python, on
    either side of the exact products 29, 12, 7 and 1. *)
Lemma float_product_examples :
  int_of_product (29 # 100) 100 = Some 28%Z /\
  int_of_product (3 # 10) 40 = Some 12%Z /\
  ceil_of_product (28 # 100) 25 = Some 8%Z /\
  ceil_of_product (1 # 10) 10 = Some 1%Z.
Proof. repeat split; vm_compute; reflexivity. Qed.

Section Flags.
Context {G : Type} `{Generator G}.
Variable self : Params.

Lemma flag_sample_spec (pop : list niapy.MkeSolution) (s : niapy.State G) (kz : Z) :
  length pop = population_size self ->
  Forall (fun p => niapy.monkey_king p = false) pop ->
  int_of_product (population_rate self) (population_size self) = Some kz ->
  (0 <= kz)%Z ->
  (Z.to_nat kz <= population_size self)%nat ->
  let k := Z.to_nat kz in
  let drawn := choice (population_size self) k false (niapy.rng s) in
  NoDup drawn.1 /\ length drawn.1 = k /\
  exists pop',
    niapy.V1.flag_sample self pop s =
      Some (pop', {| niapy.rng := drawn.2; niapy.evals := niapy.evals s |}) /\
    length pop' = length pop /\
    (forall j, pop' !! j =
       (fun p => if bool_decide (j ∈ drawn.1) then niapy.set_monkey_king true p else p)
         <$> pop !! j) /\
    count_monkey_kings pop' = k.
Proof.
  intros Hlen Hflags Hkz Hnn Hk k drawn.
  assert (Hnd : NoDup drawn.1) by (apply choice_distinct; exact Hk).
  assert (Hkl : length drawn.1 = k) by apply choice_length.
  assert (Hrange : Forall (fun i => (i < population_size self)%nat) drawn.1).
  { destruct (population_size self) as [|np] eqn:Enp.
    - assert (k = 0)%nat as Hk0 by (unfold k; lia). rewrite Hk0 in Hkl.
      destruct drawn.1; [constructor | discriminate].
    - apply choice_range; [lia | intros _; exact Hk]. }
  split; [exact Hnd |]. split; [exact Hkl |].
  destruct (flag_monkey_kings_spec drawn.1 pop Hnd) as (pop' & Hrun & Hl & Hc & Hlook).
  { intros i Hi. rewrite Forall_forall in Hrange. specialize (Hrange i Hi).
    destruct (lookup_lt_is_Some_2 pop i ltac:(lia)) as [p Hp].
    exists p. split; [exact Hp |].
    rewrite Forall_forall in Hflags. apply Hflags.
    eapply list_elem_of_lookup_2; eauto. }
  exists pop'. split; [| split; [exact Hl | split; [exact Hlook |]]].
  - unfold niapy.V1.flag_sample. rewrite Hlen, Hkz.
    unfold bind, niapy.rng_choice. fold k.
    assert (Hg : ((kz <? 0)%Z
                  || (population_size self =? 0)%nat && negb (k =? 0)%nat
                  || negb false && (population_size self <? k)%nat) = false).
    { destruct (Z.ltb_spec kz 0); [lia |].
      destruct (Nat.ltb_spec (population_size self) k); [unfold k in *; lia |].
      destruct (Nat.eqb_spec (population_size self) 0); [| reflexivity].
      destruct (Nat.eqb_spec k 0); [reflexivity | unfold k in *; lia]. }
    rewrite Hg. unfold niapy.draw. fold drawn.
    destruct drawn as [idx g]. cbn [fst snd] in *. rewrite Hrun. reflexivity.
  - rewrite Hc, (count_monkey_kings_none _ Hflags), Hkl. reflexivity.
Qed.

Lemma flag_sample_Some (pop pop' : list niapy.MkeSolution) (s s' : niapy.State G) :
  length pop = population_size self ->
  niapy.V1.flag_sample self pop s = Some (pop', s') ->
  exists kz,
    int_of_product (population_rate self) (population_size self) = Some kz /\
    (0 <= kz)%Z /\ (Z.to_nat kz <= population_size self)%nat.
Proof.
  intros Hlen Hrun. unfold niapy.V1.flag_sample in Hrun. rewrite Hlen in Hrun.
  destruct (int_of_product (population_rate self) (population_size self)) as [kz|];
    [| discriminate].
  exists kz. split; [reflexivity |].
  inv_bind Hrun. unfold niapy.rng_choice in E.
  destruct (Z.ltb_spec kz 0); [discriminate |].
  destruct (Nat.ltb_spec (population_size self) (Z.to_nat kz));
    [| split; assumption].
  rewrite orb_true_r in E. discriminate.
Qed.

Lemma for_each_particle_flags
    (body : list niapy.MkeSolution -> niapy.MkeSolution ->
            M (niapy.State G) niapy.MkeSolution) :
  (forall pop p s p' s', body pop p s = Some (p', s') -> niapy.monkey_king p' = false) ->
  forall n i pop s pop' s',
    niapy.for_each_particle body n i pop s = Some (pop', s') ->
    length pop' = length pop /\
    (forall j, (j < i)%nat -> pop' !! j = pop !! j) /\
    (forall j p', (i <= j < i + n)%nat -> pop' !! j = Some p' ->
       niapy.monkey_king p' = false).
Proof.
  intros Hbody. induction n as [|n IH]; intros i pop s pop' s' Hrun.
  - injection Hrun as <- <-. repeat split; intros; lia.
  - cbn [niapy.for_each_particle] in Hrun.
    destruct (pop !! i) as [p|] eqn:Hp.
    + inv_bind Hrun. apply IH in Hrun as (Hlen & Hlow & Hhigh).
      rewrite length_insert in Hlen.
      split; [exact Hlen |]. split.
      * intros j Hj. rewrite Hlow by lia. apply list_lookup_insert_ne. lia.
      * intros j p' Hj Hp'. destruct (decide (j = i)) as [-> | Hne].
        -- rewrite Hlow in Hp' by lia.
           rewrite list_lookup_insert_eq in Hp' by (eapply lookup_lt_Some; eauto).
           injection Hp' as <-. eapply Hbody; eauto.
        -- apply (Hhigh j); [lia | exact Hp'].
    + injection Hrun as <- <-. split; [reflexivity |]. split; [reflexivity |].
      intros j p' Hj Hp'.
      apply lookup_ge_None in Hp. apply lookup_lt_Some in Hp'. lia.
Qed.

Lemma Individual_evaluate_flag (task : Task) (p p' : niapy.MkeSolution)
    (s s' : niapy.State G) :
  niapy.Individual_evaluate task p s = Some (p', s') ->
  niapy.monkey_king p' = niapy.monkey_king p.
Proof.
  unfold niapy.Individual_evaluate. intros Hrun.
  inv_bind Hrun. inv_bind Hrun. injection Hrun as <- <-. reflexivity.
Qed.

Lemma update_personal_best_flag (p : niapy.MkeSolution) :
  niapy.monkey_king (niapy.update_personal_best p) = niapy.monkey_king p.
Proof.
  unfold niapy.update_personal_best. destruct (ltf _ _); reflexivity.
Qed.

Lemma v1_move_particle_flag (task : Task) (p p' : niapy.MkeSolution) (xb : vec)
    (s s' : niapy.State G) :
  niapy.V1.move_particle self p xb task s = Some (p', s') ->
  niapy.monkey_king p' = niapy.monkey_king p.
Proof.
  unfold niapy.V1.move_particle. intros Hrun. inv_bind Hrun.
  apply Individual_evaluate_flag in Hrun. exact Hrun.
Qed.

Lemma v1_move_monkey_king_particle_flag (task : Task) (p p' : niapy.MkeSolution)
    (s s' : niapy.State G) :
  niapy.V1.move_monkey_king_particle self p task s = Some (p', s') ->
  niapy.monkey_king p' = false.
Proof.
  unfold niapy.V1.move_monkey_king_particle. cbn zeta. intros Hrun.
  inv_bind Hrun. inv_bind Hrun. inv_bind Hrun.
  destruct (argmin a1) as [ib|]; [| discriminate].
  destruct (a0 !! ib); [| discriminate].
  destruct (a1 !! ib); [| discriminate].
  injection Hrun as <- <-. reflexivity.
Qed.

Lemma v2_move_monkey_king_particle_flag (task : Task) (pop : list niapy.MkeSolution)
    (p p' : niapy.MkeSolution) (s s' : niapy.State G) :
  niapy.V2.move_monkey_king_particle self p task pop s = Some (p', s') ->
  niapy.monkey_king p' = false.
Proof.
  unfold niapy.V2.move_monkey_king_particle. cbn zeta. intros Hrun.
  inv_bind Hrun. destruct a as [p_b p_f]. injection Hrun as <- <-. reflexivity.
Qed.

Lemma move_population_flags (task : Task) (xb : vec)
    (pop pop' : list niapy.MkeSolution) (s s' : niapy.State G) :
  niapy.V1.move_population self pop xb task s = Some (pop', s') \/
  niapy.V2.move_population self pop xb task s = Some (pop', s') ->
  length pop' = length pop /\
  Forall (fun p => niapy.monkey_king p = false) pop'.
Proof.
  intros Hrun.
  assert (Hloop : length pop' = length pop /\
    (forall j, (j < 0)%nat -> pop' !! j = pop !! j) /\
    (forall j p', (0 <= j < 0 + length pop)%nat -> pop' !! j = Some p' ->
       niapy.monkey_king p' = false)).
  { destruct Hrun as [Hrun | Hrun];
      (eapply for_each_particle_flags; [| exact Hrun]);
      intros pop0 p s0 p' s0' Hbody; inv_bind Hbody;
      injection Hbody as <- <-; rewrite update_personal_best_flag;
      destruct (niapy.monkey_king p) eqn:Hp.
    - eapply v1_move_monkey_king_particle_flag; eauto.
    - rewrite <- Hp. eapply v1_move_particle_flag; eauto.
    - eapply v2_move_monkey_king_particle_flag; eauto.
    - rewrite <- Hp. eapply v1_move_particle_flag; eauto. }
  destruct Hloop as (Hlen & _ & Hhigh).
  split; [exact Hlen |].
  apply Forall_lookup. intros j p' Hp'. apply (Hhigh j); [| exact Hp'].
  apply lookup_lt_Some in Hp'. lia.
Qed.

End Flags.

Lemma MkeSolution_init_flag {G : Type} `{Generator G} (task : Task)
    (p : niapy.MkeSolution) (s s' : niapy.State G) :
  niapy.MkeSolution_init task s = Some (p, s') -> niapy.monkey_king p = false.
Proof.
  unfold niapy.MkeSolution_init. intros Hrun.
  inv_bind Hrun. inv_bind Hrun. injection Hrun as <- <-. reflexivity.
Qed.

(** ** The tracked global best of the current package *)

Section Best.
Context {G : Type} `{Generator G}.

Lemma get_best_le (xs : list vec) (fs : list fitness) (best_x : vec)
    (best_fitness : fitness) (s s' : niapy.State G) (bx : vec) (bf : fitness) :
  niapy.get_best xs fs best_x best_fitness s = Some (bx, bf, s') ->
  s' = s /\ lef bf best_fitness = true /\
  ((bx, bf) = (best_x, best_fitness) \/
   ltf bf best_fitness = true /\
   exists ib, argmin fs = Some ib /\ xs !! ib = Some bx /\ fs !! ib = Some bf).
Proof.
  unfold niapy.get_best. intros Hrun.
  destruct (argmin fs) as [ib|]; [| discriminate].
  destruct (xs !! ib) as [xb|] eqn:Hx; [| discriminate].
  destruct (fs !! ib) as [fb|] eqn:Hf; [| discriminate].
  destruct (ltf fb best_fitness) eqn:E; injection Hrun as <- <- <-.
  - split; [reflexivity |]. split; [apply ltf_true_lef, E |].
    right. split; [exact E |]. exists ib. auto.
  - split; [reflexivity |]. split; [apply lef_refl |]. left. reflexivity.
Qed.

(** With [get_best] as the specification describes it, the iterations of
    the current package never return a worse best fitness than they
    were given. *)
Lemma run_iteration_best_monotone (self : Params) (task : Task)
    (population : list niapy.MkeSolution) (population_fitness : list fitness)
    (best_x : vec) (best_fitness : fitness) (s s' : niapy.State G)
    population' population_fitness' best_x' best_fitness' :
  niapy.V1.run_iteration self task population population_fitness best_x
    best_fitness s =
    Some (population', population_fitness', best_x', best_fitness', s') \/
  niapy.V2.run_iteration self task population population_fitness best_x
    best_fitness s =
    Some (population', population_fitness', best_x', best_fitness', s') ->
  lef best_fitness' best_fitness = true.
Proof.
  intros [Hrun | Hrun];
    unfold niapy.V1.run_iteration, niapy.V2.run_iteration,
      niapy.V1.run_iteration_with in Hrun;
    inv_bind Hrun; inv_bind Hrun; inv_bind Hrun;
    destruct a1 as [bx bf]; injection Hrun as _ _ <- <- _;
    apply get_best_le in E1 as (_ & Hle & _); exact Hle.
Qed.

Lemma v3_run_iteration_best_monotone (self : Params) (task : Task)
    (population : mat) (population_fitness : list fitness)
    (best_x : vec) (best_fitness : fitness) (params : niapy.Extra)
    (s s' : niapy.State G)
    population' population_fitness' best_x' best_fitness' params' :
  niapy.V3.run_iteration self task population population_fitness best_x
    best_fitness params s =
    Some (population', population_fitness', best_x', best_fitness', params', s') ->
  lef best_fitness' best_fitness = true.
Proof.
  unfold niapy.V3.run_iteration. cbn zeta. intros Hrun.
  inv_bind Hrun. inv_bind Hrun.
  destruct (niapy.take_rows population a) as [A|]; [| discriminate].
  destruct (niapy.take_rows population a0) as [B|]; [| discriminate].
  inv_bind Hrun. inv_bind Hrun. inv_bind Hrun. destruct a3 as [bx1 bf1].
  inv_bind Hrun. inv_bind Hrun. inv_bind Hrun. inv_bind Hrun.
  destruct a6 as [bx2 bf2].
  destruct (niapy.inject a4 a5 a1 a2) as [[pop2 fit2]|]; [| discriminate].
  injection Hrun as _ _ <- <- _ _.
  apply get_best_le in E3 as (_ & Hle1 & _).
  apply get_best_le in E7 as (_ & Hle2 & _).
  eapply lef_trans; eassumption.
Qed.

End Best.


(** ** The population initialisation returns *)

Section Init.
Context {G : Type} `{Generator G}.

Lemma MkeSolution_init_returns (task : Task) (s : niapy.State G) :
  length (lower task) = dimension task -> length (upper task) = dimension task ->
  exists p s', niapy.MkeSolution_init task s = Some (p, s').
Proof.
  intros Hl Hu. unfold niapy.MkeSolution_init, bind, niapy.draw.
  pose proof (rand_length (dimension task) (niapy.rng s)) as Hr.
  destruct (rand (dimension task) (niapy.rng s)) as [r g]. cbn [fst] in Hr.
  rewrite task_eval_ok; [eexists _, _; reflexivity |].
  unfold vadd, vmul, range, vsub. rewrite !length_zip_with. lia.
Qed.

Lemma traverse_returns {A B : Type} (fn : A -> M (niapy.State G) B) (l : list A) :
  (forall a s, exists b s', fn a s = Some (b, s')) ->
  forall s, exists bs s', traverse fn l s = Some (bs, s').
Proof.
  intros Hfn. induction l as [|a l IH]; intros s.
  - eexists _, _. reflexivity.
  - destruct (Hfn a s) as (b & s1 & Hb). destruct (IH s1) as (bs & s2 & Hbs).
    exists (b :: bs), s2. cbn [traverse]. unfold bind. rewrite Hb, Hbs. reflexivity.
Qed.

(** On a task whose bound vectors have the task's dimension, and with a
    rate that asks for no fewer than zero and at most [population_size]
    flags, [init_population] returns, with that many flags set. *)
Lemma init_population_returns (self : Params) (task : Task) (s : niapy.State G)
    (kz : Z) :
  length (lower task) = dimension task -> length (upper task) = dimension task ->
  int_of_product (population_rate self) (population_size self) = Some kz ->
  (0 <= kz)%Z -> (Z.to_nat kz <= population_size self)%nat ->
  exists pop fpop s',
    niapy.V1.init_population self task s = Some (pop, fpop, s') /\
    length pop = population_size self /\
    count_monkey_kings pop = Z.to_nat kz.
Proof.
  intros Hl Hu Hkz Hnn Hk.
  destruct (traverse_returns (fun _ : nat => niapy.MkeSolution_init task)
              (seq 0 (population_size self))
              (fun _ s0 => MkeSolution_init_returns task s0 Hl Hu) s)
    as (pop & s1 & Hpop).
  destruct (traverse_Forall _ (fun p => niapy.monkey_king p = false)
              (fun _ s0 b s0' Hb => MkeSolution_init_flag task b s0 s0' Hb)
              _ _ _ _ Hpop) as [Hflags Hlen].
  rewrite length_seq in Hlen.
  destruct (flag_sample_spec self pop s1 kz Hlen Hflags Hkz Hnn Hk)
    as (_ & _ & pop' & Hrun & Hl' & _ & Hc).
  eexists pop', (map niapy.f pop), _.
  split; [| split; [congruence | exact Hc]].
  unfold niapy.V1.init_population, niapy.V1.Algorithm_init_population, bind.
  rewrite Hpop. unfold ret. rewrite Hrun. reflexivity.
Qed.

End Init.

(** A run of [init_population] and one iteration of v1 and of v2 on two
    individuals: both iterations return, with one flag set. *)
Lemma run_iteration_example :
  exists pop fpop s1,
    niapy.V1.init_population two_monkeys (sphere1 20) fresh = Some (pop, fpop, s1) /\
    count_monkey_kings pop = 1%nat /\
    (exists r s2,
       niapy.V1.run_iteration two_monkeys (sphere1 20) pop fpop [2] (Fin 4) s1 =
         Some (r, s2) /\
       count_monkey_kings r.1.1.1 = 1%nat /\ r.2 = Fin 4) /\
    (exists r s2,
       niapy.V2.run_iteration two_monkeys (sphere1 20) pop fpop [2] (Fin 4) s1 =
         Some (r, s2) /\
       count_monkey_kings r.1.1.1 = 1%nat /\ r.2 = Fin 4).
Proof.
  eexists _, _, _. split; [vm_compute; reflexivity |].
  split; [reflexivity |].
  split; eexists _, _; (split; [vm_compute; reflexivity | split; reflexivity]).
Qed.


(** ** The run loop of the current package *)

Section Loop.
Context {G : Type} `{Generator G} {P : Type}.
Variable run_iteration :
  P -> list fitness -> vec -> fitness ->
  M (niapy.State G) (P * list fitness * vec * fitness).
Hypothesis run_iteration_monotone :
  forall pop fpop bx bf s pop' fpop' bx' bf' s',
    run_iteration pop fpop bx bf s = Some (pop', fpop', bx', bf', s') ->
    lef bf' bf = true.

(** A loop over monotone iterations returns a best fitness that is not
    worse than the one it started from. *)
Lemma run_loop_monotone (task : Task) (fuel : nat) :
  forall pop fpop bx bf s bx' bf' s',
    niapy.run_loop run_iteration fuel task pop fpop bx bf s = Some (bx', bf', s') ->
    lef bf' bf = true.
Proof.
  induction fuel as [|fuel IH]; intros pop fpop bx bf s bx' bf' s' Hrun;
    [discriminate |].
  cbn [niapy.run_loop] in Hrun. inv_bind Hrun.
  destruct a as [|].
  - injection Hrun as _ <- _. apply lef_refl.
  - inv_bind Hrun. destruct a as [[[pop1 fpop1] bx1] bf1].
    apply run_iteration_monotone in E0. apply IH in Hrun.
    eapply lef_trans; eassumption.
Qed.

End Loop.

(** A run of v1 of the current package returns a fitness that is not worse
    than any fitness of the initial population. *)
Lemma v1_run_not_worse_than_initial {G : Type} `{Generator G}
    (self : Params) (task : Task) (fuel : nat) (s s' : niapy.State G)
    (best_x : vec) (best_fitness : fitness) :
  niapy.V1.run self fuel task s = Some (best_x, best_fitness, s') ->
  exists pop fpop s1,
    niapy.V1.init_population self task s = Some (pop, fpop, s1) /\
    forall j y, fpop !! j = Some y -> lef best_fitness y = true.
Proof.
  unfold niapy.V1.run, niapy.Algorithm_run. intros Hrun.
  inv_bind Hrun. destruct a as [pop fpop].
  exists pop, fpop, s0. split; [exact E |].
  destruct fpop as [|y0 fpop0] eqn:Hf; [discriminate |].
  destruct (argmin_spec (y0 :: fpop0)) as (ib & m & Hib & Hm & Hmin & _);
    [discriminate |].
  rewrite Hib, Hm in Hrun.
  destruct (map niapy.x pop !! ib) as [bx|]; [| discriminate].
  apply (run_loop_monotone (niapy.V1.run_iteration self task)) in Hrun.
  - intros j y Hy. eapply lef_trans; [exact Hrun | eapply Hmin; exact Hy].
  - intros pop1 fpop1 bx1 bf1 s1 pop' fpop' bx' bf' s1' Hit.
    eapply run_iteration_best_monotone. left. exact Hit.
Qed.

(** One individual, flagged, at position 1.0 on the sphere function, in
    the current package: the elite move takes it to a worse position,
    while the tracked best fitness stays at 1.0. *)
Lemma v1_run_iteration_keeps_best :
  exists pop' fpop' s',
    niapy.V1.run_iteration lone_king (sphere1 3)
      [{| niapy.x := [1]; niapy.f := Fin 1; niapy.x_pb := [1]; niapy.f_pb := Fin 1;
          niapy.monkey_king := true |}] [Fin 1] [1] (Fin 1)
      {| niapy.rng := {| floats := [1 # 2]; cursor := 0 |}; niapy.evals := 1 |} =
      Some (pop', fpop', [1], Fin 1, s') /\
    (niapy.f <$> pop' !! 0%nat) = Some (Fin (25 # 16)).
Proof.
  eexists _, _, _. split; vm_compute; reflexivity.
Qed.

(** The earlier package with two individuals, one flagged at each
    resample: the best of the initial population is the flagged one, its
    move makes it worse, and the other individual, moved towards the
    already moved best, stays worse still; the tracked fitness goes from
    1.0 to 1.5625. *)
Lemma runTask_tracked_best_two_individuals :
  exists pop p_b e1 pop' p_b' e2,
    NiaPy.runTask_init two_monkeys (sphere1 6)
      {| NiaPy.self_rand := {| floats := [1 # 2; 1 # 2]; cursor := 0 |};
         NiaPy.np_random := {| floats := [101 # 200; 104 # 200]; cursor := 0 |};
         NiaPy.Evals := 0 |} = Some (pop, p_b, e1) /\
    NiaPy.runTask_body two_monkeys (sphere1 6) pop p_b e1 = Some (pop', p_b', e2) /\
    (exists before, NiaPy.tracked_fitness pop p_b = Some before /\ eqf before (Fin 1)) /\
    (exists after, NiaPy.tracked_fitness pop' p_b' = Some after /\
                   eqf after (Fin (25 # 16))).
Proof.
  eexists _, _, _, _, _, _.
  split; [vm_compute; reflexivity |].
  split; [vm_compute; reflexivity |].
  split; eexists; (split; [vm_compute; reflexivity | vm_compute; reflexivity]).
Qed.


(** * Further properties of the current package *)

Ltac inv_bind_as H a s E := apply bind_Some in H as (a & s & E & H).

(** ** The loop over the population *)

Section Loop_current.
Context {G : Type} `{Generator G}.
Variable body :
  list niapy.MkeSolution -> niapy.MkeSolution -> M (niapy.State G) niapy.MkeSolution.
Variable R : niapy.MkeSolution -> niapy.MkeSolution -> Prop.
Variable cost : niapy.MkeSolution -> nat.
Hypothesis body_post :
  forall pop p s p' s', body pop p s = Some (p', s') ->
    R p p' /\ niapy.evals s' = (niapy.evals s + cost p)%nat.

(** The loop visits the individuals in order, each once, and leaves the
    others as they are. *)
Lemma for_each_particle_post (n : nat) :
  forall i pop s pop' s',
    niapy.for_each_particle body n i pop s = Some (pop', s') ->
    length pop' = length pop /\
    (forall j p, pop !! j = Some p ->
       ((i <= j < i + n)%nat -> exists p', pop' !! j = Some p' /\ R p p') /\
       (~ (i <= j < i + n)%nat -> pop' !! j = Some p)) /\
    niapy.evals s' =
      (niapy.evals s + sum_list (map cost (take n (drop i pop))))%nat.
Proof.
  induction n as [|n IH]; intros i pop s pop' s' Hrun.
  - injection Hrun as <- <-. split; [reflexivity |].
    split; [| rewrite take_0; cbn; lia]. intros j p Hp. split; [lia | auto].
  - cbn [niapy.for_each_particle] in Hrun.
    destruct (pop !! i) as [p|] eqn:Hp.
    + inv_bind Hrun. apply body_post in E as [HR Hcost].
      apply IH in Hrun as (Hlen & Hrel & Hev).
      rewrite length_insert in Hlen.
      split; [exact Hlen |]. split.
      * intros j q Hq. destruct (decide (j = i)) as [-> | Hne].
        -- split; [intros _ | lia].
           assert (Hq' : <[i := a]> pop !! i = Some a)
             by (apply list_lookup_insert_eq; eapply lookup_lt_Some; eauto).
           destruct (Hrel i a Hq') as [_ Hkeep].
           exists a. split; [apply Hkeep; lia |]. congruence.
        -- assert (Hq' : <[i := a]> pop !! j = Some q)
             by (rewrite list_lookup_insert_ne by auto; exact Hq).
           destruct (Hrel j q Hq') as [Hin Hout].
           split; [intros Hj; apply Hin; lia | intros Hj; apply Hout; lia].
      * rewrite Hev, Hcost.
        rewrite (drop_S _ _ _ Hp). rewrite drop_insert_lt by lia.
        simpl. lia.
    + injection Hrun as <- <-. split; [reflexivity |].
      apply lookup_ge_None in Hp. split.
      * intros j q Hq. apply lookup_lt_Some in Hq as Hj. split; [lia | auto].
      * rewrite drop_ge by lia. rewrite take_nil. cbn. lia.
Qed.

End Loop_current.

(** ** What the moves cost and keep *)

Section Moves_current.
Context {G : Type} `{Generator G}.

Lemma draw_Some {A : Type} (gen : G -> A * G) (s s' : niapy.State G) (a : A) :
  niapy.draw gen s = Some (a, s') ->
  a = (gen (niapy.rng s)).1 /\ niapy.rng s' = (gen (niapy.rng s)).2 /\
  niapy.evals s' = niapy.evals s.
Proof.
  unfold niapy.draw. destruct (gen (niapy.rng s)) as [a0 g].
  intros E. injection E as <- <-. auto.
Qed.

Lemma task_repair_Some (task : Task) (pos a : vec) (s s' : niapy.State G) :
  niapy.task_repair task pos s = Some (a, s') ->
  s' = s /\ a = clip_to task pos /\ length pos = dimension task.
Proof.
  unfold niapy.task_repair, Task_repair.
  destruct (Nat.eqb_spec (length pos) (dimension task)); [| discriminate].
  intros E. injection E as <- <-. auto.
Qed.

Lemma task_eval_Some (task : Task) (pos : vec) (y : fitness) (s s' : niapy.State G) :
  niapy.task_eval task pos s = Some (y, s') ->
  y = Fin (fn task pos) /\ niapy.evals s' = S (niapy.evals s) /\
  niapy.rng s' = niapy.rng s /\ length pos = dimension task.
Proof.
  unfold niapy.task_eval, Task_evaluate.
  destruct (Nat.eqb_spec (length pos) (dimension task)); [| discriminate].
  intros E. injection E as <- <-. auto.
Qed.

Lemma traverse_evals {A B : Type} (fn : A -> M (niapy.State G) B) (k : nat) :
  (forall a s b s', fn a s = Some (b, s') -> niapy.evals s' = (niapy.evals s + k)%nat) ->
  forall l s bs s', traverse fn l s = Some (bs, s') ->
    niapy.evals s' = (niapy.evals s + k * length l)%nat /\ length bs = length l.
Proof.
  intros Hfn. induction l as [|a l IH]; intros s bs s' Hrun.
  - injection Hrun as <- <-. cbn. lia.
  - cbn [traverse] in Hrun. inv_bind Hrun. inv_bind Hrun.
    injection Hrun as <- <-.
    apply Hfn in E. apply IH in E0 as [E0 El]. cbn. lia.
Qed.

Lemma apply_along_axis_Some {S A : Type} (fn : vec -> M S A) (rows : mat)
    (s s' : S) (bs : list A) :
  apply_along_axis fn rows s = Some (bs, s') ->
  rows <> [] /\ traverse fn rows s = Some (bs, s').
Proof.
  destruct rows; [discriminate |]. intros E. split; [discriminate | exact E].
Qed.

Lemma update_personal_best_post (p : niapy.MkeSolution) :
  let p' := niapy.update_personal_best p in
  niapy.x p' = niapy.x p /\ niapy.f p' = niapy.f p /\
  niapy.monkey_king p' = niapy.monkey_king p /\
  lef (niapy.f_pb p') (niapy.f p') = true /\
  lef (niapy.f_pb p') (niapy.f_pb p) = true /\
  ((niapy.x_pb p', niapy.f_pb p') = (niapy.x_pb p, niapy.f_pb p) \/
   (niapy.x_pb p', niapy.f_pb p') = (niapy.x p', niapy.f p')).
Proof.
  unfold niapy.update_personal_best. cbn zeta.
  destruct (ltf (niapy.f p) (niapy.f_pb p)) eqn:E; cbn.
  - repeat split; auto using lef_refl, ltf_true_lef.
  - repeat split; auto using lef_refl, ltf_false_lef.
Qed.

Lemma traverse_eval_Some (task : Task) (rows : mat) (fits : list fitness)
    (s s' : niapy.State G) :
  traverse (niapy.task_eval task) rows s = Some (fits, s') ->
  fits = map (fun r => Fin (fn task r)) rows /\
  niapy.evals s' = (niapy.evals s + length rows)%nat /\
  niapy.rng s' = niapy.rng s /\
  Forall (fun r => length r = dimension task) rows.
Proof.
  revert s fits. induction rows as [|r rows IH]; intros s fits Erun.
  - injection Erun as <- <-. repeat split; [cbn; lia | constructor].
  - cbn [traverse] in Erun. inv_bind_as Erun y sy Ey. inv_bind_as Erun ys sys Eys.
    injection Erun as <- <-.
    apply task_eval_Some in Ey as (-> & Hev & Hrng & Hlen).
    apply IH in Eys as (-> & Hev' & Hrng' & Hall).
    repeat split; [cbn; lia | congruence | constructor; assumption].
Qed.

Lemma traverse_repair_Some (task : Task) (rows out : mat) (s s' : niapy.State G) :
  traverse (niapy.task_repair task) rows s = Some (out, s') ->
  out = map (clip_to task) rows /\ s' = s.
Proof.
  revert s out. induction rows as [|r rows IH]; intros s out Erun.
  - injection Erun as <- <-. auto.
  - cbn [traverse] in Erun. inv_bind_as Erun y sy Ey. inv_bind_as Erun ys sys Eys.
    injection Erun as <- <-.
    apply task_repair_Some in Ey as (-> & -> & _).
    apply IH in Eys as (-> & ->). auto.
Qed.

Variable self : Params.

Lemma v1_move_particle_post (task : Task) (p p' : niapy.MkeSolution) (xb : vec)
    (s s' : niapy.State G) :
  niapy.V1.move_particle self p xb task s = Some (p', s') ->
  niapy.x_pb p' = niapy.x_pb p /\ niapy.f_pb p' = niapy.f_pb p /\
  niapy.monkey_king p' = niapy.monkey_king p /\
  niapy.f p' = Fin (fn task (niapy.x p')) /\
  niapy.evals s' = S (niapy.evals s).
Proof.
  unfold niapy.V1.move_particle, niapy.V1.move_p, niapy.Individual_evaluate.
  intros Hrun. inv_bind Hrun. inv_bind E. injection E as <- <-.
  apply draw_Some in E0 as (_ & _ & Hev0).
  inv_bind Hrun. inv_bind Hrun. injection Hrun as <- <-.
  apply task_repair_Some in E as (-> & -> & _).
  apply task_eval_Some in E0 as (-> & Hev & _).
  cbn. repeat split; congruence.
Qed.

Lemma v1_move_monkey_king_particle_post (task : Task) (p p' : niapy.MkeSolution)
    (s s' : niapy.State G) :
  niapy.V1.move_monkey_king_particle self p task s = Some (p', s') ->
  niapy.x_pb p' = niapy.x_pb p /\ niapy.f_pb p' = niapy.f_pb p /\
  niapy.monkey_king p' = false /\
  niapy.f p' = Fin (fn task (niapy.x p')) /\
  niapy.evals s' = (niapy.evals s + count_of (c self * Qnat (dimension task)))%nat.
Proof.
  unfold niapy.V1.move_monkey_king_particle, niapy.V1.move_mk. cbn zeta.
  intros Hrun. inv_bind_as Hrun cand s0 Ecand.
  inv_bind_as Ecand U sU EU. injection Ecand as <- <-.
  apply draw_Some in EU as (-> & _ & Hev0).
  inv_bind_as Hrun rows s1 Erep. inv_bind_as Hrun fits s2 Eev.
  apply apply_along_axis_Some in Erep as [_ Erep].
  apply apply_along_axis_Some in Eev as [_ Eev].
  apply traverse_repair_Some in Erep as (-> & ->).
  apply traverse_eval_Some in Eev as (-> & Hev2 & _).
  destruct (argmin _) as [ib|]; [| discriminate].
  match type of Hrun with
  | context [?rows !! ib] => destruct (rows !! ib) as [best|] eqn:Hbest
  end; [| discriminate].
  rewrite list_lookup_fmap, Hbest in Hrun. cbn in Hrun.
  injection Hrun as <- <-. cbn.
  repeat split.
  rewrite Hev2, !length_map, rand2_rows. lia.
Qed.

Lemma v2_trials_post (task : Task) (pop : list niapy.MkeSolution)
    (p : niapy.MkeSolution) (n : nat) :
  forall (p_b : vec) (p_f : fitness) (s s' : niapy.State G) (r_b : vec) (r_f : fitness),
    niapy.V2.trials self n p task pop p_b p_f s = Some (r_b, r_f, s') ->
    niapy.evals s' = (niapy.evals s + n)%nat /\
    lef r_f p_f = true /\
    ((r_b, r_f) = (p_b, p_f) \/ r_f = Fin (fn task r_b) /\ ltf r_f p_f = true).
Proof.
  induction n as [|n IH]; intros p_b p_f s s' r_b r_f Hrun.
  - injection Hrun as <- <- <-. split; [lia |]. split; [apply lef_refl | auto].
  - cbn [niapy.V2.trials] in Hrun. inv_bind_as Hrun r s0 Er.
    unfold niapy.rng_choice in Er.
    destruct (_ || _ || _); [discriminate |].
    apply draw_Some in Er as (_ & _ & Hev0).
    destruct r as [|r0 [|r1 [|? ?]]]; try discriminate.
    destruct (pop !! r0) as [pj|]; [| discriminate].
    destruct (pop !! r1) as [pk|]; [| discriminate].
    inv_bind_as Hrun a s1 Ea. inv_bind_as Hrun a_f s2 Eaf.
    apply task_repair_Some in Ea as (-> & -> & _).
    apply task_eval_Some in Eaf as (-> & Hev1 & _).
    destruct (ltf _ p_f) eqn:E; apply IH in Hrun as (Hev & Hle & Hcase).
    + split; [lia |]. split; [eapply lef_trans; [exact Hle | apply ltf_true_lef, E] |].
      right. destruct Hcase as [Hc | [Hc Hlt]].
      * injection Hc as -> ->. auto.
      * split; [exact Hc |]. eapply ltf_lef_trans; [exact Hlt | apply ltf_true_lef, E].
    + split; [lia |]. split; [exact Hle | exact Hcase].
Qed.

Lemma v2_move_monkey_king_particle_post (task : Task) (pop : list niapy.MkeSolution)
    (p p' : niapy.MkeSolution) (s s' : niapy.State G) :
  niapy.V2.move_monkey_king_particle self p task pop s = Some (p', s') ->
  niapy.x_pb p' = niapy.x_pb p /\ niapy.f_pb p' = niapy.f_pb p /\
  niapy.monkey_king p' = false /\
  lef (niapy.f p') (niapy.f p) = true /\
  ((niapy.x p', niapy.f p') = (niapy.x p, niapy.f p) \/
   niapy.f p' = Fin (fn task (niapy.x p')) /\ ltf (niapy.f p') (niapy.f p) = true) /\
  niapy.evals s' =
    (niapy.evals s + count_of (c self * Qnat (population_size self)))%nat.
Proof.
  unfold niapy.V2.move_monkey_king_particle. cbn zeta. intros Hrun.
  inv_bind_as Hrun r s0 Er. destruct r as [r_b r_f]. injection Hrun as <- <-.
  apply v2_trials_post in Er as (Hev & Hle & Hcase). cbn in *.
  repeat split; assumption.
Qed.

End Moves_current.

(** ** [move_population] *)

Section Move_population.
Context {G : Type} `{Generator G}.
Variables (self : Params) (task : Task) (xb : vec).

(** What one pass of the loop body does to an individual. *)
Let kept (p p' : niapy.MkeSolution) : Prop :=
  niapy.monkey_king p' = false /\
  lef (niapy.f_pb p') (niapy.f p') = true /\
  lef (niapy.f_pb p') (niapy.f_pb p) = true /\
  ((niapy.x_pb p', niapy.f_pb p') = (niapy.x_pb p, niapy.f_pb p) \/
   (niapy.x_pb p', niapy.f_pb p') = (niapy.x p', niapy.f p')).

Lemma v1_move_population_post (pop pop' : list niapy.MkeSolution)
    (s s' : niapy.State G) :
  niapy.V1.move_population self pop xb task s = Some (pop', s') ->
  length pop' = length pop /\
  (forall j p, pop !! j = Some p ->
     exists p', pop' !! j = Some p' /\ kept p p' /\
       niapy.f p' = Fin (fn task (niapy.x p'))) /\
  niapy.evals s' =
    (niapy.evals s +
     sum_list (map (fun p => if niapy.monkey_king p
                             then count_of (c self * Qnat (dimension task))
                             else 1%nat) pop))%nat.
Proof.
  intros Hrun. unfold niapy.V1.move_population in Hrun.
  eapply (for_each_particle_post _
            (fun p p' => kept p p' /\ niapy.f p' = Fin (fn task (niapy.x p')))
            (fun p => if niapy.monkey_king p
                      then count_of (c self * Qnat (dimension task)) else 1%nat))
    in Hrun.
  - destruct Hrun as (Hl & Hrel & Hev). split; [exact Hl |]. split.
    + intros j p Hp. apply (Hrel j p Hp). apply lookup_lt_Some in Hp. lia.
    + rewrite Hev. cbn [drop]. rewrite firstn_all. reflexivity.
  - intros pop0 p s0 p'' s0' Hbody.
    inv_bind_as Hbody p1 s1 Emove. injection Hbody as <- <-.
    destruct (update_personal_best_post p1) as (Hx & Hf & Hmk & Hle & Hpb & Hcase).
    assert (Hmove : niapy.x_pb p1 = niapy.x_pb p /\ niapy.f_pb p1 = niapy.f_pb p /\
                    niapy.monkey_king p1 = false /\
                    niapy.f p1 = Fin (fn task (niapy.x p1)) /\
                    niapy.evals s1 =
                      (niapy.evals s0 +
                       (if niapy.monkey_king p
                        then count_of (c self * Qnat (dimension task)) else 1))%nat).
    { destruct (niapy.monkey_king p) eqn:Hp.
      - apply v1_move_monkey_king_particle_post in Emove. exact Emove.
      - apply v1_move_particle_post in Emove as (Ex & Ef & Eflag & Efit & Eev).
        repeat split; try assumption; [congruence | lia]. }
    destruct Hmove as (Ex & Ef & Eflag & Efit & Eev).
    rewrite Ex, Ef, Hx, Hf in Hcase. rewrite Ef in Hpb. rewrite Hf in Hle.
    unfold kept. rewrite Hmk, Hx, Hf.
    repeat split; assumption.
Qed.

Lemma v2_move_population_post (pop pop' : list niapy.MkeSolution)
    (s s' : niapy.State G) :
  niapy.V2.move_population self pop xb task s = Some (pop', s') ->
  length pop' = length pop /\
  (forall j p, pop !! j = Some p ->
     exists p', pop' !! j = Some p' /\ kept p p' /\
       (niapy.monkey_king p = true -> lef (niapy.f p') (niapy.f p) = true)) /\
  niapy.evals s' =
    (niapy.evals s +
     sum_list (map (fun p => if niapy.monkey_king p
                             then count_of (c self * Qnat (population_size self))
                             else 1%nat) pop))%nat.
Proof.
  intros Hrun. unfold niapy.V2.move_population in Hrun.
  eapply (for_each_particle_post _
            (fun p p' => kept p p' /\
               (niapy.monkey_king p = true -> lef (niapy.f p') (niapy.f p) = true))
            (fun p => if niapy.monkey_king p
                      then count_of (c self * Qnat (population_size self))
                      else 1%nat))
    in Hrun.
  - destruct Hrun as (Hl & Hrel & Hev). split; [exact Hl |]. split.
    + intros j p Hp. apply (Hrel j p Hp). apply lookup_lt_Some in Hp. lia.
    + rewrite Hev. cbn [drop]. rewrite firstn_all. reflexivity.
  - intros pop0 p s0 p'' s0' Hbody.
    inv_bind_as Hbody p1 s1 Emove. injection Hbody as <- <-.
    destruct (update_personal_best_post p1) as (Hx & Hf & Hmk & Hle & Hpb & Hcase).
    assert (Hmove : niapy.x_pb p1 = niapy.x_pb p /\ niapy.f_pb p1 = niapy.f_pb p /\
                    niapy.monkey_king p1 = false /\
                    (niapy.monkey_king p = true ->
                     lef (niapy.f p1) (niapy.f p) = true) /\
                    niapy.evals s1 =
                      (niapy.evals s0 +
                       (if niapy.monkey_king p
                        then count_of (c self * Qnat (population_size self))
                        else 1))%nat).
    { destruct (niapy.monkey_king p) eqn:Hp.
      - apply v2_move_monkey_king_particle_post in Emove
          as (Ex & Ef & Eflag & Ele & _ & Eev).
        repeat split; auto.
      - apply v1_move_particle_post in Emove as (Ex & Ef & Eflag & Efit & Eev).
        repeat split; try assumption; [congruence | discriminate | lia]. }
    destruct Hmove as (Ex & Ef & Eflag & Ele & Eev).
    rewrite Ex, Ef, Hx, Hf in Hcase. rewrite Ef in Hpb. rewrite Hf in Hle.
    unfold kept. rewrite Hmk, Hx, Hf.
    repeat split; assumption.
Qed.

End Move_population.

(** After [move_population] of v1 or v2 the population has the same
    length and every individual has its flag cleared, a personal-best
    fitness that is not worse than its current fitness and not worse than
    its personal-best fitness before the call, and a personal best that is
    either the one it had or its current position and fitness. *)
Theorem move_population_personal_best {G : Type} `{Generator G}
    (self : Params) (task : Task) (xb : vec)
    (pop pop' : list niapy.MkeSolution) (s s' : niapy.State G) :
  niapy.V1.move_population self pop xb task s = Some (pop', s') \/
  niapy.V2.move_population self pop xb task s = Some (pop', s') ->
  length pop' = length pop /\
  forall j p, pop !! j = Some p ->
    exists p', pop' !! j = Some p' /\
      niapy.monkey_king p' = false /\
      lef (niapy.f_pb p') (niapy.f p') = true /\
      lef (niapy.f_pb p') (niapy.f_pb p) = true /\
      ((niapy.x_pb p', niapy.f_pb p') = (niapy.x_pb p, niapy.f_pb p) \/
       (niapy.x_pb p', niapy.f_pb p') = (niapy.x p', niapy.f p')).
Proof.
  intros [Hrun | Hrun].
  - apply v1_move_population_post in Hrun as (Hl & Hrel & _).
    split; [exact Hl |]. intros j p Hp.
    destruct (Hrel j p Hp) as (p' & Hp' & Hkept & _). exists p'. split; assumption.
  - apply v2_move_population_post in Hrun as (Hl & Hrel & _).
    split; [exact Hl |]. intros j p Hp.
    destruct (Hrel j p Hp) as (p' & Hp' & Hkept & _). exists p'. split; assumption.
Qed.



Lemma move_population_personal_best_witness :
  exists pop' s',
    niapy.V1.move_population two_monkeys
      [{| niapy.x := [2]; niapy.f := Fin 4; niapy.x_pb := [2]; niapy.f_pb := Fin 4;
          niapy.monkey_king := true |};
       {| niapy.x := [4]; niapy.f := Fin 16; niapy.x_pb := [4]; niapy.f_pb := Fin 16;
          niapy.monkey_king := false |}] [2] (sphere1 20)
      {| niapy.rng := {| floats := [1 # 2; 1 # 4]; cursor := 0 |}; niapy.evals := 2 |} =
      Some (pop', s') /\
    length pop' = 2%nat /\
    exists p', pop' !! 0%nat = Some p' /\ niapy.monkey_king p' = false /\
      lef (niapy.f_pb p') (niapy.f p') = true.
Proof.
  destruct (niapy.V1.move_population _ _ _ _ _) as [[pop' s']|] eqn:E;
    [| vm_compute in E; discriminate].
  exists pop', s'. split; [reflexivity |].
  destruct (move_population_personal_best _ _ _ _ _ _ _ (or_introl E)) as [Hl Hrel].
  split; [exact Hl |].
  destruct (Hrel 0%nat _ eq_refl) as (p' & Hp' & Hmk & Hle & _).
  exists p'. auto.
Defined.



(** ** The resample of the flags *)

Lemma flag_monkey_kings_Some (idx : list nat) :
  forall pop pop', niapy.flag_monkey_kings idx pop = Some pop' ->
  length pop' = length pop /\
  Forall (fun i => (i < length pop)%nat) idx /\
  forall j p, pop !! j = Some p ->
    pop' !! j =
      Some (if bool_decide (j ∈ idx) then niapy.set_monkey_king true p else p).
Proof.
  induction idx as [|i idx IH]; intros pop pop' Hrun.
  - injection Hrun as <-. split; [reflexivity |]. split; [constructor | auto].
  - cbn [niapy.flag_monkey_kings] in Hrun.
    destruct (pop !! i) as [q|] eqn:Hq; [| discriminate].
    apply IH in Hrun as (Hl & Hidx & Hlook). rewrite length_insert in Hl, Hidx.
    split; [exact Hl |].
    split; [constructor; [eapply lookup_lt_Some; eauto | exact Hidx] |].
    intros j p Hp. destruct (decide (j = i)) as [-> | Hne].
    + assert (p = q) by congruence. subst q.
      rewrite (Hlook i (niapy.set_monkey_king true p))
        by (apply list_lookup_insert_eq; eapply lookup_lt_Some; eauto).
      rewrite (bool_decide_eq_true_2 (i ∈ i :: idx)) by left.
      destruct (bool_decide (i ∈ idx)); reflexivity.
    + rewrite (Hlook j p) by (rewrite list_lookup_insert_ne by auto; exact Hp).
      destruct (bool_decide (j ∈ idx)) eqn:E.
      * apply bool_decide_eq_true_1 in E.
        rewrite bool_decide_eq_true_2 by (right; exact E). reflexivity.
      * apply bool_decide_eq_false_1 in E.
        rewrite bool_decide_eq_false_2; [reflexivity |].
        intros Hj. apply elem_of_cons in Hj as [-> | Hj]; contradiction.
Qed.

(** The resample of the flags uses no evaluation and changes nothing but
    flags: every individual keeps its position, fitness and personal
    best; a flag that was set stays set, and a flag is set afterwards only
    if it was set before or its index is one of the sampled ones.  These
    are [int(population_rate * len(pop))] distinct indices below the
    population size, the product being the float product: for a rate in
    [[0, 1]] their number is the floor of the exact product or next to
    it. *)
Theorem flag_sample_only_sets_flags {G : Type} `{Generator G} (self : Params)
    (pop pop' : list niapy.MkeSolution) (s s' : niapy.State G) :
  niapy.V1.flag_sample self pop s = Some (pop', s') ->
  niapy.evals s' = niapy.evals s /\
  length pop' = length pop /\
  exists (k : Z) (idx : list nat),
    int_of_product (population_rate self) (length pop) = Some k /\
    (0 <= k)%Z /\
    (0 <= population_rate self <= 1 -> (Z.of_nat (length pop) <= 2 ^ 50)%Z ->
     (Qfloor (population_rate self * Qnat (length pop)) - 1 <= k
      <= Qfloor (population_rate self * Qnat (length pop)) + 1)%Z) /\
    Z.of_nat (length idx) = k /\ NoDup idx /\
    Forall (fun i => (i < length pop)%nat) idx /\
    forall j p, pop !! j = Some p ->
      exists p', pop' !! j = Some p' /\
        niapy.x p' = niapy.x p /\ niapy.f p' = niapy.f p /\
        niapy.x_pb p' = niapy.x_pb p /\ niapy.f_pb p' = niapy.f_pb p /\
        niapy.monkey_king p' = niapy.monkey_king p || bool_decide (j ∈ idx).
Proof.
  unfold niapy.V1.flag_sample. intros Hrun.
  destruct (int_of_product (population_rate self) (length pop)) as [k|] eqn:Ek;
    [| discriminate].
  inv_bind_as Hrun idx s0 Eidx.
  destruct (niapy.flag_monkey_kings idx pop) as [pop0|] eqn:Eflag; [| discriminate].
  injection Hrun as <- <-.
  unfold niapy.rng_choice in Eidx.
  destruct (Z.ltb_spec k 0) as [| Hk0]; [discriminate |].
  cbn [orb] in Eidx. destruct (_ && _); [discriminate |]. cbn [orb negb andb] in Eidx.
  destruct (Nat.ltb_spec (population_size self) (Z.to_nat k)) as [| Hkn];
    [discriminate |].
  apply draw_Some in Eidx as (-> & _ & Hev).
  apply flag_monkey_kings_Some in Eflag as (Hl & Hidx & Hlook).
  split; [exact Hev |]. split; [exact Hl |].
  exists k. eexists. split; [reflexivity |]. split; [exact Hk0 |].
  split; [| split; [| split; [| split; [exact Hidx |]]]].
  - intros Hrate Hsize.
    destruct (int_of_product_floor _ _ Hrate Hsize) as (v & k' & _ & Hk' & _ & Hclose).
    rewrite Ek in Hk'. injection Hk' as <-. exact Hclose.
  - rewrite choice_length. apply Z2Nat.id. assumption.
  - apply choice_distinct. exact Hkn.
  - intros j p Hp. eexists. split; [apply Hlook, Hp |].
    destruct (bool_decide _); cbn; rewrite ?orb_true_r, ?orb_false_r; auto.
Qed.

Lemma flag_sample_only_sets_flags_witness :
  exists pop' s',
    niapy.V1.flag_sample two_monkeys
      [{| niapy.x := [2]; niapy.f := Fin 4; niapy.x_pb := [2]; niapy.f_pb := Fin 4;
          niapy.monkey_king := false |};
       {| niapy.x := [4]; niapy.f := Fin 16; niapy.x_pb := [4]; niapy.f_pb := Fin 16;
          niapy.monkey_king := true |}] after_init = Some (pop', s') /\
    niapy.evals s' = 1%nat /\ length pop' = 2%nat.
Proof.
  destruct (niapy.V1.flag_sample _ _ _) as [[pop' s']|] eqn:E;
    [| vm_compute in E; discriminate].
  exists pop', s'. split; [reflexivity |].
  destruct (flag_sample_only_sets_flags _ _ _ _ _ E) as (Hev & Hl & _).
  split; [exact Hev | exact Hl].
Defined.

(** ** The iterations of v1 and v2 return *)

Section Returns.
Context {G : Type} `{Generator G}.
Variables (self : Params) (task : Task).
Hypothesis Hl : length (lower task) = dimension task.
Hypothesis Hu : length (upper task) = dimension task.

(** An individual whose position and personal best have the task's
    dimension. *)
Let shaped (p : niapy.MkeSolution) : Prop :=
  length (niapy.x p) = dimension task /\ length (niapy.x_pb p) = dimension task.

Lemma for_each_particle_returns
    (body : list niapy.MkeSolution -> niapy.MkeSolution ->
            M (niapy.State G) niapy.MkeSolution) (L : nat) :
  (forall pop p s, length pop = L -> Forall shaped pop -> shaped p ->
     exists p' s', body pop p s = Some (p', s') /\ shaped p') ->
  forall n i pop s, length pop = L -> Forall shaped pop ->
    exists pop' s',
      niapy.for_each_particle body n i pop s = Some (pop', s') /\
      length pop' = L /\ Forall shaped pop'.
Proof.
  intros Hbody. induction n as [|n IH]; intros i pop s Hlen Hall.
  - exists pop, s. auto.
  - cbn [niapy.for_each_particle]. destruct (pop !! i) as [p|] eqn:Hp.
    + assert (Hsp : shaped p)
        by (eapply (proj1 (Forall_lookup _ _) Hall); exact Hp).
      destruct (Hbody pop p s Hlen Hall Hsp) as (p' & s1 & Hrun & Hsp').
      destruct (IH (S i) (<[i := p']> pop) s1) as (pop' & s2 & Hloop & Hl' & Hall').
      * rewrite length_insert. exact Hlen.
      * apply Forall_insert; assumption.
      * exists pop', s2. unfold bind. rewrite Hrun. auto.
    + exists pop, s. auto.
Qed.

Lemma update_personal_best_shaped (p : niapy.MkeSolution) :
  shaped p -> shaped (niapy.update_personal_best p).
Proof.
  intros [Hx Hpb]. unfold niapy.update_personal_best.
  destruct (ltf _ _); split; assumption.
Qed.

Lemma v1_move_particle_returns (p : niapy.MkeSolution) (xb : vec)
    (s : niapy.State G) :
  shaped p -> length xb = dimension task ->
  exists p' s', niapy.V1.move_particle self p xb task s = Some (p', s') /\ shaped p'.
Proof.
  intros [Hx Hpb] Hxb.
  unfold niapy.V1.move_particle, niapy.V1.move_p, niapy.Individual_evaluate,
    bind, niapy.draw, ret.
  pose proof (rand_length (dimension task) (niapy.rng s)) as Hr.
  destruct (rand (dimension task) (niapy.rng s)) as [r g]. cbn [fst] in Hr.
  cbn [niapy.x niapy.set_position].
  set (a := vadd (niapy.x_pb p)
              (vmul (vscale (fluctuation_coeff self) r) (vsub xb (niapy.x p)))).
  assert (Ha : length a = dimension task).
  { unfold a, vadd, vmul, vsub, vscale.
    rewrite !length_zip_with, length_map. lia. }
  rewrite (task_repair_ok task a _ Ha).
  rewrite (task_eval_ok task (clip_to task a) _ (length_clip_to task a Hl Hu Ha)).
  eexists _, _. split; [reflexivity |].
  split; [apply length_clip_to; assumption | exact Hpb].
Qed.

Lemma v1_move_monkey_king_particle_returns (p : niapy.MkeSolution)
    (s : niapy.State G) :
  shaped p -> (0 < count_of (c self * Qnat (dimension task)))%nat ->
  exists p' s',
    niapy.V1.move_monkey_king_particle self p task s = Some (p', s') /\ shaped p'.
Proof.
  intros [Hx Hpb] Hn.
  unfold niapy.V1.move_monkey_king_particle, niapy.V1.move_mk. cbv zeta.
  cbn [niapy.x niapy.set_monkey_king].
  unfold bind at 1. unfold bind at 1. unfold niapy.draw.
  set (n := count_of (c self * Qnat (dimension task))) in *.
  pose proof (rand2_rows n (dimension task) (niapy.rng s)) as HU.
  pose proof (rand2_cols n (dimension task) (niapy.rng s)) as HUc.
  destruct (rand2 n (dimension task) (niapy.rng s)) as [U g]. cbn [fst] in HU, HUc.
  unfold ret at 1.
  set (cand := map (fun u => vadd (niapy.x p) (vmul (vscale (fc self) u) (niapy.x p))) U).
  assert (Hcand : Forall (fun r => length r = dimension task) cand).
  { unfold cand. apply Forall_fmap. eapply Forall_impl; [exact HUc |].
    intros u Hu'. cbv beta in Hu'. cbn. unfold vadd, vmul, vscale.
    rewrite !length_zip_with, length_map. lia. }
  assert (Hne : cand <> []).
  { intros E. apply (f_equal length) in E. unfold cand in E.
    rewrite length_map in E. cbn in E. lia. }
  rewrite (apply_along_axis_rows _ cand Hne). unfold bind at 1.
  rewrite (traverse_repair task cand _ Hcand).
  set (a := map (clip_to task) cand).
  assert (Ha : Forall (fun r => length r = dimension task) a).
  { unfold a. apply Forall_fmap. eapply Forall_impl; [exact Hcand |].
    intros r Hr. cbv beta in Hr. cbn. apply length_clip_to; assumption. }
  assert (Hane : a <> []).
  { intros E. apply (f_equal length) in E. unfold a in E.
    rewrite length_map in E. destruct cand; [contradiction | discriminate]. }
  rewrite (apply_along_axis_rows _ a Hane). unfold bind at 1.
  rewrite (traverse_eval task a _ Ha).
  destruct (argmin_spec (map (fun r => Fin (fn task r)) a)) as (ib & m & Hib & Hm & _).
  { intros E. apply (f_equal length) in E. rewrite length_map in E.
    destruct a; [contradiction | discriminate]. }
  rewrite Hib, Hm.
  rewrite list_lookup_fmap in Hm.
  destruct (a !! ib) as [best|] eqn:Hbest; [| discriminate].
  eexists _, _. split; [reflexivity |].
  split; [| exact Hpb]. cbn.
  eapply (proj1 (Forall_lookup _ _) Ha); exact Hbest.
Qed.

Lemma v2_trials_length (pop : list niapy.MkeSolution) (p : niapy.MkeSolution)
    (n : nat) :
  forall (p_b : vec) (p_f : fitness) (s s' : niapy.State G) (r_b : vec) (r_f : fitness),
    niapy.V2.trials self n p task pop p_b p_f s = Some (r_b, r_f, s') ->
    length p_b = dimension task -> length r_b = dimension task.
Proof.
  induction n as [|n IH]; intros p_b p_f s s' r_b r_f Hrun Hpb.
  - injection Hrun as <- <- <-. exact Hpb.
  - cbn [niapy.V2.trials] in Hrun. inv_bind_as Hrun r s0 Er.
    destruct r as [|r0 [|r1 [|? ?]]]; try discriminate.
    destruct (pop !! r0) as [pj|]; [| discriminate].
    destruct (pop !! r1) as [pk|]; [| discriminate].
    inv_bind_as Hrun a s1 Ea. inv_bind_as Hrun a_f s2 Eaf.
    apply task_eval_Some in Eaf as (_ & _ & _ & Hla).
    destruct (ltf _ p_f); eapply IH; eauto.
Qed.

Lemma v2_move_monkey_king_particle_returns (pop : list niapy.MkeSolution)
    (p : niapy.MkeSolution) (s : niapy.State G) :
  length pop = population_size self -> (2 <= population_size self)%nat ->
  Forall shaped pop -> shaped p ->
  exists p' s',
    niapy.V2.move_monkey_king_particle self p task pop s = Some (p', s') /\ shaped p'.
Proof.
  intros Hlen Hnp Hall [Hx Hpb].
  assert (Hpop : Forall (fun q => length (niapy.x q) = dimension task) pop)
    by (eapply Forall_impl; [exact Hall | intros q [Hq _]; exact Hq]).
  unfold niapy.V2.move_monkey_king_particle. cbv zeta.
  destruct (trials_spec self task pop (niapy.x p) Hlen Hnp Hpop Hx Hl Hu
              (niapy.set_monkey_king false p)
              (count_of (c self * Qnat (population_size self))) eq_refl
              (niapy.x (niapy.set_monkey_king false p))
              (niapy.f (niapy.set_monkey_king false p)) s)
    as (picks & s' & _ & _ & Hrun & _).
  unfold bind. rewrite Hrun.
  destruct (fold_left _ _ _) as [r_b r_f] eqn:Efold.
  eexists _, _. split; [reflexivity |].
  split; [| exact Hpb]. cbn.
  eapply v2_trials_length; [exact Hrun | exact Hx].
Qed.

Lemma v1_move_population_returns (pop : list niapy.MkeSolution) (xb : vec)
    (s : niapy.State G) :
  Forall shaped pop -> length xb = dimension task ->
  (0 < count_of (c self * Qnat (dimension task)))%nat ->
  exists pop' s',
    niapy.V1.move_population self pop xb task s = Some (pop', s') /\
    length pop' = length pop /\ Forall shaped pop'.
Proof.
  intros Hall Hxb Hn. unfold niapy.V1.move_population.
  apply (for_each_particle_returns _ (length pop)); [| reflexivity | exact Hall].
  intros pop0 p s0 _ _ Hsp. unfold bind.
  destruct (niapy.monkey_king p).
  - destruct (v1_move_monkey_king_particle_returns p s0 Hsp Hn)
      as (p' & s1 & -> & Hsp').
    eexists _, _. split; [reflexivity | apply update_personal_best_shaped, Hsp'].
  - destruct (v1_move_particle_returns p xb s0 Hsp Hxb) as (p' & s1 & -> & Hsp').
    eexists _, _. split; [reflexivity | apply update_personal_best_shaped, Hsp'].
Qed.

Lemma v2_move_population_returns (pop : list niapy.MkeSolution) (xb : vec)
    (s : niapy.State G) :
  Forall shaped pop -> length xb = dimension task ->
  length pop = population_size self -> (2 <= population_size self)%nat ->
  exists pop' s',
    niapy.V2.move_population self pop xb task s = Some (pop', s') /\
    length pop' = length pop /\ Forall shaped pop'.
Proof.
  intros Hall Hxb Hlen Hnp. unfold niapy.V2.move_population.
  rewrite Hlen.
  apply (for_each_particle_returns _ (population_size self));
    [| exact Hlen | exact Hall].
  intros pop0 p s0 Hlen0 Hall0 Hsp. unfold bind.
  destruct (niapy.monkey_king p).
  - destruct (v2_move_monkey_king_particle_returns pop0 p s0 Hlen0 Hnp Hall0 Hsp)
      as (p' & s1 & -> & Hsp').
    eexists _, _. split; [reflexivity | apply update_personal_best_shaped, Hsp'].
  - destruct (v1_move_particle_returns p xb s0 Hsp Hxb) as (p' & s1 & -> & Hsp').
    eexists _, _. split; [reflexivity | apply update_personal_best_shaped, Hsp'].
Qed.

Lemma get_best_returns (pop : list niapy.MkeSolution) (best_x : vec)
    (best_fitness : fitness) (s : niapy.State G) :
  pop <> [] -> Forall shaped pop -> length best_x = dimension task ->
  exists bx bf,
    niapy.get_best (map niapy.x pop) (map niapy.f pop) best_x best_fitness s
      = Some (bx, bf, s) /\
    length bx = dimension task.
Proof.
  intros Hne Hall Hbx. unfold niapy.get_best.
  destruct (argmin_spec (map niapy.f pop)) as (ib & m & Hib & Hm & _).
  { intros E. apply (f_equal length) in E. rewrite length_map in E.
    destruct pop; [contradiction | discriminate]. }
  rewrite Hib. rewrite list_lookup_fmap in Hm. rewrite !list_lookup_fmap.
  destruct (pop !! ib) as [q|] eqn:Hq; [| discriminate].
  cbn in Hm. injection Hm as <-. cbn -[ltf].
  destruct (proj1 (Forall_lookup _ _) Hall ib q Hq) as [Hqx _].
  destruct (ltf (niapy.f q) best_fitness); eexists _, _; (split; [reflexivity | assumption]).
Qed.

(** After a move of the population that returned, the rest of the
    iteration returns: the resample flags [k] individuals and the best is
    taken. *)
Lemma resample_returns (moved : list niapy.MkeSolution) (best_x : vec)
    (best_fitness : fitness) (s1 : niapy.State G) (kz : Z) :
  length moved = population_size self -> (0 < population_size self)%nat ->
  Forall shaped moved ->
  Forall (fun p => niapy.monkey_king p = false) moved ->
  int_of_product (population_rate self) (population_size self) = Some kz ->
  (0 <= kz)%Z -> (Z.to_nat kz <= population_size self)%nat ->
  length best_x = dimension task ->
  exists population' best_x' best_fitness' s',
    (do population <- niapy.V1.flag_sample self moved;
     do (bx, bf) <- niapy.get_best (map niapy.x population) (map niapy.f population)
                      best_x best_fitness;
     ret (population, map niapy.f population, bx, bf)) s1
      = Some (population', map niapy.f population', best_x', best_fitness', s') /\
    length population' = population_size self /\
    count_monkey_kings population' = Z.to_nat kz /\
    Forall shaped population' /\ length best_x' = dimension task.
Proof.
  intros Hlen Hnp Hall Hflags Hkz Hnn Hk Hbx.
  destruct (flag_sample_spec self moved s1 kz Hlen Hflags Hkz Hnn Hk)
    as (_ & _ & pop2 & Hrun & Hl2 & Hlook & Hc).
  assert (Hall2 : Forall shaped pop2).
  { apply Forall_lookup. intros j q Hq. rewrite Hlook in Hq.
    destruct (moved !! j) as [p|] eqn:Hp; [| discriminate].
    pose proof (proj1 (Forall_lookup _ _) Hall j p Hp) as Hsp.
    cbn in Hq. injection Hq as <-. destruct (bool_decide _); exact Hsp. }
  destruct (get_best_returns pop2 best_x best_fitness
              {| niapy.rng := (choice (population_size self) (Z.to_nat kz) false
                                 (niapy.rng s1)).2;
                 niapy.evals := niapy.evals s1 |}) as (bx & bf & Hbest & Hlbx);
    [| exact Hall2 | exact Hbx |].
  { intros E. rewrite E in Hl2. cbn in Hl2. lia. }
  exists pop2, bx, bf. eexists. unfold bind. rewrite Hrun, Hbest.
  split; [reflexivity |]. split; [congruence |].
  split; [exact Hc |]. split; assumption.
Qed.

Lemma v1_run_iteration_returns (population : list niapy.MkeSolution)
    (population_fitness : list fitness) (best_x : vec) (best_fitness : fitness)
    (s : niapy.State G) (kz : Z) :
  length population = population_size self -> (0 < population_size self)%nat ->
  Forall shaped population -> length best_x = dimension task ->
  int_of_product (population_rate self) (population_size self) = Some kz ->
  (0 <= kz)%Z -> (Z.to_nat kz <= population_size self)%nat ->
  (0 < count_of (c self * Qnat (dimension task)))%nat ->
  exists population' population_fitness' best_x' best_fitness' s',
    niapy.V1.run_iteration self task population population_fitness best_x
      best_fitness s
      = Some (population', population_fitness', best_x', best_fitness', s') /\
    length population' = population_size self /\
    count_monkey_kings population' = Z.to_nat kz /\
    Forall shaped population' /\ length best_x' = dimension task.
Proof.
  intros Hlen Hnp Hall Hbx Hkz Hnn Hk Hc.
  destruct (v1_move_population_returns population best_x s Hall Hbx Hc)
    as (moved & s1 & Hmove & Hl1 & Hall1).
  destruct (move_population_flags self task best_x population moved s s1
              (or_introl Hmove)) as [_ Hflags].
  destruct (resample_returns moved best_x best_fitness s1 kz)
    as (population' & bx & bf & s' & Hrest & Hres); try assumption; [congruence |].
  exists population', (map niapy.f population'), bx, bf, s'.
  split; [| exact Hres].
  unfold niapy.V1.run_iteration, niapy.V1.run_iteration_with.
  unfold bind at 1. rewrite Hmove. exact Hrest.
Qed.

Lemma v2_run_iteration_returns (population : list niapy.MkeSolution)
    (population_fitness : list fitness) (best_x : vec) (best_fitness : fitness)
    (s : niapy.State G) (kz : Z) :
  length population = population_size self -> (2 <= population_size self)%nat ->
  Forall shaped population -> length best_x = dimension task ->
  int_of_product (population_rate self) (population_size self) = Some kz ->
  (0 <= kz)%Z -> (Z.to_nat kz <= population_size self)%nat ->
  exists population' population_fitness' best_x' best_fitness' s',
    niapy.V2.run_iteration self task population population_fitness best_x
      best_fitness s
      = Some (population', population_fitness', best_x', best_fitness', s') /\
    length population' = population_size self /\
    count_monkey_kings population' = Z.to_nat kz /\
    Forall shaped population' /\ length best_x' = dimension task.
Proof.
  intros Hlen Hnp Hall Hbx Hkz Hnn Hk.
  destruct (v2_move_population_returns population best_x s Hall Hbx Hlen Hnp)
    as (moved & s1 & Hmove & Hl1 & Hall1).
  destruct (move_population_flags self task best_x population moved s s1
              (or_intror Hmove)) as [_ Hflags].
  destruct (resample_returns moved best_x best_fitness s1 kz)
    as (population' & bx & bf & s' & Hrest & Hres); try assumption;
    [congruence | lia |].
  exists population', (map niapy.f population'), bx, bf, s'.
  split; [| exact Hres].
  unfold niapy.V2.run_iteration, niapy.V1.run_iteration_with.
  unfold bind at 1. rewrite Hmove. exact Hrest.
Qed.

End Returns.

(** C7: the Monkey King flags of v1 and v2.  The count is
    [k = int(population_rate * population_size)], the truncated binary64
    product: for a non-negative rate it is the floor of that float, and
    for a rate in [[0, 1]] it is within one of the floor of the exact
    product (the rounding of the product can move it across an integer).
    On a population without flags, the resample step flags exactly the
    indices that [choice(population_size, k, replace=False)] returns, a
    duplicate-free list of length [k] that is computed from the population
    size, the rate and the generator state alone, never from a fitness; so
    [k] individuals are flagged.  [init_population] returns, and ends with
    such a step on fresh individuals.  One iteration of v1 (with at least
    one matrix row, [0 < int(c * D)]) and of v2 (with at least two
    individuals) returns on every population of [population_size]
    individuals of the task's dimension: it runs the resample after
    [move_population], which leaves no flag set, so the population it
    returns has [k] flagged individuals.  The same holds of every call
    that returns. *)
Theorem monkey_king_count {G : Type} `{Generator G} (self : Params) (task : Task)
    (k : Z) :
  let np := population_size self in
  let shaped := fun p : niapy.MkeSolution =>
    length (niapy.x p) = dimension task /\ length (niapy.x_pb p) = dimension task in
  int_of_product (population_rate self) np = Some k ->
  (0 <= k <= Z.of_nat np)%Z ->
  (0 <= population_rate self ->
   exists v, float_mul_int (population_rate self) np = Some v /\ 0 <= v /\
             k = Qfloor v) /\
  (0 <= population_rate self <= 1 -> (Z.of_nat np <= 2 ^ 50)%Z ->
   (Qfloor (population_rate self * Qnat np) - 1 <= k
      <= Qfloor (population_rate self * Qnat np) + 1)%Z) /\
  (forall (pop : list niapy.MkeSolution) (s : niapy.State G),
     length pop = np -> Forall (fun p => niapy.monkey_king p = false) pop ->
     let drawn := choice np (Z.to_nat k) false (niapy.rng s) in
     NoDup drawn.1 /\ length drawn.1 = Z.to_nat k /\
     exists pop',
       niapy.V1.flag_sample self pop s =
         Some (pop', {| niapy.rng := drawn.2; niapy.evals := niapy.evals s |}) /\
       length pop' = length pop /\
       (forall j, pop' !! j =
          (fun p => if bool_decide (j ∈ drawn.1)
                    then niapy.set_monkey_king true p else p) <$> pop !! j) /\
       count_monkey_kings pop' = Z.to_nat k) /\
  (length (lower task) = dimension task -> length (upper task) = dimension task ->
   (forall s : niapy.State G,
      exists pop fpop s',
        niapy.V1.init_population self task s = Some (pop, fpop, s') /\
        length pop = np /\ count_monkey_kings pop = Z.to_nat k) /\
   (forall population population_fitness best_x best_fitness (s : niapy.State G),
      length population = np -> Forall shaped population ->
      length best_x = dimension task ->
      ((0 < np)%nat -> (0 < count_of (c self * Qnat (dimension task)))%nat ->
       exists population' population_fitness' best_x' best_fitness' s',
         niapy.V1.run_iteration self task population population_fitness best_x
           best_fitness s =
           Some (population', population_fitness', best_x', best_fitness', s') /\
         length population' = np /\
         count_monkey_kings population' = Z.to_nat k /\
         Forall shaped population' /\ length best_x' = dimension task) /\
      ((2 <= np)%nat ->
       exists population' population_fitness' best_x' best_fitness' s',
         niapy.V2.run_iteration self task population population_fitness best_x
           best_fitness s =
           Some (population', population_fitness', best_x', best_fitness', s') /\
         length population' = np /\
         count_monkey_kings population' = Z.to_nat k /\
         Forall shaped population' /\ length best_x' = dimension task))) /\
  (forall (s s' : niapy.State G) pop fpop,
     niapy.V1.init_population self task s = Some (pop, fpop, s') ->
     length pop = np /\ count_monkey_kings pop = Z.to_nat k) /\
  (forall population population_fitness best_x best_fitness
          (s s' : niapy.State G) population' population_fitness' best_x' best_fitness',
     length population = np ->
     niapy.V1.run_iteration self task population population_fitness best_x
       best_fitness s =
       Some (population', population_fitness', best_x', best_fitness', s') \/
     niapy.V2.run_iteration self task population population_fitness best_x
       best_fitness s =
       Some (population', population_fitness', best_x', best_fitness', s') ->
     length population' = np /\ count_monkey_kings population' = Z.to_nat k).
Proof.
  intros np shaped Hk [Hk0 Hknp].
  assert (Hkn : (Z.to_nat k <= np)%nat) by lia.
  assert (Hstep : forall (pop pop' : list niapy.MkeSolution) (s s' : niapy.State G),
             length pop = np -> Forall (fun p => niapy.monkey_king p = false) pop ->
             niapy.V1.flag_sample self pop s = Some (pop', s') ->
             length pop' = np /\ count_monkey_kings pop' = Z.to_nat k).
  { intros pop pop' s s' Hlen Hflags Hrun.
    destruct (flag_sample_spec self pop s k Hlen Hflags Hk Hk0 Hkn)
      as (_ & _ & pop'' & Hrun' & Hl & _ & Hc).
    rewrite Hrun in Hrun'. injection Hrun' as -> _.
    split; [congruence | exact Hc]. }
  split; [| split; [| split; [| split; [| split]]]].
  - intros Hrate. unfold int_of_product in Hk.
    destruct (float_mul_int (population_rate self) np) as [v|] eqn:Hv;
      [| discriminate].
    cbn in Hk. injection Hk as <-.
    assert (Hv0 : 0 <= v).
    { unfold float_mul_int in Hv.
      destruct (binary64 (population_rate self)) as [a|] eqn:Ha; [| discriminate].
      destruct (binary64 (Qnat np)) as [n|] eqn:Hn; [| discriminate].
      apply binary64_inv in Ha, Hn, Hv. subst v.
      apply binary64_round_nonneg, Qmult_le_0_compat; subst;
        apply binary64_round_nonneg; [exact Hrate | apply Qnat_nonneg]. }
    exists v. split; [reflexivity |]. split; [exact Hv0 |].
    apply py_int_floor, Hv0.
  - intros Hrate Hnp.
    destruct (int_of_product_floor (population_rate self) np Hrate Hnp)
      as (v & k' & _ & Hk' & _ & Hb).
    fold np in Hk'. rewrite Hk in Hk'. injection Hk' as <-. exact Hb.
  - intros pop s Hlen Hflags. apply flag_sample_spec; assumption.
  - intros Hl Hu. split.
    + intros s. apply init_population_returns; assumption.
    + intros population population_fitness best_x best_fitness s Hlen Hall Hbx.
      split.
      * intros Hnp Hc.
        apply (v1_run_iteration_returns self task Hl Hu) with (kz := k);
          assumption.
      * intros Hnp.
        apply (v2_run_iteration_returns self task Hl Hu) with (kz := k);
          assumption.
  - intros s s' pop fpop Hrun. unfold niapy.V1.init_population in Hrun.
    inv_bind Hrun. destruct a as [pop0 fpop0]. inv_bind Hrun.
    injection Hrun as <- <- <-.
    unfold niapy.V1.Algorithm_init_population in E. inv_bind E.
    injection E as <- <- <-.
    apply (traverse_Forall _ (fun p => niapy.monkey_king p = false)) in E1
      as [Hflags Hlen].
    + rewrite length_seq in Hlen. eapply Hstep; eauto.
    + intros _ st b st' Hb. eapply MkeSolution_init_flag; eauto.
  - intros population population_fitness best_x best_fitness s s'
      population' population_fitness' best_x' best_fitness' Hlen Hrun.
    assert (Hmove : exists moved s1 s2,
      (niapy.V1.move_population self population best_x task s = Some (moved, s1) \/
       niapy.V2.move_population self population best_x task s = Some (moved, s1)) /\
      niapy.V1.flag_sample self moved s1 = Some (population', s2)).
    { destruct Hrun as [Hrun | Hrun];
        unfold niapy.V1.run_iteration, niapy.V2.run_iteration,
          niapy.V1.run_iteration_with in Hrun;
        inv_bind Hrun; inv_bind Hrun; inv_bind Hrun;
        destruct a1 as [bx bf]; injection Hrun as <- _ _ _ _;
        eexists _, _, _; eauto. }
    destruct Hmove as (moved & s1 & s2 & Hmoved & Hflag).
    apply move_population_flags in Hmoved as [Hl Hflags].
    eapply Hstep; [| exact Hflags | exact Hflag]. congruence.
Qed.

Lemma monkey_king_count_witness :
  exists population' population_fitness' best_x' best_fitness' s',
    niapy.V1.run_iteration two_monkeys (sphere1 20)
      [{| niapy.x := [2]; niapy.f := Fin 4; niapy.x_pb := [2]; niapy.f_pb := Fin 4;
          niapy.monkey_king := true |};
       {| niapy.x := [4]; niapy.f := Fin 16; niapy.x_pb := [4]; niapy.f_pb := Fin 16;
          niapy.monkey_king := false |}]
      [Fin 4; Fin 16] [2] (Fin 4) fresh =
      Some (population', population_fitness', best_x', best_fitness', s') /\
    length population' = 2%nat /\ count_monkey_kings population' = 1%nat.
Proof.
  destruct (monkey_king_count two_monkeys (sphere1 20) 1) as (_ & _ & _ & Hret & _).
  - reflexivity.
  - cbn. lia.
  - destruct (Hret eq_refl eq_refl) as [_ Hiter].
    destruct (Hiter
      [{| niapy.x := [2]; niapy.f := Fin 4; niapy.x_pb := [2]; niapy.f_pb := Fin 4;
          niapy.monkey_king := true |};
       {| niapy.x := [4]; niapy.f := Fin 16; niapy.x_pb := [4]; niapy.f_pb := Fin 16;
          niapy.monkey_king := false |}]
      [Fin 4; Fin 16] [2] (Fin 4) fresh eq_refl) as [Hv1 _].
    + repeat constructor.
    + reflexivity.
    + destruct Hv1 as (population' & population_fitness' & best_x' & best_fitness'
                       & s' & Hrun & Hlen & Hc & _).
      * cbn. lia.
      * vm_compute. lia.
      * exists population', population_fitness', best_x', best_fitness', s'.
        split; [exact Hrun |]. split; [exact Hlen | exact Hc].
Defined.

(** * Further properties of version 3 of the current package *)

(** ** The mask of version 3 *)

Lemma length_tril (blk : mat) : length (niapy.tril blk) = length blk.
Proof. unfold niapy.tril. apply length_imap. Qed.

Lemma tril_block_parts (d i : nat) (m : mat) :
  m = take (i * d) m ++ take d (drop (i * d) m) ++ drop ((i + 1) * d) m.
Proof.
  replace ((i + 1) * d)%nat with (i * d + d)%nat by lia.
  rewrite <- drop_drop, !take_drop. reflexivity.
Qed.

Lemma length_tril_block (d i : nat) (m : mat) :
  length (niapy.tril_block d i m) = length m.
Proof.
  rewrite (tril_block_parts d i m) at 2. unfold niapy.tril_block.
  rewrite !length_app, length_tril. reflexivity.
Qed.

Lemma tril_block_lookup (d i : nat) (m : mat) (r : nat) :
  niapy.tril_block d i m !! r =
    (fun row => if decide (i * d <= r < i * d + d)%nat
                then imap (fun b v => if (b <=? r - i * d)%nat then v else 0) row
                else row) <$> m !! r.
Proof.
  rewrite (tril_block_parts d i m) at 2. unfold niapy.tril_block.
  set (A := take (i * d) m). set (B := take d (drop (i * d) m)).
  set (C := drop ((i + 1) * d) m).
  assert (HA : (length A <= i * d)%nat) by (unfold A; rewrite length_take; lia).
  assert (HB : (length B <= d)%nat) by (unfold B; rewrite length_take; lia).
  assert (HAB : B <> [] -> length A = (i * d)%nat).
  { intros HBne. unfold A. rewrite length_take.
    destruct (Nat.le_gt_cases (length m) (i * d)) as [Hshort | Hlong]; [| lia].
    exfalso. apply HBne. unfold B. rewrite drop_ge by lia. apply take_nil. }
  assert (HC : C <> [] -> length A = (i * d)%nat /\ length B = d).
  { intros HCne.
    assert ((i + 1) * d < length m)%nat.
    { destruct (Nat.le_gt_cases (length m) ((i + 1) * d)) as [Hs | Hlg]; [| lia].
      exfalso. apply HCne. unfold C. apply drop_ge. lia. }
    unfold A, B. rewrite !length_take, length_drop. lia. }
  destruct (Nat.lt_ge_cases r (length A)) as [HrA | HrA].
  - rewrite !lookup_app_l by assumption.
    destruct (A !! r); [| reflexivity]. cbn.
    destruct (decide _) as [Hc | _]; [lia | reflexivity].
  - rewrite (lookup_app_r A (niapy.tril B ++ C)), (lookup_app_r A (B ++ C))
      by assumption.
    destruct (Nat.lt_ge_cases (r - length A) (length B)) as [HrB | HrB].
    + rewrite (lookup_app_l (niapy.tril B) C), (lookup_app_l B C)
        by (rewrite ?length_tril; assumption).
      assert (length A = (i * d)%nat) as HlA
        by (apply HAB; intros E; rewrite E in HrB; cbn in HrB; lia).
      unfold niapy.tril. rewrite list_lookup_imap.
      destruct (B !! (r - length A)%nat); [| reflexivity]. cbn.
      destruct (decide _) as [_ | Hc]; [| lia]. rewrite HlA. reflexivity.
    + rewrite (lookup_app_r (niapy.tril B) C), (lookup_app_r B C)
        by (rewrite ?length_tril; assumption).
      rewrite length_tril.
      destruct (C !! (r - length A - length B)%nat) eqn:HCr; [| reflexivity]. cbn.
      destruct (HC ltac:(intros E; rewrite E in HCr; discriminate)) as [HlA HlB].
      destruct (decide _) as [Hc | _]; [lia | reflexivity].
Qed.

Lemma mask_S (np d k : nat) :
  niapy.mask np d (S k) = niapy.tril_block d k (niapy.mask np d k).
Proof.
  unfold niapy.mask. rewrite seq_S, fold_left_app. reflexivity.
Qed.

Lemma length_mask (np d k : nat) : length (niapy.mask np d k) = np.
Proof.
  induction k as [|k IH].
  - unfold niapy.mask. cbn. apply length_replicate.
  - rewrite mask_S, length_tril_block. exact IH.
Qed.

Lemma mask_lookup (np d k r : nat) :
  (0 < d)%nat -> (r < np)%nat ->
  niapy.mask np d k !! r =
    Some (if decide (r < k * d)%nat
          then imap (fun b v => if (b <=? r mod d)%nat then v else 0) (replicate d 1)
          else replicate d 1).
Proof.
  intros Hd Hr. induction k as [|k IH].
  - unfold niapy.mask. cbn [seq fold_left].
    rewrite lookup_replicate_2 by assumption.
    destruct (decide _) as [Hc | _]; [lia | reflexivity].
  - rewrite mask_S, tril_block_lookup, IH. cbn.
    destruct (decide (k * d <= r < k * d + d)%nat) as [Hin | Hout].
    + destruct (decide (r < k * d)%nat) as [Hc | _]; [lia |].
      destruct (decide (r < d + k * d)%nat) as [_ | Hc]; [| lia].
      replace (r mod d)%nat with (r - k * d)%nat; [reflexivity |].
      apply (Nat.mod_unique r d k); lia.
    + destruct (decide (r < k * d)%nat) as [Hlt | Hge].
      * destruct (decide (r < d + k * d)%nat) as [_ | Hc]; [reflexivity | lia].
      * destruct (decide (r < d + k * d)%nat) as [Hc | _]; [lia | reflexivity].
Qed.

(** The mask of v3 before the shuffle.  It has [population_size] rows;
    when the [k] blocks of [dimension] rows cover the population, row [r]
    has length [dimension] and holds 1.0 in its first [r mod dimension + 1]
    places and 0.0 in the others: a lower triangle in every block. *)
Theorem mask_rows (np d k r : nat) :
  (0 < d)%nat -> (np <= k * d)%nat -> (r < np)%nat ->
  length (niapy.mask np d k) = np /\
  exists row, niapy.mask np d k !! r = Some row /\ length row = d /\
    forall b, (b < d)%nat ->
      row !! b = Some (if (b <=? r mod d)%nat then 1 else 0).
Proof.
  intros Hd Hk Hr. split; [apply length_mask |].
  rewrite (mask_lookup np d k r Hd Hr).
  destruct (decide (r < k * d)%nat) as [_ | Hc]; [| lia].
  eexists. split; [reflexivity |]. split.
  - rewrite length_imap. apply length_replicate.
  - intros b Hb. rewrite list_lookup_imap, lookup_replicate_2 by assumption.
    reflexivity.
Qed.

Lemma mask_rows_witness :
  niapy.mask 5 3 2 !! 4%nat = Some [1; 1; 0].
Proof.
  destruct (mask_rows 5 3 2 4) as (_ & row & Hrow & Hlen & Hent); [lia | lia | lia |].
  rewrite Hrow. f_equal.
  destruct row as [|a [|b [|c' [|? ?]]]]; try discriminate.
  pose proof (Hent 0%nat ltac:(lia)) as H0. pose proof (Hent 1%nat ltac:(lia)) as H1.
  pose proof (Hent 2%nat ltac:(lia)) as H2.
  cbn in H0, H1, H2. congruence.
Defined.

(** ** Shuffled mask and recombination *)

Lemma tril_row_replicate (d a : nat) :
  (a < d)%nat ->
  imap (fun b v => if (b <=? a)%nat then v else 0) (replicate d 1) =
  replicate (a + 1) 1 ++ replicate (d - (a + 1)) 0.
Proof.
  intros Ha. apply list_eq. intros b. rewrite list_lookup_imap.
  destruct (Nat.lt_ge_cases b d) as [Hb | Hb].
  - rewrite lookup_replicate_2 by assumption. cbn.
    destruct (Nat.leb_spec b a) as [Hle | Hgt].
    + rewrite lookup_app_l by (rewrite length_replicate; lia).
      rewrite lookup_replicate_2 by lia. reflexivity.
    + rewrite lookup_app_r by (rewrite length_replicate; lia).
      rewrite length_replicate, lookup_replicate_2 by lia. reflexivity.
  - rewrite (lookup_ge_None_2 (replicate d 1)) by (rewrite length_replicate; lia).
    rewrite lookup_ge_None_2; [reflexivity |].
    rewrite length_app, !length_replicate. lia.
Qed.

Section Shuffle.
Context {G : Type} `{Generator G}.

Lemma traverse_shuffle (m m' : mat) (s s' : niapy.State G) :
  traverse (fun row => niapy.draw (shuffle row)) m s = Some (m', s') ->
  Forall2 Permutation m m' /\ niapy.evals s' = niapy.evals s.
Proof.
  revert s m'. induction m as [|row m IH]; intros s m' Erun.
  - injection Erun as <- <-. split; [constructor | reflexivity].
  - cbn [traverse] in Erun. inv_bind_as Erun r sr Er. inv_bind_as Erun rs srs Ers.
    injection Erun as <- <-.
    apply draw_Some in Er as (-> & _ & Hev).
    apply IH in Ers as (Hall & Hev').
    split; [constructor; [apply shuffle_permutes | exact Hall] | congruence].
Qed.

End Shuffle.

Lemma recombine_lookup (m pop : mat) (best : vec) (r : nat) (mr row : vec) :
  m !! r = Some mr -> pop !! r = Some row ->
  niapy.recombine m pop best !! r =
    Some (vadd (vmul mr row) (vmul (map niapy.neg mr) best)).
Proof.
  intros Hm Hp. unfold niapy.recombine. rewrite lookup_zip_with, Hm, Hp. reflexivity.
Qed.

Lemma recombine_component (mr row best : vec) (b : nat) (mv v w : Q) :
  mr !! b = Some mv -> row !! b = Some v -> best !! b = Some w ->
  vadd (vmul mr row) (vmul (map niapy.neg mr) best) !! b =
    Some (mv * v + niapy.neg mv * w).
Proof.
  intros Hm Hv Hw. unfold vadd, vmul.
  rewrite !lookup_zip_with, list_lookup_fmap, Hm, Hv, Hw. reflexivity.
Qed.

(** Steps 3 and 4 of the iteration of v3: the rows of the mask are
    shuffled, then the population is recombined with the best position.
    The shuffle uses no evaluation; row [r] of the shuffled mask is a
    rearrangement of [r mod dimension + 1] ones and zeros for the rest,
    and every component of row [r] of the result is the population's
    where the mask holds 1.0 and the best position's where it holds 0.0. *)
Theorem v3_recombine_selects {G : Type} `{Generator G} (np d k : nat) (pop : mat)
    (best : vec) (m' : mat) (s s' : niapy.State G) :
  (0 < d)%nat -> (np <= k * d)%nat ->
  length pop = np -> Forall (fun row => length row = d) pop -> length best = d ->
  traverse (fun row => niapy.draw (shuffle row)) (niapy.mask np d k) s = Some (m', s') ->
  niapy.evals s' = niapy.evals s /\
  length (niapy.recombine m' pop best) = np /\
  forall r row, pop !! r = Some row ->
    exists mr out,
      m' !! r = Some mr /\ niapy.recombine m' pop best !! r = Some out /\
      Permutation (replicate (r mod d + 1) 1 ++ replicate (d - (r mod d + 1)) 0) mr /\
      length out = d /\
      forall b v w, row !! b = Some v -> best !! b = Some w ->
        exists mv y, mr !! b = Some mv /\ out !! b = Some y /\
          (mv = 1 /\ y == v \/ mv = 0 /\ y == w).
Proof.
  intros Hd Hk Hlen Hrows Hbest Erun.
  apply traverse_shuffle in Erun as (Hperm & Hev).
  pose proof (Forall2_length _ _ _ Hperm) as Hlm. rewrite length_mask in Hlm.
  split; [exact Hev |]. split.
  { unfold niapy.recombine. rewrite length_zip_with. lia. }
  intros r row Hrow.
  assert (Hr : (r < np)%nat) by (rewrite <- Hlen; eapply lookup_lt_Some; eauto).
  destruct (lookup_lt_is_Some_2 m' r ltac:(lia)) as [mr Hmr].
  exists mr, (vadd (vmul mr row) (vmul (map niapy.neg mr) best)).
  split; [exact Hmr |]. split; [apply recombine_lookup; assumption |].
  assert (Hmp : Permutation
            (replicate (r mod d + 1) 1 ++ replicate (d - (r mod d + 1)) 0) mr).
  { pose proof (mask_lookup np d k r Hd Hr) as Hmask.
    destruct (decide (r < k * d)%nat) as [_ | Hc]; [| lia].
    rewrite tril_row_replicate in Hmask by (apply Nat.mod_upper_bound; lia).
    eapply Forall2_lookup_lr in Hperm; eauto. }
  assert (Hlrow : length row = d).
  { rewrite Forall_forall in Hrows. apply Hrows. eapply list_elem_of_lookup_2; eauto. }
  assert (Hlmr : length mr = d).
  { rewrite <- (Permutation_length Hmp), length_app, !length_replicate.
    pose proof (Nat.mod_upper_bound r d). lia. }
  split; [exact Hmp |]. split.
  { unfold vadd, vmul. rewrite !length_zip_with, length_map. lia. }
  intros b v w Hv Hw.
  assert (Hb : (b < d)%nat) by (rewrite <- Hlrow; eapply lookup_lt_Some; eauto).
  destruct (lookup_lt_is_Some_2 mr b ltac:(lia)) as [mv Hmv].
  exists mv, (mv * v + niapy.neg mv * w).
  split; [exact Hmv |]. split; [apply recombine_component; assumption |].
  assert (Hin : mv ∈ mr) by (eapply list_elem_of_lookup_2; eauto).
  rewrite <- Hmp in Hin. apply elem_of_app in Hin as [Hin | Hin];
    apply elem_of_replicate in Hin as [-> _].
  - left. split; [reflexivity |]. change (niapy.neg 1) with 0. ring.
  - right. split; [reflexivity |]. change (niapy.neg 0) with 1. ring.
Qed.

Lemma v3_recombine_selects_witness :
  exists m' s',
    traverse (fun row => niapy.draw (shuffle row)) (niapy.mask 2 2 1) fresh
      = Some (m', s') /\
    niapy.evals s' = niapy.evals fresh /\
    length (niapy.recombine m' [[3; 4]; [5; 6]] [7; 8]) = 2%nat.
Proof.
  destruct (traverse (fun row => niapy.draw (shuffle row)) (niapy.mask 2 2 1) fresh)
    as [[m' s']|] eqn:E; [| vm_compute in E; discriminate].
  exists m', s'. split; [reflexivity |].
  destruct (v3_recombine_selects 2 2 1 [[3; 4]; [5; 6]] [7; 8] m' fresh s')
    as (Hev & Hlen & _);
    [lia | lia | reflexivity | repeat constructor | reflexivity | exact E |].
  split; assumption.
Defined.

(** ** The constants of version 3 *)

Lemma Qnat_pos (n : nat) : (0 < n)%nat -> 0 < Qnat n.
Proof.
  intros Hn. unfold Qnat. change 0 with (inject_Z 0). rewrite <- Zlt_Qlt. lia.
Qed.

Lemma py_ceil_div_bounds (n d : nat) :
  (0 < d)%nat ->
  (Z.of_nat n <= py_ceil (Qnat n / Qnat d) * Z.of_nat d)%Z /\
  ((py_ceil (Qnat n / Qnat d) - 1) * Z.of_nat d < Z.of_nat n)%Z.
Proof.
  intros Hd. unfold py_ceil. set (q := Qnat n / Qnat d).
  pose proof (Qnat_pos d Hd) as Hpos.
  assert (Hq : q * Qnat d == Qnat n).
  { unfold q. field. intros E. rewrite E in Hpos. discriminate. }
  split.
  - rewrite Zle_Qle, inject_Z_mult. fold (Qnat n). fold (Qnat d).
    rewrite <- Hq. apply Qmult_le_compat_r; [apply Qle_ceiling | apply Qlt_le_weak, Hpos].
  - rewrite Zlt_Qlt, inject_Z_mult. fold (Qnat n). fold (Qnat d).
    rewrite <- Hq. apply Qmult_lt_compat_r; [exact Hpos | apply Qceiling_lt].
Qed.

(** [init_population] of v3 raises on a task of dimension zero.  When it
    returns, the constant [k] is the least number of blocks of [dimension]
    rows that cover the population, so the triangular pattern reaches
    every row of the mask, and [c] is the ceiling of the float product
    [c * dimension]: the least integer that is not below that float,
    which for a [c] in [[0, 1000]] is the ceiling of the exact product or
    next to it. *)
Theorem v3_init_population_constants {G : Type} `{Generator G} (self : Params)
    (task : Task) (s s' : niapy.State G) (population : mat) (fpop : list fitness)
    (params : niapy.Extra) :
  niapy.V3.init_population self task s = Some (population, fpop, params, s') ->
  (0 < dimension task)%nat /\
  (population_size self <= Z.to_nat (niapy.extra_k params) * dimension task)%nat /\
  ((niapy.extra_k params - 1) * Z.of_nat (dimension task)
     < Z.of_nat (population_size self))%Z /\
  exists cf,
    float_mul_int (c self) (dimension task) = Some cf /\
    cf <= inject_Z (niapy.extra_c params) /\
    inject_Z (niapy.extra_c params - 1) < cf /\
    (0 <= c self <= 1000 -> (Z.of_nat (dimension task) <= 2 ^ 40)%Z ->
     (Qceiling (c self * Qnat (dimension task)) - 1 <= niapy.extra_c params
      <= Qceiling (c self * Qnat (dimension task)) + 1)%Z).
Proof.
  unfold niapy.V3.init_population. intros Erun.
  inv_bind_as Erun r sr Er. destruct r as [pop0 f0].
  destruct (Nat.eqb_spec (dimension task) 0) as [| Hd]; [discriminate |].
  destruct (ceil_of_product (c self) (dimension task)) as [c_|] eqn:Ec;
    [| discriminate].
  unfold ret in Erun. injection Erun as <- <- <- <-.
  cbn [niapy.extra_k niapy.extra_c].
  assert (Hd' : (0 < dimension task)%nat) by lia.
  destruct (py_ceil_div_bounds (population_size self) (dimension task) Hd')
    as [Hup Hlow].
  split; [exact Hd' |]. split; [| split; [exact Hlow |]].
  - set (k := py_ceil _) in *.
    assert (0 <= k)%Z by nia.
    apply Nat2Z.inj_le. rewrite Nat2Z.inj_mul, Z2Nat.id by assumption. exact Hup.
  - unfold ceil_of_product in Ec.
    destruct (float_mul_int (c self) (dimension task)) as [cf|] eqn:Ecf;
      [| discriminate].
    injection Ec as <-. exists cf. split; [reflexivity |].
    split; [apply Qle_ceiling |]. split; [apply Qceiling_lt |].
    intros Hc Hdim.
    destruct (ceil_of_product_ceiling _ _ Hc Hdim) as (v & k & Hv & _ & -> & Hcl).
    rewrite Ecf in Hv. injection Hv as <-. exact Hcl.
Qed.

Lemma v3_init_population_constants_witness :
  exists population fpop params s',
    niapy.V3.init_population two_monkeys (sphere1 6) fresh
      = Some (population, fpop, params, s') /\
    (0 < dimension (sphere1 6))%nat /\
    (population_size two_monkeys
       <= Z.to_nat (niapy.extra_k params) * dimension (sphere1 6))%nat.
Proof.
  destruct (niapy.V3.init_population two_monkeys (sphere1 6) fresh)
    as [[[[population fpop] params] s']|] eqn:E; [| vm_compute in E; discriminate].
  exists population, fpop, params, s'. split; [reflexivity |].
  destruct (v3_init_population_constants two_monkeys (sphere1 6) fresh s'
              population fpop params E) as (Hd & Hk & _).
  split; assumption.
Defined.

(** ** One iteration of version 3 *)

Lemma take_rows_length (pop : mat) (idx : list nat) (rows : mat) :
  niapy.take_rows pop idx = Some rows -> length rows = length idx.
Proof.
  revert rows. induction idx as [|i idx IH]; intros rows E; cbn in E.
  - injection E as <-. reflexivity.
  - destruct (pop !! i); [| discriminate].
    destruct (niapy.take_rows pop idx) as [rs|]; [| discriminate].
    injection E as <-. cbn. f_equal. apply IH. reflexivity.
Qed.

Lemma inject_consistent (fit : vec -> fitness) (population : mat)
    (population_fitness : list fitness) (x_gb : mat) (x_gb_f : list fitness)
    (population' : mat) (population_fitness' : list fitness) :
  population_fitness = map fit population -> x_gb_f = map fit x_gb ->
  niapy.inject population population_fitness x_gb x_gb_f
    = Some (population', population_fitness') ->
  length population' = length population /\
  population_fitness' = map fit population' /\
  forall row, row ∈ population' -> row ∈ population \/ row ∈ x_gb.
Proof.
  intros -> -> E. unfold niapy.inject in E.
  destruct (argmax (map fit population)) as [iw|]; [| discriminate].
  destruct (argmin (map fit x_gb)) as [ib|]; [| discriminate].
  destruct (x_gb !! ib) as [cand|] eqn:Hcand; [| discriminate].
  rewrite list_lookup_fmap, Hcand in E. cbn in E.
  destruct (map fit population !! iw) as [worst_f|]; [| discriminate].
  destruct (lef (fit cand) worst_f); injection E as <- <-.
  - split; [apply length_insert |]. split.
    + rewrite list_fmap_insert. reflexivity.
    + intros row Hin. apply list_elem_of_lookup_1 in Hin as [j Hj].
      destruct (decide (iw = j)) as [-> | Hne].
      * right. rewrite list_lookup_insert_eq in Hj
          by (apply lookup_lt_Some in Hj; rewrite length_insert in Hj; exact Hj).
        injection Hj as <-. eapply list_elem_of_lookup_2, Hcand.
      * left. rewrite list_lookup_insert_ne in Hj by assumption.
        eapply list_elem_of_lookup_2, Hj.
  - split; [reflexivity |]. split; [reflexivity |]. intros row Hin. left. exact Hin.
Qed.

Section V3_iteration.
Context {G : Type} `{Generator G}.

Lemma rng_choice_Some (n : nat) (k : Z) (b : bool) (idx : list nat)
    (s s' : niapy.State G) :
  niapy.rng_choice n k b s = Some (idx, s') ->
  (0 <= k)%Z /\ length idx = Z.to_nat k /\ niapy.evals s' = niapy.evals s.
Proof.
  unfold niapy.rng_choice. destruct (Z.ltb_spec k 0) as [Hneg | Hpos];
    [discriminate |]. cbn [orb].
  destruct (_ || _); [discriminate |].
  intros E. apply draw_Some in E as (-> & _ & Hev).
  split; [exact Hpos |]. split; [apply choice_length | exact Hev].
Qed.

(** One iteration of v3 on a population of [population_size] rows of the
    task's dimension.  It raises unless the constant [c] is positive.
    When it returns, the population still has [population_size] rows of
    the task's dimension, the fitness array holds the objective's value of
    every row (of the injected row too), the extra state is returned
    unchanged, and exactly [c + population_size] evaluations were used. *)
Theorem v3_run_iteration_shape (self : Params) (task : Task) (population : mat)
    (population_fitness : list fitness) (best_x : vec) (best_fitness : fitness)
    (params : niapy.Extra) (s s' : niapy.State G) (population' : mat)
    (population_fitness' : list fitness) (best_x' : vec) (best_fitness' : fitness)
    (params' : niapy.Extra) :
  length population = population_size self ->
  Forall (fun row => length row = dimension task) population ->
  length best_x = dimension task ->
  niapy.V3.run_iteration self task population population_fitness best_x
    best_fitness params s
    = Some (population', population_fitness', best_x', best_fitness', params', s') ->
  (0 < niapy.extra_c params)%Z /\
  params' = params /\
  length population' = population_size self /\
  Forall (fun row => length row = dimension task) population' /\
  population_fitness' = map (fun row => Fin (fn task row)) population' /\
  niapy.evals s' =
    (niapy.evals s + Z.to_nat (niapy.extra_c params) + population_size self)%nat.
Proof.
  intros Hlen Hrows Hbest Erun. unfold niapy.V3.run_iteration in Erun. cbv zeta in Erun.
  inv_bind_as Erun ia s1 Eia. inv_bind_as Erun ib s2 Eib.
  destruct (niapy.take_rows population ia) as [A|] eqn:HA; [| discriminate].
  destruct (niapy.take_rows population ib) as [B|] eqn:HB; [| discriminate].
  inv_bind_as Erun x_gb s3 Egb. inv_bind_as Erun x_gb_f s4 Egbf.
  inv_bind_as Erun bst s5 Ebest. destruct bst as [bx1 bf1].
  inv_bind_as Erun m s6 Em. inv_bind_as Erun pop1 s7 Epop.
  inv_bind_as Erun fit1 s8 Efit. inv_bind_as Erun bst2 s9 Ebest2.
  destruct bst2 as [bx2 bf2].
  destruct (niapy.inject pop1 fit1 x_gb x_gb_f) as [[pop2 fit2]|] eqn:Einj;
    [| discriminate].
  injection Erun as <- <- <- <- <- <-.
  apply rng_choice_Some in Eia as (Hc & Hlia & Hev1).
  apply rng_choice_Some in Eib as (_ & Hlib & Hev2).
  apply take_rows_length in HA, HB.
  apply apply_along_axis_Some in Egb as (Hne & Egb).
  apply traverse_repair_Some in Egb as (-> & ->).
  apply apply_along_axis_Some in Egbf as (_ & Egbf).
  apply traverse_eval_Some in Egbf as (-> & Hev4 & _ & Hgb_rows).
  apply get_best_le in Ebest as (-> & _ & _).
  apply traverse_shuffle in Em as (Hperm & Hev6).
  apply apply_along_axis_Some in Epop as (_ & Epop).
  apply traverse_repair_Some in Epop as (-> & ->).
  apply apply_along_axis_Some in Efit as (_ & Efit).
  apply traverse_eval_Some in Efit as (-> & Hev8 & _ & Hpop_rows).
  apply get_best_le in Ebest2 as (-> & _ & _).
  apply (inject_consistent (fun row => Fin (fn task row))) in Einj
    as (Hl2 & -> & Hfrom); [| reflexivity | reflexivity].
  pose proof (Forall2_length _ _ _ Hperm) as Hlm. rewrite length_mask in Hlm.
  assert (Hbatch : length (niapy.candidate_batch best_x (fc self) A B)
                   = Z.to_nat (niapy.extra_c params)).
  { unfold niapy.candidate_batch. rewrite length_zip_with. lia. }
  split.
  { destruct (niapy.candidate_batch best_x (fc self) A B) eqn:Eb;
      [contradiction | cbn in Hbatch; lia]. }
  split; [reflexivity |]. split.
  { rewrite Hl2, length_map. unfold niapy.recombine. rewrite length_zip_with. lia. }
  split.
  { rewrite Forall_forall. intros row Hin.
    destruct (Hfrom row Hin) as [Hp | Hg].
    - rewrite Forall_forall in Hpop_rows. apply Hpop_rows, Hp.
    - rewrite Forall_forall in Hgb_rows. apply Hgb_rows, Hg. }
  split; [reflexivity |].
  rewrite !length_map in *. rewrite Hbatch in Hev4.
  unfold niapy.recombine in Hev8. rewrite length_zip_with in Hev8. lia.
Qed.

End V3_iteration.

Lemma v3_run_iteration_shape_witness :
  exists population' population_fitness' best_x' best_fitness' params' s',
    niapy.V3.run_iteration two_monkeys (sphere1 6) [[1]; [2]] [Fin 1; Fin 4] [1]
      (Fin 1) {| niapy.extra_k := 2; niapy.extra_c := 1 |} fresh
      = Some (population', population_fitness', best_x', best_fitness', params', s') /\
    length population' = 2%nat /\
    population_fitness' = map (fun row => Fin (sphere row)) population' /\
    niapy.evals s' = 3%nat.
Proof.
  destruct (niapy.V3.run_iteration two_monkeys (sphere1 6) [[1]; [2]]
              [Fin 1; Fin 4] [1] (Fin 1)
              {| niapy.extra_k := 2; niapy.extra_c := 1 |} fresh)
    as [[[[[[population' population_fitness'] best_x'] best_fitness'] params'] s']|]
    eqn:E; [| vm_compute in E; discriminate].
  exists population', population_fitness', best_x', best_fitness', params', s'.
  split; [reflexivity |].
  destruct (v3_run_iteration_shape two_monkeys (sphere1 6) [[1]; [2]]
              [Fin 1; Fin 4] [1] (Fin 1)
              {| niapy.extra_k := 2; niapy.extra_c := 1 |} fresh s' population'
              population_fitness' best_x' best_fitness' params')
    as (_ & _ & Hlen & _ & Hfit & Hev);
    [reflexivity | repeat constructor | reflexivity | exact E |].
  split; [exact Hlen |]. split; [exact Hfit | exact Hev].
Defined.

(** * Further properties of the earlier package *)

Lemma lef_Inf (a : fitness) : lef a Inf = true.
Proof. destruct a; reflexivity. Qed.

Section Earlier.
Context {G : Type} `{Generator G}.

Lemma draw_self_Some {A : Type} (gen : G -> A * G) (e e' : NiaPy.Env G) (a : A) :
  NiaPy.draw_self gen e = Some (a, e') ->
  a = (gen (NiaPy.self_rand e)).1 /\ NiaPy.Evals e' = NiaPy.Evals e /\
  NiaPy.np_random e' = NiaPy.np_random e.
Proof.
  unfold NiaPy.draw_self. destruct (gen (NiaPy.self_rand e)) as [a0 g].
  intros E. injection E as <- <-. auto.
Qed.

Lemma rand_choice_Some (n : nat) (k : Z) (b : bool) (idx : list nat)
    (e e' : NiaPy.Env G) :
  NiaPy.rand_choice n k b e = Some (idx, e') ->
  (0 <= k)%Z /\ length idx = Z.to_nat k /\ NiaPy.Evals e' = NiaPy.Evals e /\
  NiaPy.np_random e' = NiaPy.np_random e /\
  ((0 < n)%nat -> (b = false -> (Z.to_nat k <= n)%nat) ->
   Forall (fun i => (i < n)%nat) idx) /\
  (b = false -> NoDup idx /\ (Z.to_nat k <= n)%nat).
Proof.
  unfold NiaPy.rand_choice. destruct (Z.ltb_spec k 0) as [Hneg | Hpos];
    [discriminate |]. cbn [orb].
  destruct (_ && _) eqn:E1; [discriminate |]. cbn [orb].
  destruct (negb b && _) eqn:E2; [discriminate |].
  intros E. apply draw_self_Some in E as (-> & Hev & Hnp).
  split; [exact Hpos |]. split; [apply choice_length |].
  split; [exact Hev |]. split; [exact Hnp |]. split.
  - intros Hn Hk. apply choice_range; assumption.
  - intros ->. cbn in E2. apply Nat.ltb_ge in E2.
    split; [apply choice_distinct; exact E2 | exact E2].
Qed.

Lemma earlier_task_eval_Some (task : Task) (pos : vec) (y : fitness)
    (e e' : NiaPy.Env G) :
  NiaPy.task_eval task pos e = Some (y, e') ->
  y = Fin (fn task pos) /\ NiaPy.Evals e' = S (NiaPy.Evals e) /\
  NiaPy.np_random e' = NiaPy.np_random e /\ length pos = dimension task.
Proof.
  unfold NiaPy.task_eval, Task_evaluate.
  destruct (Nat.eqb_spec (length pos) (dimension task)); [| discriminate].
  intros E. injection E as <- <-. auto.
Qed.

Lemma earlier_traverse_eval_Some (task : Task) (rows : mat) (fits : list fitness)
    (e e' : NiaPy.Env G) :
  traverse (NiaPy.task_eval task) rows e = Some (fits, e') ->
  fits = map (fun r => Fin (fn task r)) rows /\
  NiaPy.Evals e' = (NiaPy.Evals e + length rows)%nat /\
  NiaPy.np_random e' = NiaPy.np_random e /\
  Forall (fun r => length r = dimension task) rows.
Proof.
  revert e fits. induction rows as [|r rows IH]; intros e fits Erun.
  - injection Erun as <- <-. repeat split; [cbn; lia | constructor].
  - cbn [traverse] in Erun. inv_bind_as Erun y sy Ey. inv_bind_as Erun ys sys Eys.
    injection Erun as <- <-.
    apply earlier_task_eval_Some in Ey as (-> & Hev & Hnp & Hlen).
    apply IH in Eys as (-> & Hev' & Hnp' & Hall).
    repeat split; [cbn; lia | congruence | constructor; assumption].
Qed.

(** ** [MonkeyKingEvolutionV3.eval] *)

(** What [eval] of version 3 returns, for the lemmas below. *)
Lemma V3_eval_post (task : Task) (X : mat) (x_ : option vec) (x_f : fitness)
    (e e' : NiaPy.Env G) (x' : option vec) (f' : fitness) :
  NiaPy.V3_eval X x_ x_f task e = Some (x', f', e') ->
  X <> [] /\
  NiaPy.Evals e' = (NiaPy.Evals e + length X)%nat /\
  Forall (fun row => length row = dimension task) X /\
  lef f' x_f = true /\
  (forall row, row ∈ X -> lef f' (Fin (fn task row)) = true) /\
  ((exists row, row ∈ X /\ x' = Some row /\ f' = Fin (fn task row)) \/
   (x' = x_ /\ f' = x_f /\
    forall row, row ∈ X -> ltf x_f (Fin (fn task row)) = true)).
Proof.
  unfold NiaPy.V3_eval. intros Erun. inv_bind_as Erun X_f e1 EX.
  apply apply_along_axis_Some in EX as (Hne & EX).
  apply earlier_traverse_eval_Some in EX as (-> & Hev & _ & Hrows).
  destruct (argmin_spec (map (fun r => Fin (fn task r)) X)) as (r & m & Hr & Hm & Hmin & _).
  { destruct X; [contradiction | discriminate]. }
  rewrite Hr in Erun.
  rewrite list_lookup_fmap in Hm, Erun.
  destruct (X !! r) as [row|] eqn:Hrow; [| discriminate].
  cbn in Hm. cbn -[lef] in Erun. injection Hm as <-.
  assert (Hall : forall row', row' ∈ X ->
            lef (Fin (fn task row)) (Fin (fn task row')) = true).
  { intros row' Hin. apply list_elem_of_lookup_1 in Hin as [j Hj].
    apply (Hmin j). rewrite list_lookup_fmap, Hj. reflexivity. }
  split; [exact Hne |].
  destruct (lef (Fin (fn task row)) x_f) eqn:Hle; unfold ret in Erun;
    injection Erun as <- <- <-.
  - split; [exact Hev |]. split; [exact Hrows |]. split; [exact Hle |].
    split; [exact Hall |]. left. exists row.
    split; [eapply list_elem_of_lookup_2, Hrow | auto].
  - assert (Hlt : ltf x_f (Fin (fn task row)) = true)
      by (rewrite ltf_lef, Hle; reflexivity).
    split; [exact Hev |]. split; [exact Hrows |]. split; [apply lef_refl |]. split.
    + intros row' Hin. apply ltf_true_lef. eapply ltf_lef_trans; eauto.
    + right. split; [reflexivity |]. split; [reflexivity |].
      intros row' Hin. eapply ltf_lef_trans; eauto.
Qed.

(** [eval] of version 3 of the earlier package evaluates every row of the
    batch once and raises on an empty batch.  The fitness it returns is
    not above the fitness it was given nor above that of any row of the
    batch.  The best it was given is kept only when every row of the
    batch is strictly worse: on a tie the first best row of the batch
    replaces it. *)
Theorem V3_eval_spec (task : Task) (X : mat) (x_ : option vec) (x_f : fitness)
    (e e' : NiaPy.Env G) (x' : option vec) (f' : fitness) :
  NiaPy.V3_eval X x_ x_f task e = Some (x', f', e') ->
  X <> [] /\
  NiaPy.Evals e' = (NiaPy.Evals e + length X)%nat /\
  Forall (fun row => length row = dimension task) X /\
  lef f' x_f = true /\
  (forall row, row ∈ X -> lef f' (Fin (fn task row)) = true) /\
  ((exists row, row ∈ X /\ x' = Some row /\ f' = Fin (fn task row)) \/
   (x' = x_ /\ f' = x_f /\
    forall row, row ∈ X -> ltf x_f (Fin (fn task row)) = true)).
Proof. apply V3_eval_post. Qed.

(** ** The loop of version 3 *)

Lemma V3_eval_tracked (task : Task) (X : mat) (x_ : option vec) (x_f : fitness)
    (e e' : NiaPy.Env G) (x' : option vec) (f' : fitness) :
  NiaPy.V3_eval X x_ x_f task e = Some (x', f', e') ->
  (x_f = Inf \/
   exists old, x_ = Some old /\ x_f = Fin (fn task old) /\
               length old = dimension task) ->
  exists row, x' = Some row /\ f' = Fin (fn task row) /\
              length row = dimension task.
Proof.
  intros Erun Hin.
  apply V3_eval_post in Erun as (Hne & _ & Hrows & _ & _ & Hcase).
  destruct Hcase as [(row & Hrow & -> & ->) | (-> & -> & Hlt)].
  - exists row. split; [reflexivity |]. split; [reflexivity |].
    rewrite Forall_forall in Hrows. apply Hrows, Hrow.
  - destruct Hin as [-> | Hin]; [| exact Hin].
    destruct X as [|row X]; [contradiction |].
    specialize (Hlt row ltac:(left)). discriminate.
Qed.

Variable self : Params.

(** What one pass of the loop of version 3 keeps, for the loop below. *)
Lemma V3_runTask_body_inv (task : Task) (k c_ : Z) (X : mat) (best : vec)
    (e e' : NiaPy.Env G) (X' : mat) (x_gb' : option vec) (x_f_gb' : fitness) :
  length best = dimension task ->
  length X = population_size self ->
  NiaPy.V3_runTask_body self task k c_ X (Some best) (Fin (fn task best)) e
    = Some (X', x_gb', x_f_gb', e') ->
  (0 < c_)%Z /\
  length X' = population_size self /\
  NiaPy.Evals e' = (NiaPy.Evals e + Z.to_nat c_ + population_size self)%nat /\
  lef x_f_gb' (Fin (fn task best)) = true /\
  (forall row, row ∈ X' -> lef x_f_gb' (Fin (fn task row)) = true) /\
  exists row, x_gb' = Some row /\ x_f_gb' = Fin (fn task row) /\
              length row = dimension task.
Proof.
  intros Hbest HX Erun. unfold NiaPy.V3_runTask_body in Erun.
  inv_bind_as Erun ia e1 Eia. inv_bind_as Erun ib e2 Eib.
  destruct (niapy.take_rows X ia) as [A|] eqn:HA; [| discriminate].
  destruct (niapy.take_rows X ib) as [B|] eqn:HB; [| discriminate].
  inv_bind_as Erun r1 e3 E1. destruct r1 as [x1 f1].
  inv_bind_as Erun m e4 Em.
  destruct x1 as [best1|]; [| discriminate].
  inv_bind_as Erun r2 e5 E2. destruct r2 as [x2 f2].
  injection Erun as <- <- <- <-.
  apply rand_choice_Some in Eia as (Hc & Hlia & Hev1 & _).
  apply rand_choice_Some in Eib as (_ & Hlib & Hev2 & _).
  apply take_rows_length in HA, HB.
  pose proof (V3_eval_tracked _ _ _ _ _ _ _ _ E1
                (or_intror (ex_intro _ best (conj eq_refl (conj eq_refl Hbest)))))
    as (row1 & Hx1 & -> & Hl1).
  injection Hx1 as <-.
  pose proof (V3_eval_tracked _ _ _ _ _ _ _ _ E2
                (or_intror (ex_intro _ best1 (conj eq_refl (conj eq_refl Hl1)))))
    as Htracked.
  apply V3_eval_post in E1 as (Hne1 & Hev3 & _ & Hle1 & _ & _).
  apply V3_eval_post in E2 as (_ & Hev5 & _ & Hle2 & Hmin2 & _).
  assert (Hev4 : NiaPy.Evals e4 = NiaPy.Evals e3).
  { clear -Em. revert e3 m Em.
    induction (niapy.mask (population_size self) (dimension task) (Z.to_nat k))
      as [|row rows IH]; intros e3 m Em.
    - injection Em as <- <-. reflexivity.
    - cbn [traverse] in Em. inv_bind_as Em r er Er. inv_bind_as Em rs ers Ers.
      injection Em as <- <-. apply draw_self_Some in Er as (_ & Hev & _).
      apply IH in Ers. congruence. }
  assert (Hlm : length m = population_size self).
  { clear -Em. rewrite <- (length_mask (population_size self) (dimension task)
                             (Z.to_nat k)).
    revert e3 m Em.
    induction (niapy.mask (population_size self) (dimension task) (Z.to_nat k))
      as [|row rows IH]; intros e3 m Em.
    - injection Em as <- <-. reflexivity.
    - cbn [traverse] in Em. inv_bind_as Em r er Er. inv_bind_as Em rs ers Ers.
      injection Em as <- <-. cbn. f_equal. eapply IH, Ers. }
  assert (Hbatch : length (NiaPy.X_gb best (fc self) A B) = Z.to_nat c_).
  { unfold NiaPy.X_gb. rewrite length_zip_with. lia. }
  assert (HlX' : length (NiaPy.V3_recombine m X best1) = population_size self).
  { unfold NiaPy.V3_recombine. rewrite length_zip_with. lia. }
  split.
  { destruct (NiaPy.X_gb best (fc self) A B); [contradiction | cbn in Hbatch; lia]. }
  split; [exact HlX' |]. split; [lia |]. split; [eapply lef_trans; eauto |].
  split; [exact Hmin2 | exact Htracked].
Qed.

(** One pass of the loop of version 3 of the earlier package, entered
    with a best position that carries its own objective value.  The new
    best again carries its own objective value; it is not worse than the
    old one nor than any row of the new population; the population keeps
    its number of rows when it had [NP] of them; and the pass uses one
    evaluation for each of the [c] candidates and for each row. *)
Theorem V3_runTask_body_post (task : Task) (k c_ : Z) (X : mat) (best : vec)
    (e e' : NiaPy.Env G) (X' : mat) (x_gb' : option vec) (x_f_gb' : fitness) :
  length best = dimension task ->
  length X = population_size self ->
  NiaPy.V3_runTask_body self task k c_ X (Some best) (Fin (fn task best)) e
    = Some (X', x_gb', x_f_gb', e') ->
  (0 < c_)%Z /\
  length X' = population_size self /\
  NiaPy.Evals e' = (NiaPy.Evals e + Z.to_nat c_ + population_size self)%nat /\
  lef x_f_gb' (Fin (fn task best)) = true /\
  (forall row, row ∈ X' -> lef x_f_gb' (Fin (fn task row)) = true) /\
  exists row, x_gb' = Some row /\ x_f_gb' = Fin (fn task row) /\
              length row = dimension task.
Proof. apply V3_runTask_body_inv. Qed.

Lemma V3_runTask_loop_post (fuel : nat) (task : Task) (k c_ : Z) :
  forall (X : mat) (best : vec) (e e' : NiaPy.Env G) (x' : option vec) (f' : fitness),
  length best = dimension task ->
  length X = population_size self ->
  NiaPy.V3_runTask_loop self fuel task k c_ X (Some best) (Fin (fn task best)) e
    = Some (x', f', e') ->
  (max_evals task <= NiaPy.Evals e')%nat /\
  (NiaPy.Evals e <= NiaPy.Evals e')%nat /\
  lef f' (Fin (fn task best)) = true /\
  exists row, x' = Some row /\ f' = Fin (fn task row) /\
              length row = dimension task.
Proof.
  induction fuel as [|fuel IH]; intros X best e e' x' f' Hbest HX Erun;
    [discriminate |].
  cbn [NiaPy.V3_runTask_loop] in Erun.
  inv_bind_as Erun stop e1 Estop.
  unfold NiaPy.stopCond in Estop. injection Estop as <- <-.
  destruct (Task_stopping_condition task (NiaPy.Evals e)) eqn:Hstop.
  - injection Erun as <- <- <-.
    split; [apply Nat.leb_le, Hstop |]. split; [lia |]. split; [apply lef_refl |].
    exists best. auto.
  - inv_bind_as Erun r e2 Ebody. destruct r as [[X1 x1] f1].
    apply V3_runTask_body_inv in Ebody
      as (_ & HX1 & Hev & Hle & _ & row & -> & -> & Hrow); [| assumption ..].
    apply IH in Erun as (Hstop' & Hev' & Hle' & Hres); [| assumption ..].
    split; [exact Hstop' |]. split; [lia |].
    split; [eapply lef_trans; eauto | exact Hres].
Qed.

(** [runTask] of version 3 of the earlier package raises on a task of
    dimension zero and on an empty population.  When it returns, the
    budget of evaluations is used up, and the result is a position of the
    task's dimension together with the objective's value on that very
    position: the best is tracked by value, and it is never [None]. *)
Theorem V3_runTask_result (fuel : nat) (task : Task) (e e' : NiaPy.Env G)
    (x' : option vec) (f' : fitness) :
  NiaPy.V3_runTask self fuel task e = Some (x', f', e') ->
  (0 < dimension task)%nat /\ (0 < population_size self)%nat /\
  (max_evals task <= NiaPy.Evals e')%nat /\
  (NiaPy.Evals e + population_size self <= NiaPy.Evals e')%nat /\
  exists row, x' = Some row /\ f' = Fin (fn task row) /\
              length row = dimension task.
Proof.
  unfold NiaPy.V3_runTask, NiaPy.V3_runTask_init. intros Erun.
  inv_bind_as Erun r e1 Einit. inv_bind_as Einit U e2 EU.
  inv_bind_as Einit r0 e3 E0. destruct r0 as [x0 f0].
  destruct (Nat.eqb_spec (dimension task) 0) as [| Hd]; [discriminate |].
  destruct (ceil_of_product (c self) (dimension task)) as [c_|]; [| discriminate].
  unfold ret in Einit. injection Einit as <- <-.
  apply draw_self_Some in EU as (-> & HevU & _).
  pose proof (V3_eval_tracked _ _ _ _ _ _ _ _ E0 (or_introl eq_refl))
    as (row0 & -> & -> & Hrow0).
  apply V3_eval_post in E0 as (Hne & Hev0 & _).
  rewrite length_map, rand2_rows in Hev0.
  apply V3_runTask_loop_post in Erun as (Hstop & Hev & _ & Hres);
    [| assumption | rewrite length_map; apply rand2_rows].
  split; [lia |]. split.
  { destruct (population_size self) eqn:Hnp; [| lia]. exfalso. apply Hne.
    pose proof (rand2_rows 0 (dimension task) (NiaPy.self_rand e)) as Hl.
    destruct (rand2 0 (dimension task) (NiaPy.self_rand e)).1; [reflexivity | discriminate]. }
  split; [exact Hstop |]. split; [lia | exact Hres].
Qed.

End Earlier.

Lemma V3_eval_spec_witness :
  exists x' f' e',
    NiaPy.V3_eval [[3]; [2]; [-2]] (Some [2]) (Fin 4) (sphere1 6) (start 0)
      = Some (x', f', e') /\
    NiaPy.Evals e' = 3%nat /\ lef f' (Fin 4) = true.
Proof.
  destruct (NiaPy.V3_eval [[3]; [2]; [-2]] (Some [2]) (Fin 4) (sphere1 6) (start 0))
    as [[[x' f'] e']|] eqn:E; [| vm_compute in E; discriminate].
  exists x', f', e'. split; [reflexivity |].
  destruct (V3_eval_spec (sphere1 6) [[3]; [2]; [-2]] (Some [2]) (Fin 4)
              (start 0) e' x' f' E) as (_ & Hev & _ & Hle & _).
  split; [exact Hev | exact Hle].
Defined.

Lemma V3_runTask_body_post_witness :
  exists X' x_gb' x_f_gb' e',
    NiaPy.V3_runTask_body two_monkeys (sphere1 6) 2 1 [[1]; [2]] (Some [1])
      (Fin (sphere [1])) (start 0) = Some (X', x_gb', x_f_gb', e') /\
    length X' = 2%nat /\ NiaPy.Evals e' = 3%nat /\
    lef x_f_gb' (Fin (sphere [1])) = true.
Proof.
  destruct (NiaPy.V3_runTask_body two_monkeys (sphere1 6) 2 1 [[1]; [2]] (Some [1])
              (Fin (sphere [1])) (start 0))
    as [[[[X' x_gb'] x_f_gb'] e']|] eqn:E; [| vm_compute in E; discriminate].
  exists X', x_gb', x_f_gb', e'. split; [reflexivity |].
  destruct (V3_runTask_body_post two_monkeys (sphere1 6) 2 1 [[1]; [2]] [1]
              (start 0) e' X' x_gb' x_f_gb')
    as (_ & Hlen & Hev & Hle & _); [reflexivity | reflexivity | exact E |].
  split; [exact Hlen |]. split; [exact Hev | exact Hle].
Defined.

Lemma V3_runTask_result_witness :
  exists x' f' e',
    NiaPy.V3_runTask two_monkeys 3 (sphere1 6) (start 0) = Some (x', f', e') /\
    (6 <= NiaPy.Evals e')%nat /\
    exists row, x' = Some row /\ f' = Fin (sphere row).
Proof.
  destruct (NiaPy.V3_runTask two_monkeys 3 (sphere1 6) (start 0))
    as [[[x' f'] e']|] eqn:E; [| vm_compute in E; discriminate].
  exists x', f', e'. split; [reflexivity |].
  destruct (V3_runTask_result two_monkeys 3 (sphere1 6) (start 0) e' x' f' E)
    as (_ & _ & Hstop & _ & row & Hx & Hf & _).
  split; [exact Hstop |]. exists row. split; assumption.
Defined.

(** ** Versions 1 and 2 of the earlier package *)

Lemma length_repair (pos : vec) (task : Task) :
  length pos = dimension task ->
  length (upper task) = dimension task -> length (lower task) = dimension task ->
  length (NiaPy.repair pos task) = dimension task.
Proof.
  intros Hp Hu Hl. unfold NiaPy.repair. cbv zeta. rewrite !length_zip_with. lia.
Qed.

Lemma repair_in_bounds (task : Task) (pos : vec) :
  (forall i l u, lower task !! i = Some l -> upper task !! i = Some u -> l <= u) ->
  forall i r l u,
    NiaPy.repair pos task !! i = Some r ->
    lower task !! i = Some l -> upper task !! i = Some u -> l <= r <= u.
Proof.
  intros Hb i r l u Hr Hl Hu.
  destruct (pos !! i) as [v|] eqn:Hv.
  - rewrite (repair_lookup task pos i v l u Hv Hl Hu) in Hr. cbv zeta in Hr.
    injection Hr as <-. specialize (Hb i l u Hl Hu).
    destruct (Qltb u v) eqn:E1.
    + apply Qltb_lt in E1. destruct (Qltb u l) eqn:E2.
      * apply Qltb_lt in E2. lra.
      * apply Qltb_ge in E2. lra.
    + apply Qltb_ge in E1. destruct (Qltb v l) eqn:E2.
      * apply Qltb_lt in E2. lra.
      * apply Qltb_ge in E2. lra.
  - unfold NiaPy.repair in Hr. cbv zeta in Hr.
    rewrite !lookup_zip_with, Hv in Hr. discriminate.
Qed.

Lemma earlier_flag_monkey_kings_Some (idx : list nat) :
  forall pop pop', NiaPy.flag_monkey_kings idx pop = Some pop' ->
  length pop' = length pop /\
  forall j p, pop !! j = Some p ->
    pop' !! j =
      Some (if bool_decide (j ∈ idx) then NiaPy.set_MonkeyKing true p else p).
Proof.
  induction idx as [|i idx IH]; intros pop pop' Hrun.
  - injection Hrun as <-. split; [reflexivity | auto].
  - cbn [NiaPy.flag_monkey_kings] in Hrun.
    destruct (pop !! i) as [q|] eqn:Hq; [| discriminate].
    apply IH in Hrun as (Hl & Hlook). rewrite length_insert in Hl.
    split; [exact Hl |].
    intros j p Hp. destruct (decide (j = i)) as [-> | Hne].
    + assert (p = q) by congruence. subst q.
      rewrite (Hlook i (NiaPy.set_MonkeyKing true p))
        by (apply list_lookup_insert_eq; eapply lookup_lt_Some; eauto).
      rewrite (bool_decide_eq_true_2 (i ∈ i :: idx)) by left.
      destruct (bool_decide (i ∈ idx)); reflexivity.
    + rewrite (Hlook j p) by (rewrite list_lookup_insert_ne by auto; exact Hp).
      destruct (bool_decide (j ∈ idx)) eqn:E.
      * apply bool_decide_eq_true_1 in E.
        rewrite bool_decide_eq_true_2 by (right; exact E). reflexivity.
      * apply bool_decide_eq_false_1 in E.
        rewrite bool_decide_eq_false_2; [reflexivity |].
        intros Hj. apply elem_of_cons in Hj as [-> | Hj]; contradiction.
Qed.

Lemma uPersonalBest_post (p : NiaPy.MkeSolution) :
  NiaPy.x (NiaPy.uPersonalBest p) = NiaPy.x p /\
  NiaPy.f (NiaPy.uPersonalBest p) = NiaPy.f p /\
  NiaPy.MonkeyKing (NiaPy.uPersonalBest p) = NiaPy.MonkeyKing p /\
  lef (NiaPy.f_pb (NiaPy.uPersonalBest p)) (NiaPy.f p) = true /\
  lef (NiaPy.f_pb (NiaPy.uPersonalBest p)) (NiaPy.f_pb p) = true.
Proof.
  unfold NiaPy.uPersonalBest.
  destruct (ltf (NiaPy.f p) (NiaPy.f_pb p)) eqn:E; cbn.
  - repeat split; auto using lef_refl, ltf_true_lef.
  - repeat split; auto using lef_refl, ltf_false_lef.
Qed.

Section Loop_earlier.
Context {G : Type} `{Generator G}.
Variable body :
  list NiaPy.MkeSolution -> NiaPy.MkeSolution -> M (NiaPy.Env G) NiaPy.MkeSolution.
Variable R : NiaPy.MkeSolution -> NiaPy.MkeSolution -> Prop.
Hypothesis body_post :
  forall pop p e p' e', body pop p e = Some (p', e') ->
    R p p' /\ (NiaPy.Evals e < NiaPy.Evals e')%nat.

Lemma earlier_for_each_particle_post (n : nat) :
  forall i pop e pop' e',
    NiaPy.for_each_particle body n i pop e = Some (pop', e') ->
    length pop' = length pop /\
    (forall j p, pop !! j = Some p ->
       ((i <= j < i + n)%nat -> exists p', pop' !! j = Some p' /\ R p p') /\
       (~ (i <= j < i + n)%nat -> pop' !! j = Some p)) /\
    (NiaPy.Evals e + length (take n (drop i pop)) <= NiaPy.Evals e')%nat.
Proof.
  induction n as [|n IH]; intros i pop e pop' e' Hrun.
  - injection Hrun as <- <-. split; [reflexivity |].
    split; [| rewrite take_0; cbn; lia]. intros j p Hp. split; [lia | auto].
  - cbn [NiaPy.for_each_particle] in Hrun.
    destruct (pop !! i) as [p|] eqn:Hp.
    + inv_bind_as Hrun a e1 E. apply body_post in E as [HR Hcost].
      apply IH in Hrun as (Hlen & Hrel & Hev).
      rewrite length_insert in Hlen.
      split; [exact Hlen |]. split.
      * intros j q Hq. destruct (decide (j = i)) as [-> | Hne].
        -- split; [intros _ | lia].
           assert (Hq' : <[i := a]> pop !! i = Some a)
             by (apply list_lookup_insert_eq; eapply lookup_lt_Some; eauto).
           destruct (Hrel i a Hq') as [_ Hkeep].
           exists a. split; [apply Hkeep; lia |]. congruence.
        -- assert (Hq' : <[i := a]> pop !! j = Some q)
             by (rewrite list_lookup_insert_ne by auto; exact Hq).
           destruct (Hrel j q Hq') as [Hin Hout].
           split; [intros Hj; apply Hin; lia | intros Hj; apply Hout; lia].
      * rewrite (drop_S _ _ _ Hp). rewrite drop_insert_lt in Hev by lia.
        simpl. lia.
    + injection Hrun as <- <-. split; [reflexivity |].
      apply lookup_ge_None in Hp. split.
      * intros j q Hq. apply lookup_lt_Some in Hq as Hj. split; [lia | auto].
      * rewrite drop_ge by lia. rewrite take_nil. cbn. lia.
Qed.

End Loop_earlier.

Section Earlier_moves.
Context {G : Type} `{Generator G}.
Variable self : Params.

Lemma movePartice_post (task : Task) (p best p' : NiaPy.MkeSolution)
    (e e' : NiaPy.Env G) :
  NiaPy.movePartice self p best task e = Some (p', e') ->
  NiaPy.x_pb p' = NiaPy.x_pb p /\ NiaPy.f_pb p' = NiaPy.f_pb p /\
  NiaPy.MonkeyKing p' = NiaPy.MonkeyKing p /\
  NiaPy.f p' = Fin (fn task (NiaPy.x p')) /\
  length (NiaPy.x p') = dimension task /\
  (exists a, NiaPy.x p' = NiaPy.repair a task) /\
  NiaPy.Evals e' = S (NiaPy.Evals e).
Proof.
  unfold NiaPy.movePartice, NiaPy.moveP. cbv zeta. intros Hrun.
  inv_bind_as Hrun a e1 Ea. inv_bind_as Ea r e0 Er. injection Ea as <- <-.
  apply draw_self_Some in Er as (_ & Hev0 & _).
  inv_bind_as Hrun a_f e2 Eaf. injection Hrun as <- <-.
  apply earlier_task_eval_Some in Eaf as (-> & Hev & _ & Hlen).
  cbn. repeat split; try assumption; [eexists; reflexivity | congruence].
Qed.

Lemma earlier_traverse_ret {A B : Type} (g : A -> B) (l : list A) (e : NiaPy.Env G) :
  traverse (fun a => ret (g a)) l e = Some (map g l, e).
Proof.
  induction l as [|a l IH]; [reflexivity |].
  cbn [traverse]. unfold bind at 1. unfold ret at 1. unfold bind. rewrite IH.
  reflexivity.
Qed.

Lemma moveMokeyKingPartice_post (task : Task) (p p' : NiaPy.MkeSolution)
    (e e' : NiaPy.Env G) :
  NiaPy.moveMokeyKingPartice self p task e = Some (p', e') ->
  NiaPy.x_pb p' = NiaPy.x_pb p /\ NiaPy.f_pb p' = NiaPy.f_pb p /\
  NiaPy.MonkeyKing p' = false /\
  NiaPy.f p' = Fin (fn task (NiaPy.x p')) /\
  length (NiaPy.x p') = dimension task /\
  (exists a, NiaPy.x p' = NiaPy.repair a task) /\
  NiaPy.Evals e' = (NiaPy.Evals e + count_of (c self * Qnat (dimension task)))%nat /\
  (0 < count_of (c self * Qnat (dimension task)))%nat.
Proof.
  unfold NiaPy.moveMokeyKingPartice, NiaPy.moveMK. cbv zeta. intros Hrun.
  inv_bind_as Hrun cand e0 Ecand. inv_bind_as Ecand U eU EU.
  injection Ecand as <- <-.
  apply draw_self_Some in EU as (-> & Hev0 & _).
  inv_bind_as Hrun A e1 EA. inv_bind_as Hrun A_f e2 EAf.
  apply apply_along_axis_Some in EA as [Hne EA].
  rewrite earlier_traverse_ret in EA. injection EA as <- <-.
  apply apply_along_axis_Some in EAf as [_ EAf].
  apply earlier_traverse_eval_Some in EAf as (-> & Hev2 & _ & Hrows).
  destruct (argmin _) as [ib|]; [| discriminate].
  match type of Hrun with
  | context [?rows !! ib] => destruct (rows !! ib) as [best|] eqn:Hbest
  end; [| discriminate].
  rewrite list_lookup_fmap, Hbest in Hrun. cbn in Hrun.
  injection Hrun as <- <-. cbn.
  assert (Hin : best ∈ map (fun row => NiaPy.repair row task)
            (map (fun u => vadd (NiaPy.x p) (vmul (vscale (fc self) u) (NiaPy.x p)))
               (rand2 (count_of (c self * Qnat (dimension task))) (dimension task)
                  (NiaPy.self_rand e)).1))
    by (eapply list_elem_of_lookup_2, Hbest).
  rewrite !length_map, rand2_rows in Hev2.
  repeat split.
  - rewrite Forall_forall in Hrows. apply Hrows, Hin.
  - apply list_elem_of_fmap in Hin as (a & -> & _). eexists; reflexivity.
  - lia.
  - destruct (count_of (c self * Qnat (dimension task))) eqn:Hc; [| lia].
    exfalso. apply Hne.
    pose proof (rand2_rows 0 (dimension task) (NiaPy.self_rand e)) as Hl.
    destruct (rand2 0 (dimension task) (NiaPy.self_rand e)).1; [reflexivity | discriminate].
Qed.

(** What [movePopulation] establishes, for the lemmas below. *)
Lemma movePopulation_inv (task : Task) (pop pop' : list NiaPy.MkeSolution)
    (p_b : nat) (e e' : NiaPy.Env G) :
  length (lower task) = dimension task -> length (upper task) = dimension task ->
  (forall i l u, lower task !! i = Some l -> upper task !! i = Some u -> l <= u) ->
  NiaPy.movePopulation self pop p_b task e = Some (pop', e') ->
  length pop' = length pop /\
  (NiaPy.Evals e + length pop <= NiaPy.Evals e')%nat /\
  forall j p, pop !! j = Some p ->
    exists p', pop' !! j = Some p' /\
      NiaPy.MonkeyKing p' = false /\
      NiaPy.f p' = Fin (fn task (NiaPy.x p')) /\
      length (NiaPy.x p') = dimension task /\
      (forall i v l u, NiaPy.x p' !! i = Some v ->
         lower task !! i = Some l -> upper task !! i = Some u -> l <= v <= u) /\
      lef (NiaPy.f_pb p') (NiaPy.f p') = true /\
      lef (NiaPy.f_pb p') (NiaPy.f_pb p) = true.
Proof.
  intros Hl Hu Hb Hrun. unfold NiaPy.movePopulation in Hrun.
  apply (earlier_for_each_particle_post _
           (fun p p' =>
              NiaPy.MonkeyKing p' = false /\
              NiaPy.f p' = Fin (fn task (NiaPy.x p')) /\
              length (NiaPy.x p') = dimension task /\
              (exists a, NiaPy.x p' = NiaPy.repair a task) /\
              lef (NiaPy.f_pb p') (NiaPy.f p') = true /\
              lef (NiaPy.f_pb p') (NiaPy.f_pb p) = true)) in Hrun
    as (Hlen & Hrel & Hev).
  - split; [exact Hlen |]. split.
    { rewrite drop_0, firstn_all in Hev. exact Hev. }
    intros j p Hp. destruct (Hrel j p Hp) as [Hin _].
    destruct Hin as (p' & Hp' & Hflag & Hf & Hlx & (a & Ha) & Hpb & Hpb').
    { split; [lia |]. apply lookup_lt_Some in Hp. lia. }
    exists p'. split; [exact Hp' |]. split; [exact Hflag |]. split; [exact Hf |].
    split; [exact Hlx |]. split; [| split; assumption].
    intros i v l u Hv Hli Hui. rewrite Ha in Hv.
    eapply (repair_in_bounds task a Hb i v l u); eauto.
  - intros pop0 p e0 p' e0' Hbody.
    destruct (pop0 !! p_b) as [best|]; [| discriminate].
    inv_bind_as Hbody q e1 Emove. injection Hbody as <- <-.
    destruct (uPersonalBest_post q) as (Hx & Hf & Hmk & Hpb & Hpb').
    rewrite Hx, Hf, Hmk.
    destruct (NiaPy.MonkeyKing p) eqn:Hflag.
    + apply moveMokeyKingPartice_post in Emove
        as (_ & Hfpb & Hq & Hqf & Hql & Hqa & Hev & Hpos).
      rewrite <- Hfpb. repeat split; try assumption. lia.
    + apply movePartice_post in Emove as (_ & Hfpb & Hq & Hqf & Hql & Hqa & Hev).
      rewrite <- Hfpb. repeat split; try assumption; [congruence | lia].
Qed.

(** [movePopulation] of version 1 of the earlier package, on a task whose
    bound vectors have the task's dimension and are ordered.  The
    population keeps its size, and every individual ends unflagged, inside
    the bounds, with the objective's value of its position as fitness and
    a personal best that is not worse than it nor than the personal best
    it had. *)
Theorem movePopulation_post (task : Task) (pop pop' : list NiaPy.MkeSolution)
    (p_b : nat) (e e' : NiaPy.Env G) :
  length (lower task) = dimension task -> length (upper task) = dimension task ->
  (forall i l u, lower task !! i = Some l -> upper task !! i = Some u -> l <= u) ->
  NiaPy.movePopulation self pop p_b task e = Some (pop', e') ->
  length pop' = length pop /\
  (NiaPy.Evals e + length pop <= NiaPy.Evals e')%nat /\
  forall j p, pop !! j = Some p ->
    exists p', pop' !! j = Some p' /\
      NiaPy.MonkeyKing p' = false /\
      NiaPy.f p' = Fin (fn task (NiaPy.x p')) /\
      length (NiaPy.x p') = dimension task /\
      (forall i v l u, NiaPy.x p' !! i = Some v ->
         lower task !! i = Some l -> upper task !! i = Some u -> l <= v <= u) /\
      lef (NiaPy.f_pb p') (NiaPy.f p') = true /\
      lef (NiaPy.f_pb p') (NiaPy.f_pb p) = true.
Proof. apply movePopulation_inv. Qed.

Lemma earlier_flag_sample_Some (pop pop' : list NiaPy.MkeSolution)
    (e e' : NiaPy.Env G) :
  NiaPy.flag_sample self pop e = Some (pop', e') ->
  NiaPy.Evals e' = NiaPy.Evals e /\
  exists idx, NiaPy.flag_monkey_kings idx pop = Some pop'.
Proof.
  unfold NiaPy.flag_sample. intros Hrun.
  destruct (int_of_product (population_rate self) (length pop)) as [k|];
    [| discriminate].
  inv_bind_as Hrun idx e1 Eidx.
  apply rand_choice_Some in Eidx as (_ & _ & Hev & _).
  destruct (NiaPy.flag_monkey_kings idx pop) as [pop1|] eqn:Hflag; [| discriminate].
  injection Hrun as <- <-. split; [exact Hev |]. exists idx. exact Hflag.
Qed.

(** One pass of the loop of [runTask] of version 1 of the earlier
    package, on a task whose bound vectors have the task's dimension and
    are ordered.  The individual that [p_b] refers to afterwards has the
    least fitness of the population as the pass leaves it, its fitness is
    the objective's value of its position, and it lies inside the bounds:
    what [runTask] tracks is the best of the current population. *)
Theorem runTask_body_tracks_population_best (task : Task)
    (pop pop' : list NiaPy.MkeSolution) (p_b p_b' : nat) (e e' : NiaPy.Env G) :
  length (lower task) = dimension task -> length (upper task) = dimension task ->
  (forall i l u, lower task !! i = Some l -> upper task !! i = Some u -> l <= u) ->
  NiaPy.runTask_body self task pop p_b e = Some (pop', p_b', e') ->
  length pop' = length pop /\
  (NiaPy.Evals e + length pop <= NiaPy.Evals e')%nat /\
  exists best, pop' !! p_b' = Some best /\
    NiaPy.f best = Fin (fn task (NiaPy.x best)) /\
    (forall i v l u, NiaPy.x best !! i = Some v ->
       lower task !! i = Some l -> upper task !! i = Some u -> l <= v <= u) /\
    forall j p, pop' !! j = Some p -> lef (NiaPy.f best) (NiaPy.f p) = true.
Proof.
  intros Hl Hu Hb Hrun. unfold NiaPy.runTask_body in Hrun.
  inv_bind_as Hrun pop1 e1 Emove. inv_bind_as Hrun pop2 e2 Eflag.
  apply movePopulation_inv in Emove as (Hlen1 & Hev1 & Hpost); try assumption.
  apply earlier_flag_sample_Some in Eflag as (Hev2 & idx & Hflag).
  apply earlier_flag_monkey_kings_Some in Hflag as (Hlen2 & Hlook).
  assert (Hmember : forall j q, pop2 !! j = Some q ->
            NiaPy.f q = Fin (fn task (NiaPy.x q)) /\
            (forall i v l u, NiaPy.x q !! i = Some v ->
               lower task !! i = Some l -> upper task !! i = Some u -> l <= v <= u)).
  { intros j q Hq.
    assert (Hj : (j < length pop)%nat)
      by (apply lookup_lt_Some in Hq; lia).
    destruct (lookup_lt_is_Some_2 pop j Hj) as [p0 Hp0].
    destruct (Hpost j p0 Hp0) as (p1 & Hp1 & _ & Hf & _ & Hbounds & _).
    rewrite (Hlook j p1 Hp1) in Hq. injection Hq as <-.
    destruct (bool_decide (j ∈ idx)); cbn; auto. }
  destruct (argmin (map NiaPy.f pop2)) as [ib|] eqn:Hib; [| discriminate].
  destruct (pop2 !! ib) as [cand|] eqn:Hcand; [| discriminate].
  destruct (pop2 !! p_b) as [best|] eqn:Hbest; [| discriminate].
  unfold ret in Hrun. injection Hrun as <- <- <-.
  destruct (argmin_spec (map NiaPy.f pop2)) as (r & m & Hr & Hm & Hmin & _).
  { destruct pop2; discriminate. }
  rewrite Hib in Hr. injection Hr as <-.
  rewrite list_lookup_fmap, Hcand in Hm. injection Hm as <-.
  assert (Hcmin : forall j p, pop2 !! j = Some p ->
            lef (NiaPy.f cand) (NiaPy.f p) = true).
  { intros j p Hp. apply (Hmin j). rewrite list_lookup_fmap, Hp. reflexivity. }
  split; [lia |]. split; [lia |].
  destruct (ltf (NiaPy.f cand) (NiaPy.f best)) eqn:Hlt.
  - exists cand. split; [exact Hcand |].
    destruct (Hmember ib cand Hcand) as [Hf Hbounds].
    split; [exact Hf |]. split; [exact Hbounds | exact Hcmin].
  - exists best. split; [exact Hbest |].
    destruct (Hmember p_b best Hbest) as [Hf Hbounds].
    split; [exact Hf |]. split; [exact Hbounds |].
    intros j p Hp. eapply lef_trans; [apply ltf_false_lef, Hlt | eapply Hcmin, Hp].
Qed.



End Earlier_moves.

Lemma sphere1_bounds (budget : nat) :
  forall i l u,
    lower (sphere1 budget) !! i = Some l -> upper (sphere1 budget) !! i = Some u ->
    l <= u.
Proof.
  intros [|i] l u Hl Hu; [| discriminate].
  injection Hl as <-. injection Hu as <-. discriminate.
Qed.

Lemma movePopulation_post_witness :
  exists pop' e',
    NiaPy.movePopulation two_monkeys
      [ {| NiaPy.x := [1]; NiaPy.f := Fin 1; NiaPy.x_pb := [1]; NiaPy.f_pb := Inf;
           NiaPy.MonkeyKing := true |};
        {| NiaPy.x := [4]; NiaPy.f := Fin 16; NiaPy.x_pb := [4]; NiaPy.f_pb := Inf;
           NiaPy.MonkeyKing := false |} ] 0 (sphere1 6) (start 0) = Some (pop', e') /\
    length pop' = 2%nat.
Proof.
  destruct (NiaPy.movePopulation two_monkeys
      [ {| NiaPy.x := [1]; NiaPy.f := Fin 1; NiaPy.x_pb := [1]; NiaPy.f_pb := Inf;
           NiaPy.MonkeyKing := true |};
        {| NiaPy.x := [4]; NiaPy.f := Fin 16; NiaPy.x_pb := [4]; NiaPy.f_pb := Inf;
           NiaPy.MonkeyKing := false |} ] 0 (sphere1 6) (start 0))
    as [[pop' e']|] eqn:E; [| vm_compute in E; discriminate].
  exists pop', e'. split; [reflexivity |].
  destruct (movePopulation_post two_monkeys (sphere1 6) _ pop' 0 (start 0) e'
              eq_refl eq_refl (sphere1_bounds 6) E) as (Hlen & _).
  exact Hlen.
Defined.

Lemma runTask_body_tracks_population_best_witness :
  exists pop' p_b' e' best,
    NiaPy.runTask_body two_monkeys (sphere1 6)
      [ {| NiaPy.x := [1]; NiaPy.f := Fin 1; NiaPy.x_pb := [1]; NiaPy.f_pb := Inf;
           NiaPy.MonkeyKing := true |};
        {| NiaPy.x := [4]; NiaPy.f := Fin 16; NiaPy.x_pb := [4]; NiaPy.f_pb := Inf;
           NiaPy.MonkeyKing := false |} ] 0 (start 0) = Some (pop', p_b', e') /\
    pop' !! p_b' = Some best /\ NiaPy.f best = Fin (sphere (NiaPy.x best)).
Proof.
  destruct (NiaPy.runTask_body two_monkeys (sphere1 6)
      [ {| NiaPy.x := [1]; NiaPy.f := Fin 1; NiaPy.x_pb := [1]; NiaPy.f_pb := Inf;
           NiaPy.MonkeyKing := true |};
        {| NiaPy.x := [4]; NiaPy.f := Fin 16; NiaPy.x_pb := [4]; NiaPy.f_pb := Inf;
           NiaPy.MonkeyKing := false |} ] 0 (start 0))
    as [[[pop' p_b'] e']|] eqn:E; [| vm_compute in E; discriminate].
  destruct (runTask_body_tracks_population_best two_monkeys (sphere1 6) _ pop' 0 p_b'
              (start 0) e' eq_refl eq_refl (sphere1_bounds 6) E)
    as (_ & _ & best & Hbest & Hf & _).
  exists pop', p_b', e', best. split; [reflexivity |]. split; assumption.
Defined.


(** ** [runTask] of version 1 of the earlier package *)

Section Earlier_run.
Context {G : Type} `{Generator G}.
Variable self : Params.

Lemma earlier_MkeSolution_init_post (task : Task) (p : NiaPy.MkeSolution)
    (e e' : NiaPy.Env G) :
  NiaPy.MkeSolution_init task e = Some (p, e') ->
  NiaPy.f p = Fin (fn task (NiaPy.x p)) /\ length (NiaPy.x p) = dimension task /\
  NiaPy.Evals e' = S (NiaPy.Evals e).
Proof.
  unfold NiaPy.MkeSolution_init. cbv zeta. intros Hrun.
  inv_bind_as Hrun r e1 Er. inv_bind_as Hrun fx e2 Ef.
  unfold ret in Hrun. injection Hrun as <- <-.
  unfold NiaPy.draw_np_random in Er.
  destruct (rand (dimension task) (NiaPy.np_random e)) as [r0 g].
  injection Er as <- <-.
  apply earlier_task_eval_Some in Ef as (-> & Hev & _ & Hlen).
  cbn in *. auto.
Qed.

Lemma earlier_traverse_init_post (task : Task) (l : list nat) :
  forall (pop : list NiaPy.MkeSolution) (e e' : NiaPy.Env G),
  traverse (fun _ => NiaPy.MkeSolution_init task) l e = Some (pop, e') ->
  length pop = length l /\
  NiaPy.Evals e' = (NiaPy.Evals e + length l)%nat /\
  Forall (fun p => NiaPy.f p = Fin (fn task (NiaPy.x p)) /\
                   length (NiaPy.x p) = dimension task) pop.
Proof.
  induction l as [|i l IH]; intros pop e e' Hrun.
  - injection Hrun as <- <-. split; [reflexivity |]. split; [cbn; lia | constructor].
  - cbn [traverse] in Hrun. inv_bind_as Hrun p e1 Ep. inv_bind_as Hrun ps e2 Eps.
    injection Hrun as <- <-.
    apply earlier_MkeSolution_init_post in Ep as (Hf & Hl & Hev).
    apply IH in Eps as (Hlen & Hev' & Hall).
    split; [cbn; lia |]. split; [cbn; lia |]. constructor; auto.
Qed.

Lemma earlier_flag_sample_members (P : NiaPy.MkeSolution -> Prop)
    (pop pop' : list NiaPy.MkeSolution) (e e' : NiaPy.Env G) :
  (forall p, P p -> P (NiaPy.set_MonkeyKing true p)) ->
  NiaPy.flag_sample self pop e = Some (pop', e') ->
  Forall P pop ->
  length pop' = length pop /\ NiaPy.Evals e' = NiaPy.Evals e /\ Forall P pop'.
Proof.
  intros HP Hrun Hall.
  apply earlier_flag_sample_Some in Hrun as (Hev & idx & Hflag).
  apply earlier_flag_monkey_kings_Some in Hflag as (Hlen & Hlook).
  split; [exact Hlen |]. split; [exact Hev |].
  apply Forall_lookup. intros j q Hq.
  assert (Hj : (j < length pop)%nat) by (apply lookup_lt_Some in Hq; lia).
  destruct (lookup_lt_is_Some_2 pop j Hj) as [p Hp].
  rewrite (Hlook j p Hp) in Hq. injection Hq as <-.
  pose proof (proj1 (Forall_lookup P pop) Hall j p Hp) as HPp.
  destruct (bool_decide (j ∈ idx)); auto.
Qed.

Lemma runTask_body_members (task : Task) (pop pop' : list NiaPy.MkeSolution)
    (p_b p_b' : nat) (e e' : NiaPy.Env G) :
  length (lower task) = dimension task -> length (upper task) = dimension task ->
  (forall i l u, lower task !! i = Some l -> upper task !! i = Some u -> l <= u) ->
  NiaPy.runTask_body self task pop p_b e = Some (pop', p_b', e') ->
  length pop' = length pop /\
  (NiaPy.Evals e + length pop <= NiaPy.Evals e')%nat /\
  (p_b' < length pop')%nat /\
  Forall (fun p => NiaPy.f p = Fin (fn task (NiaPy.x p)) /\
                   length (NiaPy.x p) = dimension task) pop'.
Proof.
  intros Hl Hu Hb Hrun. unfold NiaPy.runTask_body in Hrun.
  inv_bind_as Hrun pop1 e1 Emove. inv_bind_as Hrun pop2 e2 Eflag.
  apply movePopulation_inv in Emove as (Hlen1 & Hev1 & Hpost); try assumption.
  assert (Hall1 : Forall (fun p => NiaPy.f p = Fin (fn task (NiaPy.x p)) /\
                            length (NiaPy.x p) = dimension task) pop1).
  { apply Forall_lookup. intros j q Hq.
    assert (Hj : (j < length pop)%nat) by (apply lookup_lt_Some in Hq; lia).
    destruct (lookup_lt_is_Some_2 pop j Hj) as [p0 Hp0].
    destruct (Hpost j p0 Hp0) as (p1 & Hp1 & _ & Hf & Hlx & _).
    assert (q = p1) by congruence. subst q. auto. }
  pose proof (earlier_flag_sample_members
                (fun p => NiaPy.f p = Fin (fn task (NiaPy.x p)) /\
                          length (NiaPy.x p) = dimension task)
                _ _ _ _ (fun p Hp => Hp) Eflag Hall1) as (Hlen2 & Hev2 & Hall2).
  destruct (argmin (map NiaPy.f pop2)) as [ib|] eqn:Hib; [| discriminate].
  destruct (pop2 !! ib) as [cand|] eqn:Hcand; [| discriminate].
  destruct (pop2 !! p_b) as [best|] eqn:Hbest; [| discriminate].
  unfold ret in Hrun. injection Hrun as <- <- <-.
  split; [lia |]. split; [lia |]. split; [| exact Hall2].
  apply lookup_lt_Some in Hcand, Hbest.
  destruct (ltf (NiaPy.f cand) (NiaPy.f best)); assumption.
Qed.

Lemma runTask_loop_post (task : Task) (fuel : nat) :
  length (lower task) = dimension task -> length (upper task) = dimension task ->
  (forall i l u, lower task !! i = Some l -> upper task !! i = Some u -> l <= u) ->
  forall (pop pop' : list NiaPy.MkeSolution) (p_b p_b' : nat) (e e' : NiaPy.Env G),
  NiaPy.runTask_loop self fuel task pop p_b e = Some (pop', p_b', e') ->
  (p_b < length pop)%nat ->
  Forall (fun p => NiaPy.f p = Fin (fn task (NiaPy.x p)) /\
                   length (NiaPy.x p) = dimension task) pop ->
  length pop' = length pop /\
  (max_evals task <= NiaPy.Evals e')%nat /\
  (NiaPy.Evals e <= NiaPy.Evals e')%nat /\
  (p_b' < length pop')%nat /\
  Forall (fun p => NiaPy.f p = Fin (fn task (NiaPy.x p)) /\
                   length (NiaPy.x p) = dimension task) pop'.
Proof.
  intros Hl Hu Hb. induction fuel as [|fuel IH];
    intros pop pop' p_b p_b' e e' Hrun Hpb Hall; [discriminate |].
  cbn [NiaPy.runTask_loop] in Hrun.
  inv_bind_as Hrun stop e1 Estop.
  unfold NiaPy.stopCond in Estop. injection Estop as <- <-.
  destruct (Task_stopping_condition task (NiaPy.Evals e)) eqn:Hstop.
  - injection Hrun as <- <- <-.
    split; [reflexivity |]. split; [apply Nat.leb_le, Hstop |].
    split; [lia |]. split; assumption.
  - inv_bind_as Hrun r e2 Ebody. destruct r as [pop1 p_b1].
    apply runTask_body_members in Ebody as (Hlen1 & Hev1 & Hpb1 & Hall1);
      try assumption.
    apply IH in Hrun as (Hlen' & Hstop' & Hev' & Hpb' & Hall'); try assumption.
    split; [lia |]. split; [exact Hstop' |]. split; [lia |]. split; assumption.
Qed.

(** [runTask] of version 1 of the earlier package, on a task whose bound
    vectors have the task's dimension and are ordered.  It raises on an
    empty population.  When it returns, every individual was evaluated
    at least once, the budget of evaluations is used up, and the fitness
    it returns is the objective's value of the position it returns, which
    has the task's dimension. *)
Theorem runTask_result (task : Task) (fuel : nat) (e e' : NiaPy.Env G)
    (x' : vec) (f' : fitness) :
  length (lower task) = dimension task -> length (upper task) = dimension task ->
  (forall i l u, lower task !! i = Some l -> upper task !! i = Some u -> l <= u) ->
  NiaPy.runTask self fuel task e = Some (x', f', e') ->
  (0 < population_size self)%nat /\
  (NiaPy.Evals e + population_size self <= NiaPy.Evals e')%nat /\
  (max_evals task <= NiaPy.Evals e')%nat /\
  f' = Fin (fn task x') /\ length x' = dimension task.
Proof.
  intros Hl Hu Hb Hrun. unfold NiaPy.runTask, NiaPy.runTask_init in Hrun.
  inv_bind_as Hrun r e1 Einit. destruct r as [pop1 p_b1].
  inv_bind_as Einit pop0 e0 Epop.
  apply earlier_traverse_init_post in Epop as (Hlen0 & Hev0 & Hall0).
  rewrite length_seq in Hlen0, Hev0.
  destruct (argmin (map NiaPy.f pop0)) as [ib|] eqn:Hib; [| discriminate].
  inv_bind_as Einit pop2 e2 Eflag. unfold ret in Einit. injection Einit as <- <- <-.
  pose proof (earlier_flag_sample_members
                (fun p => NiaPy.f p = Fin (fn task (NiaPy.x p)) /\
                          length (NiaPy.x p) = dimension task)
                _ _ _ _ (fun p Hp => Hp) Eflag Hall0) as (Hlen2 & Hev2 & Hall2).
  assert (Hibn : (ib < length pop0)%nat).
  { destruct (argmin_spec (map NiaPy.f pop0)) as (r & m & Hr & Hm & _).
    - intros E. rewrite E in Hib. discriminate.
    - rewrite Hib in Hr. injection Hr as <-.
      apply lookup_lt_Some in Hm. rewrite length_map in Hm. exact Hm. }
  inv_bind_as Hrun r e3 Eloop. destruct r as [pop3 p_b3].
  apply runTask_loop_post in Eloop as (Hlen3 & Hstop & Hev3 & Hpb3 & Hall3);
    try assumption; [| lia].
  destruct (pop3 !! p_b3) as [best|] eqn:Hbest; [| discriminate].
  unfold ret in Hrun. injection Hrun as <- <- <-.
  pose proof (proj1 (Forall_lookup _ pop3) Hall3 p_b3 best Hbest) as [Hf Hlx].
  split; [lia |]. split; [lia |]. split; [exact Hstop |]. split; assumption.
Qed.

End Earlier_run.

Lemma runTask_result_witness :
  exists x' f' e',
    NiaPy.runTask lone_king 3 (sphere1 3) (start (101 # 200)) = Some (x', f', e') /\
    (3 <= NiaPy.Evals e')%nat /\ f' = Fin (sphere x').
Proof.
  destruct (NiaPy.runTask lone_king 3 (sphere1 3) (start (101 # 200)))
    as [[[x' f'] e']|] eqn:E; [| vm_compute in E; discriminate].
  exists x', f', e'. split; [reflexivity |].
  destruct (runTask_result lone_king (sphere1 3) 3 (start (101 # 200)) e' x' f'
              eq_refl eq_refl (sphere1_bounds 3) E) as (_ & _ & Hstop & Hf & _).
  split; [exact Hstop | exact Hf].
Defined.

(** * Properties of the rank statistics *)

Lemma Qnat_add (a b : nat) : Qnat (a + b) == Qnat a + Qnat b.
Proof. unfold Qnat. rewrite Nat2Z.inj_add, inject_Z_plus. reflexivity. Qed.

Lemma Qnat_mul (a b : nat) : Qnat (a * b) == Qnat a * Qnat b.
Proof. unfold Qnat. rewrite Nat2Z.inj_mul, inject_Z_mult. reflexivity. Qed.

(** The number of pairs [(b, a)], [a] from [u] and [b] from [v], that a
    relation holds of. *)
Lemma pairs_swap (R : Q -> Q -> bool) (u v : list Q) :
  sum_list (map (fun a => length (List.filter (fun b => R b a) v)) u) =
  sum_list (map (fun b => length (List.filter (fun a => R b a) u)) v).
Proof.
  induction u as [|a u IH]; cbn [map sum_list List.filter].
  - induction v as [|b v IHv]; [reflexivity | cbn; exact IHv].
  - rewrite IH. clear IH. induction v as [|b v IHv]; [reflexivity |].
    cbn [map sum_list List.filter]. destruct (R b a); cbn [length]; unfold id in *; lia.
Qed.

Lemma Q_trichotomy_count (a : Q) (v : list Q) :
  (length (List.filter (fun b => Qltb b a) v)
   + length (List.filter (fun b => Qeq_bool b a) v)
   + length (List.filter (fun b => Qltb a b) v) = length v)%nat.
Proof.
  induction v as [|b v IH]; [reflexivity |]. cbn [List.filter].
  destruct (Qltb b a) eqn:E1, (Qeq_bool b a) eqn:E2, (Qltb a b) eqn:E3;
    cbn [length]; try lia; exfalso;
    repeat match goal with
    | Hx : Qltb _ _ = true |- _ => apply Qltb_lt in Hx
    | Hx : Qltb _ _ = false |- _ => apply Qltb_ge in Hx
    | Hx : Qeq_bool _ _ = true |- _ => apply Qeq_bool_iff in Hx
    | Hx : Qeq_bool _ _ = false |- _ => apply Qeq_bool_neq in Hx
    end; lra.
Qed.

Lemma sum_list_add (g h : Q -> nat) (u : list Q) :
  sum_list (map (fun a => (g a + h a)%nat) u) =
  (sum_list (map g u) + sum_list (map h u))%nat.
Proof. induction u as [|a u IH]; cbn; lia. Qed.

Lemma pair_counts (v : list Q) :
  (2 * sum_list (map (fun a => length (List.filter (fun b => Qltb b a) v)) v)
   + sum_list (map (fun a => length (List.filter (fun b => Qeq_bool b a) v)) v)
   = length v * length v)%nat.
Proof.
  assert (Htotal :
    sum_list (map (fun a =>
       (length (List.filter (fun b => Qltb b a) v)
        + length (List.filter (fun b => Qeq_bool b a) v)
        + length (List.filter (fun b => Qltb a b) v))%nat) v)
    = (length v * length v)%nat).
  { erewrite map_ext by (intros a; apply Q_trichotomy_count).
    generalize (length v) at 1 3. intros n.
    induction v as [|a v IH]; cbn; lia. }
  rewrite (sum_list_add
             (fun a => (length (List.filter (fun b => Qltb b a) v)
                        + length (List.filter (fun b => Qeq_bool b a) v))%nat)
             (fun a => length (List.filter (fun b => Qltb a b) v))) in Htotal.
  rewrite (sum_list_add
             (fun a => length (List.filter (fun b => Qltb b a) v))
             (fun a => length (List.filter (fun b => Qeq_bool b a) v))) in Htotal.
  pose proof (pairs_swap (fun b a => Qltb a b) v v) as Hswap. cbv beta in Hswap.
  lia.
Qed.

Lemma np_sum_ranks (g h : Q -> nat) (u : list Q) :
  statistics.np_sum (map (fun a => Qnat (g a) + (Qnat (h a) + 1) / 2) u) ==
  Qnat (sum_list (map g u)) + (Qnat (sum_list (map h u)) + Qnat (length u)) / 2.
Proof.
  induction u as [|a u IH].
  - cbn. reflexivity.
  - cbn [map statistics.np_sum fold_right sum_list length].
    fold (statistics.np_sum (map (fun a => Qnat (g a) + (Qnat (h a) + 1) / 2) u)).
    rewrite IH, !Qnat_add.
    change (Qnat (S (length u))) with (Qnat (1 + length u)). rewrite Qnat_add.
    change (Qnat 1) with 1. unfold id. field.
Qed.

(** The ranks of [n] values add up to [n * (n + 1) / 2], whatever the
    ties. *)
Lemma rankdata_sum (v : list Q) :
  statistics.np_sum (statistics.rankdata v) ==
  Qnat (length v) * (Qnat (length v) + 1) / 2.
Proof.
  unfold statistics.rankdata.
  rewrite (np_sum_ranks (fun a => length (List.filter (fun b => Qltb b a) v))
             (fun a => length (List.filter (fun b => Qeq_bool b a) v)) v).
  pose proof (pair_counts v) as Hc.
  set (L := sum_list (map (fun a => length (List.filter (fun b => Qltb b a) v)) v)) in *.
  set (E := sum_list (map (fun a => length (List.filter (fun b => Qeq_bool b a) v)) v)) in *.
  clearbody L E.
  assert (Hq : 2 * Qnat L + Qnat E == Qnat (length v) * Qnat (length v)).
  { rewrite <- (Qnat_mul (length v)), <- Hc, Qnat_add, Qnat_mul. reflexivity. }
  assert (HE : Qnat E == Qnat (length v) * Qnat (length v) - 2 * Qnat L)
    by (rewrite <- Hq; ring).
  rewrite HE. field.
Qed.

Lemma length_rankdata (v : list Q) : length (statistics.rankdata v) = length v.
Proof. unfold statistics.rankdata. apply length_map. Qed.

(** ** [wilcoxonSignedRanks] *)

Lemma np_sub_same_length (a b : vec) :
  length a = length b -> statistics.np_sub a b = Some (vsub a b).
Proof.
  intros Hlen. unfold statistics.np_sub.
  destruct a as [|a0 [|a1 a]], b as [|b0 [|b1 b]]; try discriminate; try reflexivity.
  rewrite Hlen, Nat.eqb_refl. reflexivity.
Qed.

Lemma sum_where_split (y : vec) :
  forall r : vec, length y = length r ->
  Forall (fun v => Qltb 0 v = negb (Qltb v 0)) y ->
  statistics.sum_where (fun v => Qltb 0 v) y r
  + statistics.sum_where (fun v => Qltb v 0) y r == statistics.np_sum r.
Proof.
  unfold statistics.sum_where.
  induction y as [|v y IH]; intros [|w r] Hlen Hall; try discriminate.
  - cbn. reflexivity.
  - apply Forall_cons in Hall as [Hv Hall].
    injection Hlen as Hlen. specialize (IH r Hlen Hall).
    cbn [zip zip_with List.filter fst]. rewrite Hv.
    destruct (Qltb v 0); cbn [negb map snd statistics.np_sum fold_right];
      fold (statistics.np_sum r);
      rewrite <- IH; unfold statistics.np_sum; ring.
Qed.

Lemma nonzero_signed (y : vec) :
  Forall (fun v => Qltb 0 v = negb (Qltb v 0))
    (List.filter (fun v => negb (Qeq_bool v 0)) y).
Proof.
  apply Forall_forall. intros v Hv. apply list_elem_of_In, filter_In in Hv as [_ Hv].
  apply negb_true_iff, Qeq_bool_neq in Hv.
  destruct (Qltb 0 v) eqn:E1, (Qltb v 0) eqn:E2; try reflexivity; exfalso.
  - apply Qltb_lt in E1, E2. lra.
  - apply Qltb_ge in E1, E2. apply Hv. lra.
Qed.

Lemma rankdata_nonneg (v : vec) : Forall (fun q => 0 <= q) (statistics.rankdata v).
Proof.
  unfold statistics.rankdata. apply Forall_forall. intros q Hq.
  apply list_elem_of_fmap in Hq as (a & -> & _).
  cbv beta.
  generalize (Qnat_nonneg (length (List.filter (fun b => Qltb b a) v))).
  generalize (Qnat_nonneg (length (List.filter (fun b => Qeq_bool b a) v))).
  generalize (Qnat (length (List.filter (fun b => Qltb b a) v))).
  generalize (Qnat (length (List.filter (fun b => Qeq_bool b a) v))).
  intros e l He Hl. unfold Qdiv. change (/ 2) with (1 # 2). lra.
Qed.

Lemma sum_where_nonneg (cond : Q -> bool) (y : vec) :
  forall r : vec, Forall (fun q => 0 <= q) r -> 0 <= statistics.sum_where cond y r.
Proof.
  unfold statistics.sum_where.
  induction y as [|v y IH]; intros [|w r] Hall; try (cbn; lra).
  apply Forall_cons in Hall as [Hw Hall]. specialize (IH r Hall).
  cbn [zip zip_with List.filter fst].
  destruct (cond v); cbn [map snd statistics.np_sum fold_right];
    [fold (statistics.np_sum
             (map snd (List.filter (fun yr => cond yr.1) (zip y r)))); lra
    | exact IH].
Qed.

(** [wilcoxonSignedRanks] on two samples of the same length returns.
    With [n] the number of pairs that differ, the two rank sums it
    returns add up to [n * (n + 1)]: each holds half of the sum of all
    ranks besides the ranks of its own sign, so neither is below
    [n * (n + 1) / 4].  The third result is the smaller of the two. *)
Theorem wilcoxonSignedRanks_sums (a b : vec) :
  length a = length b ->
  exists r_p r_n T,
    statistics.wilcoxonSignedRanks a b = Some (r_p, r_n, T) /\
    (let n := Qnat (length (List.filter (fun v => negb (Qeq_bool v 0)) (vsub a b))) in
     r_p + r_n == n * (n + 1) /\
     n * (n + 1) / 4 <= r_p /\ n * (n + 1) / 4 <= r_n) /\
    T <= r_p /\ T <= r_n /\ (T = r_p \/ T = r_n).
Proof.
  intros Hlen. unfold statistics.wilcoxonSignedRanks.
  rewrite (np_sub_same_length a b Hlen). cbv zeta.
  set (y_diff := List.filter (fun v => negb (Qeq_bool v 0)) (vsub a b)).
  set (r := statistics.rankdata (map Qabs y_diff)).
  eexists _, _, _. split; [reflexivity |].
  pose proof (rankdata_sum (map Qabs y_diff)) as Hsum. fold r in Hsum.
  rewrite length_map in Hsum.
  assert (Hsplit : statistics.sum_where (fun v => Qltb 0 v) y_diff r
                   + statistics.sum_where (fun v => Qltb v 0) y_diff r
                   == statistics.np_sum r).
  { apply sum_where_split; [| apply nonzero_signed].
    unfold r. rewrite length_rankdata, length_map. reflexivity. }
  pose proof (sum_where_nonneg (fun v => Qltb 0 v) y_diff r (rankdata_nonneg _)) as Hp.
  pose proof (sum_where_nonneg (fun v => Qltb v 0) y_diff r (rankdata_nonneg _)) as Hn.
  set (P := statistics.sum_where (fun v => Qltb 0 v) y_diff r) in *.
  set (N := statistics.sum_where (fun v => Qltb v 0) y_diff r) in *.
  set (Sr := statistics.np_sum r) in *.
  set (m := Qnat (length y_diff) * (Qnat (length y_diff) + 1)) in *.
  clearbody P N Sr m.
  unfold Qdiv in *. change (/ 2) with (1 # 2) in *. change (/ 4) with (1 # 4).
  split; [split; [| split]; lra |].
  destruct (Qltb (Sr * (1 # 2) + N) (Sr * (1 # 2) + P)) eqn:E.
  - apply Qltb_lt in E. split; [lra |]. split; [lra | auto].
  - apply Qltb_ge in E. split; [lra |]. split; [lra | auto].
Qed.

Lemma wilcoxonSignedRanks_sums_witness :
  exists r_p r_n T,
    statistics.wilcoxonSignedRanks [5; 3; 8; 2] [4; 3; 6; 7] = Some (r_p, r_n, T) /\
    r_p + r_n == 12.
Proof.
  destruct (wilcoxonSignedRanks_sums [5; 3; 8; 2] [4; 3; 6; 7] eq_refl)
    as (r_p & r_n & T & Hrun & (Hsum & _) & _).
  exists r_p, r_n, T. split; [exact Hrun |].
  rewrite Hsum. reflexivity.
Defined.

(** ** [friedmanRanks] *)

Lemma column_Some (arrs : list vec) (i : nat) :
  Forall (fun a => (i < length a)%nat) arrs ->
  statistics.column arrs i = Some (map (fun a => default 0 (a !! i)) arrs).
Proof.
  induction 1 as [|a arrs Ha _ IH]; [reflexivity |].
  cbn [statistics.column map]. rewrite IH.
  destruct (lookup_lt_is_Some_2 a i Ha) as [v Hv]. rewrite Hv. reflexivity.
Qed.

Lemma column_None (arrs : list vec) (i : nat) :
  Exists (fun a => (length a <= i)%nat) arrs -> statistics.column arrs i = None.
Proof.
  induction 1 as [a arrs Ha | a arrs _ IH]; cbn [statistics.column].
  - rewrite (lookup_ge_None_2 a i Ha). reflexivity.
  - rewrite IH. destruct (a !! i); reflexivity.
Qed.

Lemma rank_rows_Some (arrs : list vec) (idx : list nat) :
  Forall (fun i => Forall (fun a => (i < length a)%nat) arrs) idx ->
  statistics.rank_rows arrs idx =
    Some (map (fun i => statistics.rankdata (map (fun a => default 0 (a !! i)) arrs))
            idx).
Proof.
  induction 1 as [|i idx Hi _ IH]; [reflexivity |].
  cbn [statistics.rank_rows map]. rewrite (column_Some arrs i Hi), IH. reflexivity.
Qed.

Lemma mean_ranks_Some (r : mat) (n : nat) (idx : list nat) :
  Forall (fun i => Forall (fun row => (i < length row)%nat) r) idx ->
  statistics.mean_ranks r n idx =
    Some (map (fun i =>
                 statistics.np_sum (map (fun row => default 0 (row !! i)) r) / Qnat n)
            idx).
Proof.
  induction 1 as [|i idx Hi _ IH]; [reflexivity |].
  cbn [statistics.mean_ranks map]. rewrite (column_Some r i Hi), IH. reflexivity.
Qed.

Lemma np_sum_cons (q : Q) (v : vec) :
  statistics.np_sum (q :: v) = q + statistics.np_sum v.
Proof. reflexivity. Qed.

Lemma np_sum_div {A : Type} (g : A -> Q) (d : Q) (l : list A) :
  statistics.np_sum (map (fun i => g i / d) l) == statistics.np_sum (map g l) / d.
Proof.
  induction l as [|i l IH]; cbn [map]; rewrite ?np_sum_cons.
  - unfold statistics.np_sum, Qdiv. cbn. ring.
  - rewrite IH. unfold Qdiv. ring.
Qed.

Lemma np_sum_swap {A B : Type} (g : A -> B -> Q) (u : list A) (v : list B) :
  statistics.np_sum (map (fun i => statistics.np_sum (map (fun b => g i b) v)) u) ==
  statistics.np_sum (map (fun b => statistics.np_sum (map (fun i => g i b) u)) v).
Proof.
  induction u as [|i u IH]; cbn [map]; rewrite ?np_sum_cons.
  - induction v as [|b v IHv]; cbn [map]; rewrite ?np_sum_cons; [reflexivity |].
    rewrite <- IHv. unfold statistics.np_sum. cbn. ring.
  - rewrite IH. clear IH.
    induction v as [|b v IHv]; cbn [map]; rewrite ?np_sum_cons.
    + unfold statistics.np_sum. cbn. ring.
    + rewrite <- IHv. ring.
Qed.

Lemma map_lookup_seq (row : vec) :
  map (fun i => default 0 (row !! i)) (seq 0 (length row)) = row.
Proof.
  induction row as [|q row IH]; [reflexivity |].
  cbn [length seq map]. rewrite <- seq_shift, map_map.
  change (q :: map (fun i => default 0 (row !! i)) (seq 0 (length row)) = q :: row).
  rewrite IH. reflexivity.
Qed.

Lemma np_sum_rows (r : mat) (t : Q) :
  Forall (fun row => statistics.np_sum row == t) r ->
  statistics.np_sum (map statistics.np_sum r) == Qnat (length r) * t.
Proof.
  induction 1 as [|row r Hrow _ IH]; cbn [map length]; rewrite ?np_sum_cons.
  - change (0 == 0 * t). ring.
  - rewrite IH, Hrow. change (Qnat (S (length r))) with (Qnat (1 + length r)).
    rewrite Qnat_add. change (Qnat 1) with 1. ring.
Qed.

(** [friedmanRanks] on [k] arrays, none shorter than the first one, which
    is not empty: it returns one average rank for each array, and the
    average ranks add up to [k * (k + 1) / 2], whatever the ties. *)
Theorem friedmanRanks_sum (a0 : vec) (rest : list vec) :
  (0 < length a0)%nat ->
  Forall (fun a => (length a0 <= length a)%nat) rest ->
  exists ranks,
    statistics.friedmanRanks (a0 :: rest) = Some ranks /\
    length ranks = S (length rest) /\
    statistics.np_sum ranks ==
      Qnat (S (length rest)) * (Qnat (S (length rest)) + 1) / 2.
Proof.
  intros Hn Hrest. set (arrs := a0 :: rest). set (n := length a0) in *.
  assert (Harrs : Forall (fun a => (n <= length a)%nat) arrs)
    by (constructor; [unfold n; lia | exact Hrest]).
  assert (Hcols : Forall (fun i => Forall (fun a => (i < length a)%nat) arrs)
                    (seq 0 n)).
  { apply Forall_forall. intros i Hi. apply elem_of_seq in Hi.
    eapply Forall_impl; [exact Harrs |]. cbn. intros a Ha. lia. }
  set (r := map (fun i => statistics.rankdata (map (fun a => default 0 (a !! i)) arrs))
              (seq 0 n)).
  assert (Hr : statistics.rank_rows arrs (seq 0 n) = Some r)
    by (apply rank_rows_Some, Hcols).
  assert (Hrlen : length r = n) by (unfold r; rewrite length_map, length_seq; reflexivity).
  assert (Hrows : Forall (fun row => length row = length arrs) r).
  { apply Forall_forall. intros row Hrow. unfold r in Hrow.
    apply list_elem_of_fmap in Hrow as (i & -> & _).
    rewrite length_rankdata, length_map. reflexivity. }
  assert (Hsums : Forall (fun row => statistics.np_sum row ==
                    Qnat (length arrs) * (Qnat (length arrs) + 1) / 2) r).
  { apply Forall_forall. intros row Hrow. unfold r in Hrow.
    apply list_elem_of_fmap in Hrow as (i & -> & _).
    rewrite rankdata_sum, length_map. reflexivity. }
  assert (Hidx : Forall (fun i => Forall (fun row => (i < length row)%nat) r)
                   (seq 0 (length arrs))).
  { apply Forall_forall. intros i Hi. apply elem_of_seq in Hi as [_ Hi].
    eapply Forall_impl; [exact Hrows |]. intros row Hrow. cbv beta.
    rewrite Hrow. exact Hi. }
  eexists. split.
  { change (statistics.friedmanRanks arrs)
      with (match statistics.rank_rows arrs (seq 0 n) with
            | Some [] => None
            | Some r => statistics.mean_ranks r n (seq 0 (length arrs))
            | None => None
            end).
    rewrite Hr.
    destruct r as [|row0 r0] eqn:Er; [cbn in Hrlen; lia |].
    rewrite <- Er in *. apply mean_ranks_Some, Hidx. }
  split; [rewrite length_map, length_seq; reflexivity |].
  change (S (length rest)) with (length arrs).
  rewrite np_sum_div.
  rewrite (np_sum_swap (fun i row => default 0 (row !! i)) (seq 0 (length arrs)) r).
  assert (Hsame : map (fun row : vec =>
                     statistics.np_sum
                       (map (fun i => default 0 (row !! i)) (seq 0 (length arrs)))) r
                  = map statistics.np_sum r).
  { apply map_ext_Forall. eapply Forall_impl; [exact Hrows |].
    intros row Hrow. cbv beta. rewrite <- Hrow, map_lookup_seq. reflexivity. }
  rewrite Hsame, (np_sum_rows r _ Hsums), Hrlen.
  pose proof (Qnat_pos n Hn) as Hpos.
  field. intros E. rewrite E in Hpos. discriminate.
Qed.

Lemma friedmanRanks_sum_witness :
  exists ranks,
    statistics.friedmanRanks [[1; 5; 3]; [2; 5; 1]; [3; 4; 2]] = Some ranks /\
    statistics.np_sum ranks == 6.
Proof.
  destruct (friedmanRanks_sum [1; 5; 3] [[2; 5; 1]; [3; 4; 2]])
    as (ranks & Hrun & _ & Hsum); [cbn; lia | repeat constructor |].
  exists ranks. split; [exact Hrun |]. rewrite Hsum. reflexivity.
Defined.

(** [friedmanRanks] raises without arrays, on an empty first array, and
    when an array is shorter than the first one. *)
Theorem friedmanRanks_raises (arrs : list vec) :
  (arrs = [] \/
   (exists a0 rest, arrs = a0 :: rest /\
      (a0 = [] \/ Exists (fun a => (length a < length a0)%nat) rest))) ->
  statistics.friedmanRanks arrs = None.
Proof.
  intros [-> | (a0 & rest & -> & [-> | Hshort])]; [reflexivity | reflexivity |].
  unfold statistics.friedmanRanks.
  assert (Hnone : statistics.rank_rows (a0 :: rest) (seq 0 (length a0)) = None);
    [| rewrite Hnone; reflexivity].
  apply Exists_exists in Hshort as (a & Ha & Hlen).
  assert (Hi : length a ∈ seq 0 (length a0)) by (apply elem_of_seq; lia).
  assert (Hcol : statistics.column (a0 :: rest) (length a) = None).
  { apply column_None. right. apply Exists_exists. exists a. split; [exact Ha | lia]. }
  revert Hi. generalize (seq 0 (length a0)) as idx.
  induction idx as [|i idx IH]; intros Hi; [inversion Hi |].
  cbn [statistics.rank_rows]. apply elem_of_cons in Hi as [<- | Hi].
  - rewrite Hcol. reflexivity.
  - rewrite (IH Hi). destruct (statistics.column (a0 :: rest) i); reflexivity.
Qed.

Lemma friedmanRanks_raises_witness :
  statistics.friedmanRanks [[1; 2]; [3]] = None.
Proof.
  apply friedmanRanks_raises. right. exists [1; 2], [[3]].
  split; [reflexivity |]. right. constructor. cbn. lia.
Defined.
